(** * Local-environment extraction ([orchestrator/augmentor/extract_env.py])

    A shallow embedding of [extract_env] and [find_central_atom], and the
    properties of the specification that concern them; with them, two
    functions that work on the same atoms objects: [sort_configs_and_tag_atoms]
    of [orchestrator/utils/input_output.py], and the metadata that
    [QUESTSDescriptor.compute_batch] of
    [orchestrator/computer/descriptor/quests.py] attaches and that
    [extract_env] carries over.

    Conventions of the embedding.
    - Numbers are binary64 floats ([PrimFloat.float]), as in numpy's float64;
      every comparison of the source is the floating-point comparison.
    - A Python exception is a value of [exn]; a call that may raise returns
      [result A = exn + A].
    - Python dictionaries are [gmap string _]; lists and numpy rows are lists.
    - Atom indices are natural numbers (the 0-based range of the source).
    - The [arrays] of an atoms object are its auxiliary arrays, the per-atom
      data beyond symbol and position. ASE keeps the positions and the atomic
      numbers in the same dictionary, under the names [positions] and
      [numbers]; here they are the fields [positions] and [symbols], and the
      keys to transfer are names of auxiliary arrays ([auxiliary_keys]). A
      request that lists [positions] among them makes ASE write the source
      positions over the shifted ones; a statement that depends on the values
      of the positions takes [auxiliary_keys] as a hypothesis.
    - The ASE neighbour list is an external collaborator: the table it holds
      after [nl.update(original_atoms)] is an input of the model. *)

From Stdlib Require Import ZArith String Ascii List Bool Lia.
From Stdlib Require Import Floats.
From stdpp Require Import base option list gmap strings sorting.

Open Scope string_scope.
Open Scope list_scope.

(** ** Python: exceptions and fallible computations *)

Inductive exn :=
| ValueError (msg : string)
| CellTooSmallError (msg : string)
| KeyError (key : string)
| IndexError
| TypeError.

Definition result (A : Type) : Type := (exn + A)%type.

#[global] Instance result_ret : MRet result := λ A x, inr x.
#[global] Instance result_bind : MBind result :=
  λ A B f m, match m with inl e => inl e | inr a => f a end.

Definition raise {A} (e : exn) : result A := inl e.

(** [l[i]] on a list or a numpy row. *)
Definition getitem {A} (l : list A) (i : nat) : result A :=
  match l !! i with Some x => inr x | None => raise IndexError end.

(** [d[k]] on a dictionary. *)
Definition dict_get {V} (d : gmap string V) (k : string) : result V :=
  match d !! k with Some v => inr v | None => raise (KeyError k) end.

(** A [for] loop whose body may raise: the state is threaded through. *)
Fixpoint for_each {A S} (body : S → A → result S) (xs : list A) (s : S)
  : result S :=
  match xs with
  | [] => inr s
  | x :: xs' => s' ← body s x; for_each body xs' s'
  end.

(** [x.rsplit('_', 1)]: [Some head] when [x] holds an underscore, the text
    before the last one. *)
Fixpoint rsplit_last (s : string) : option string :=
  match s with
  | EmptyString => None
  | String c t =>
      match rsplit_last t with
      | Some h => Some (String c h)
      | None => if Ascii.eqb c "_" then Some EmptyString else None
      end
  end.

(** [x.rsplit('_', 1)[0]] *)
Definition rsplit1_head (x : string) : string :=
  match rsplit_last x with Some h => h | None => x end.

(** [needle in hay] on two strings. *)
Fixpoint str_in (needle hay : string) : bool :=
  String.prefix needle hay
  || match hay with EmptyString => false | String _ t => str_in needle t end.

(** Values stored in [Atoms.info]. *)
#[warnings="-register-all"] Inductive pyobj :=
| PyNum (n : Z)
| PyStr (s : string)
| PyDict (d : gmap string pyobj).

(** ** numpy: float64 rows and the few array operations used *)

Definition vec3 : Type := float * float * float.
Definition mat3 : Type := vec3 * vec3 * vec3.
Definition offset : Type := Z * Z * Z.

Definition coords (v : vec3) : list float :=
  let '(x, y, z) := v in [x; y; z].

Definition vmap2 (f : float → float → float) (u v : vec3) : vec3 :=
  let '(a, b, c) := u in let '(x, y, z) := v in (f a x, f b y, f c z).

Definition vadd : vec3 → vec3 → vec3 := vmap2 PrimFloat.add.
Definition vsub : vec3 → vec3 → vec3 := vmap2 PrimFloat.sub.

(** [v / 2] *)
Definition vhalf (v : vec3) : vec3 :=
  let '(x, y, z) := v in (x / 2, y / 2, z / 2)%float.

(** An integer entry converted to float64 (correctly rounded). *)
Definition of_int (z : Z) : float := SF2Prim (binary_normalize prec emax z 0 false).

(** [offset @ cell]: the integer row vector times the 3x3 matrix. *)
Definition vecmat (o : offset) (m : mat3) : vec3 :=
  let '(o0, o1, o2) := o in
  let '((a0, a1, a2), (b0, b1, b2), (c0, c1, c2)) := m in
  ((of_int o0 * a0 + of_int o1 * b0) + of_int o2 * c0,
   (of_int o0 * a1 + of_int o1 * b1) + of_int o2 * c1,
   (of_int o0 * a2 + of_int o1 * b2) + of_int o2 * c2)%float.

(** [np.linalg.norm(row, 2)]: [sqrt(sum(x * x))]. *)
Definition norm2 (v : vec3) : float :=
  let '(x, y, z) := v in sqrt ((x * x + y * y) + z * z)%float.

(** [np.maximum]: the first argument when it is NaN or not below the second. *)
Definition np_maximum (a b : float) : float :=
  if (b <=? a)%float || is_nan a then a else b.

(** [np.max] of a three-element array. *)
Definition np_max (v : vec3) : float :=
  let '(x, y, z) := v in np_maximum (np_maximum x y) z.

(** [np.where(mask)[0]]: the positions holding [True], counted from [k]. *)
Fixpoint np_where_from (k : nat) (mask : list bool) : list nat :=
  match mask with
  | [] => []
  | b :: m => if b then k :: np_where_from (S k) m else np_where_from (S k) m
  end.

Definition np_where (mask : list bool) : list nat := np_where_from 0 mask.

(** [a[idx, :]]: the rows of [a] at the positions [idx]. *)
Fixpoint take_rows {A} (a : list A) (idx : list nat) : result (list A) :=
  match idx with
  | [] => inr []
  | i :: idx' => x ← getitem a i; xs ← take_rows a idx'; inr (x :: xs)
  end.

(** [bool(a)] on a boolean array, as [if a:] evaluates it: an array of more
    than one element has no truth value. *)
Definition truth_value (a : list bool) : result bool :=
  match a with
  | [] => inr false
  | [b] => inr b
  | _ => raise (ValueError
           "The truth value of an array with more than one element is ambiguous. Use a.any() or a.all()")
  end.

(** The [new_cell] argument: an array of size 3 or a 3x3 array. *)
Inductive ndarray :=
| Vec3 (v : vec3)
| Mat3 (m : mat3).

(** [new_cell[np.where(~np.eye(3, dtype=bool))]]: the six off-diagonal
    entries, in row-major order. *)
Definition off_diagonal (m : mat3) : list float :=
  let '((_, a1, a2), (b0, _, b2), (c0, c1, _)) := m in [a1; a2; b0; b2; c0; c1].

(** [np.linalg.norm(new_cell, 2, 1)] *)
Definition row_norms (m : mat3) : vec3 :=
  let '(a, b, c) := m in (norm2 a, norm2 b, norm2 c).

(** ** ASE: atoms, constraints, neighbour lists *)

(** One per-atom value of an auxiliary array. *)
Abbreviation entry := (list float).

Record FixAtoms := { index : list nat }.

Record Atoms := {
  symbols : list string;
  positions : list vec3;
  cell : mat3;
  pbc : bool;
  arrays : gmap string (list entry);
  info : gmap string pyobj;
  constraints : list FixAtoms
}.

(** The cell ASE stores for a [cell=] argument: a 3-vector gives the diagonal
    matrix of its entries. *)
Definition cell_of (c : ndarray) : mat3 :=
  match c with
  | Vec3 (a, b, c) => ((a, 0, 0), (0, b, 0), (0, 0, c))%float
  | Mat3 m => m
  end.

(** [atoms.cell.cellpar()[0:3]]: the lengths of the three cell vectors. *)
Definition cellpar (a : Atoms) : vec3 := row_norms (cell a).

(** [atoms.get_array(k)], for the name [k] of an auxiliary array. *)
Definition get_array (a : Atoms) (k : string) : result (list entry) :=
  dict_get (arrays a) k.

(** The neighbour list after [nl.update(atoms)]: for each atom, its
    neighbours as pairs of an atom index and a periodic-image offset. *)
Record NeighborList := { neighbors : list (list (nat * offset)) }.

(** [nl.get_neighbors(a)], the two returned arrays zipped. *)
Definition get_neighbors (nl : NeighborList) (a : nat)
  : result (list (nat * offset)) :=
  getitem (neighbors nl) a.

(** [for key, arr in new_arrays.items(): atoms.set_array(key, np.array(arr))]
    on new atoms, for names of auxiliary arrays, none of which the atoms hold
    yet: ASE refuses an array whose length is not the number of atoms. *)
Definition set_arrays (n_atoms : nat) (new_arrays : gmap string (list entry))
  : result (gmap string (list entry)) :=
  if decide (map_Forall (λ _ arr, length arr = n_atoms) new_arrays)
  then inr new_arrays
  else raise (ValueError "Array has wrong length").

(** [atom_inds]: one integer or a list of them. *)
Inductive index_arg :=
| IdxInt (i : nat)
| IdxList (l : list nat).

(** ** [extract_env] *)

Section ExtractEnv.

(** [METADATA_KEY] of [orchestrator.utils.data_standard]: the reserved key of
    the nested metadata dictionary. *)
Variable METADATA_KEY : string.

(** Lines 39-48: the side lengths of the target cell and their maximum. *)
Definition cell_sides (new_cell : ndarray) : result (vec3 * float) :=
  match new_cell with
  | Vec3 v => inr (v, np_max v)
  | Mat3 m =>
      non_ortho ← truth_value (map (λ x, negb (x =? 0)%float) (off_diagonal m));
      if (non_ortho : bool)
      then raise (ValueError
             "New cell is non orthorhombic; this is an unxpected case not accounted for")
      else let cell_norms := row_norms m in inr (cell_norms, np_max cell_norms)
  end.

(** Lines 39-67: the checks made before any extraction. *)
Definition validate (original_atoms : Atoms) (rc : float) (new_cell : ndarray)
  : result (vec3 * float) :=
  '(cell_norms, max_cell_len) ← cell_sides new_cell;
  let '(n0, n1, n2) := cell_norms in
  if negb ((n0 =? n1)%float && (n1 =? n2)%float)
  then raise (ValueError
         "New cell is not a cube. This is an unxpected case not accounted for")
  else
  let '(p0, p1, p2) := cellpar original_atoms in
  if (p0 <? max_cell_len)%float || (p1 <? max_cell_len)%float
     || (p2 <? max_cell_len)%float
  then raise (CellTooSmallError
         "Requested extracted cell size is larger than original structure")
  else if (max_cell_len <? rc)%float
  then raise (CellTooSmallError
         "The specified value for rc is greater than the maximum cell vector length for the new supercell")
  else if (max_cell_len <? rc * 2)%float
  then raise (CellTooSmallError
         "2*rc is greater than the extracted cell side length")
  else inr (cell_norms, max_cell_len).

(** Lines 68-69 *)
Definition normalize_inds (atom_inds : index_arg) : list nat :=
  match atom_inds with IdxInt i => [i] | IdxList l => l end.

(** [{k: [] for k in keys_to_transfer}] *)
Definition empty_lists (keys : list string) : gmap string (list entry) :=
  foldl (λ d k, <[k := []]> d) ∅ keys.

(** [for key in keys_to_transfer: tgt[key].append(src[key][i])] *)
Fixpoint append_row (keys : list string) (src : gmap string (list entry))
    (i : nat) (tgt : gmap string (list entry))
  : result (gmap string (list entry)) :=
  match keys with
  | [] => inr tgt
  | key :: ks =>
      l ← dict_get tgt key;
      a ← dict_get src key;
      v ← getitem a i;
      append_row ks src i (<[key := l ++ [v]]> tgt)
  end.

(** Line 79: [{k: original_atoms.get_array(k) for k in keys_to_transfer}] *)
Definition key_arrays_of (original_atoms : Atoms) (keys : list string)
  : result (gmap string (list entry)) :=
  for_each (λ d k, a ← get_array original_atoms k; inr (<[k := a]> d)) keys ∅.

(** Lines 88-90: the displacement of the image [(i, offset)] from the centre. *)
Definition displacement (original_atoms : Atoms) (atom_ind : nat)
    (io : nat * offset) : result vec3 :=
  p_i ← getitem (positions original_atoms) io.1;
  p_c ← getitem (positions original_atoms) atom_ind;
  inr (vsub (vadd p_i (vecmat io.2 (cell original_atoms))) p_c).

(** Lines 87-94: one turn of the loop over the neighbours. *)
Definition neigh_body (original_atoms : Atoms) (atom_ind : nat)
    (keys : list string) (key_arrays : gmap string (list entry))
    (st : list vec3 * list string * gmap string (list entry))
    (io : nat * offset)
  : result (list vec3 * list string * gmap string (list entry)) :=
  let '(neigh_disp, neigh_symbols, neigh_arrays) := st in
  d ← displacement original_atoms atom_ind io;
  s ← getitem (symbols original_atoms) io.1;
  arrs ← append_row keys key_arrays io.1 neigh_arrays;
  inr (neigh_disp ++ [d], neigh_symbols ++ [s], arrs).

(** Lines 102-105 and 112-115: one turn of the loops that copy the symbols
    and the auxiliary values of the selected rows. *)
Definition select_body (keys : list string) (src_symbols : list string)
    (src_arrays : gmap string (list entry))
    (st : list string * gmap string (list entry)) (i : nat)
  : result (list string * gmap string (list entry)) :=
  let '(syms, arrs) := st in
  s ← getitem src_symbols i;
  arrs' ← append_row keys src_arrays i arrs;
  inr (syms ++ [s], arrs').

(** Line 98: the mask of the rows inside the cube. *)
Definition in_cube (max_cell_len : float) (d : vec3) : bool :=
  forallb (λ c, (abs c <=? max_cell_len / 2)%float) (coords d).

(** Line 108: the mask of the rows inside the sphere. *)
Definition in_rc (rc : float) (d : vec3) : bool := (norm2 d <=? rc)%float.

(** Lines 142-148: one turn of the loop over the base names. *)
Definition info_body (original_info : gmap string pyobj)
    (st : gmap string pyobj * gmap string pyobj) (output_key : string)
  : result (gmap string pyobj * gmap string pyobj) :=
  let '(new_info_dict, new_metadata_dict) := st in
  let new_info_dict :=
    filter (λ kv, str_in output_key kv.1 = true) original_info ∪ new_info_dict in
  md ← dict_get original_info METADATA_KEY;
  match md with
  | PyDict d =>
      match d !! output_key with
      | Some v => inr (new_info_dict, <[output_key := v]> new_metadata_dict)
      | None => inr (new_info_dict, new_metadata_dict)
      end
  | PyStr s =>
      if str_in output_key s then raise TypeError
      else inr (new_info_dict, new_metadata_dict)
  | PyNum _ => raise TypeError
  end.

(** Lines 140-150: the [info] dictionary of an extracted structure. *)
Definition new_info (original_info : gmap string pyobj) (keys : list string)
  : result (gmap string pyobj) :=
  '(new_info_dict, new_metadata_dict) ←
    for_each (info_body original_info) (map rsplit1_head keys) (∅, ∅);
  inr (<[METADATA_KEY := PyDict new_metadata_dict]> new_info_dict).

(** The rows gathered for one centre atom (lines 82-115): the displacements,
    symbols and auxiliary lists of the neighbours, of those in the cube, and
    of those of the cube within [rc], with the two index arrays. *)
Record stages := {
  neigh_disp : list vec3;
  ind_in_cube : list nat;
  cube_disp : list vec3;
  cube_symbols : list string;
  cube_arrays : gmap string (list entry);
  ind_in_rc : list nat;
  sphere_disp : list vec3;
  sphere_symbols : list string;
  sphere_arrays : gmap string (list entry)
}.

Definition gather (original_atoms : Atoms) (nl : NeighborList) (rc : float)
    (max_cell_len : float) (keys : list string)
    (key_arrays : gmap string (list entry)) (atom_ind : nat) : result stages :=
  nbrs ← get_neighbors nl atom_ind;
  '(neigh_disp, neigh_symbols, neigh_arrays) ←
    for_each (neigh_body original_atoms atom_ind keys key_arrays) nbrs
             ([], [], empty_lists keys);
  let ind_in_cube := np_where (map (in_cube max_cell_len) neigh_disp) in
  cube_disp ← take_rows neigh_disp ind_in_cube;
  '(cube_symbols, cube_arrays) ←
    for_each (select_body keys neigh_symbols neigh_arrays) ind_in_cube
             ([], empty_lists keys);
  let ind_in_rc := np_where (map (in_rc rc) cube_disp) in
  sphere_disp ← take_rows cube_disp ind_in_rc;
  '(sphere_symbols, sphere_arrays) ←
    for_each (select_body keys cube_symbols cube_arrays) ind_in_rc
             ([], empty_lists keys);
  inr {| neigh_disp := neigh_disp; ind_in_cube := ind_in_cube;
         cube_disp := cube_disp; cube_symbols := cube_symbols;
         cube_arrays := cube_arrays; ind_in_rc := ind_in_rc;
         sphere_disp := sphere_disp; sphere_symbols := sphere_symbols;
         sphere_arrays := sphere_arrays |}.

(** Lines 118-127: what is emitted, before the shift to the box centre. *)
Definition emitted_disp (extract_cube : bool) (g : stages) : list vec3 :=
  if extract_cube then cube_disp g else sphere_disp g.

Definition emitted_fix (extract_cube : bool) (g : stages) : list nat :=
  if extract_cube then ind_in_rc g else seq 0 (length (sphere_disp g)).

(** Lines 82-156: the structure extracted around one centre atom. *)
Definition extract_one (original_atoms : Atoms) (nl : NeighborList)
    (rc : float) (new_cell : ndarray) (extract_cube : bool)
    (keys : list string) (cell_norms : vec3) (max_cell_len : float)
    (key_arrays : gmap string (list entry)) (atom_ind : nat) : result Atoms :=
  g ← gather original_atoms nl rc max_cell_len keys key_arrays atom_ind;
  let new_pos := emitted_disp extract_cube g in
  let new_symbols := if extract_cube then cube_symbols g else sphere_symbols g in
  let ind_fix := emitted_fix extract_cube g in
  let new_arrays := if extract_cube then cube_arrays g else sphere_arrays g in
  let box_center := vhalf cell_norms in
  let new_pos := map (λ d, vadd d box_center) new_pos in
  arrs ← set_arrays (length new_pos) new_arrays;
  new_info_dict ← new_info (info original_atoms) keys;
  inr {| symbols := new_symbols; positions := new_pos;
         cell := cell_of new_cell; pbc := true; arrays := arrs;
         info := new_info_dict; constraints := [ {| index := ind_fix |} ] |}.

Definition extract_env (original_atoms : Atoms) (nl : NeighborList)
    (rc : float) (atom_inds : index_arg) (new_cell : ndarray)
    (extract_cube : bool) (keys_to_transfer : option (list string))
  : result (list Atoms) :=
  let keys := default [] keys_to_transfer in
  '(cell_norms, max_cell_len) ← validate original_atoms rc new_cell;
  let atom_inds := normalize_inds atom_inds in
  key_arrays ← key_arrays_of original_atoms keys;
  for_each (λ subcells atom_ind,
              new_atoms ← extract_one original_atoms nl rc new_cell extract_cube
                            keys cell_norms max_cell_len key_arrays atom_ind;
              inr (subcells ++ [new_atoms]))
           atom_inds [].

End ExtractEnv.

(** ** [find_central_atom] *)

(** Lines 177-182: the loop over the coordinates of one atom; [atom_found]
    enters with the value the previous atom left. *)
Fixpoint coord_loop (half_length : float) (cs : list float) (atom_found : bool)
  : bool :=
  match cs with
  | [] => atom_found
  | coord :: cs' =>
      if (coord =? half_length)%float then coord_loop half_length cs' true
      else false
  end.

(** Lines 176-184: the loop over the atoms, from index [i]. *)
Fixpoint atom_loop (half_length : float) (i : nat) (ps : list vec3)
    (atom_found : bool) : option nat :=
  match ps with
  | [] => None
  | atom_pos :: ps' =>
      let found := coord_loop half_length (coords atom_pos) atom_found in
      if found then Some i else atom_loop half_length (S i) ps' found
  end.

(** The index found, or [None] (Python's value of a function that ends
    without [return]). *)
Definition find_central_atom (config : Atoms) (side_size : float) : option nat :=
  atom_loop (side_size / 2)%float 0 (positions config) false.

(** ** Python: the order of values and [sorted] *)

(** [a < b] on two values of [pyobj]: integers by value, strings by code
    point; an integer and a string, or a dictionary and any value, raise
    [TypeError]. (Python also orders floats, booleans and tuples, which are
    no values of [pyobj].) *)
Definition py_lt (a b : pyobj) : result bool :=
  match a, b with
  | PyNum x, PyNum y => inr (x <? y)%Z
  | PyStr s, PyStr t => inr (String.ltb s t)
  | _, _ => raise TypeError
  end.

(** One keyed element placed into a sorted list: behind the entries whose
    key is below its own, in front of the others. *)
Fixpoint insert_sorted {A} (kx : pyobj) (x : A) (l : list (pyobj * A))
  : result (list (pyobj * A)) :=
  match l with
  | [] => inr [(kx, x)]
  | (ky, y) :: l' =>
      below ← py_lt ky kx;
      if (below : bool)
      then l'' ← insert_sorted kx x l'; inr ((ky, y) :: l'')
      else inr ((kx, x) :: (ky, y) :: l')
  end.

(** The sort of a keyed list: each element goes in front of the later
    elements that are not below it. *)
Definition sort_keyed {A} (keyed : list (pyobj * A))
  : result (list (pyobj * A)) :=
  foldr (λ kx acc, l' ← acc; insert_sorted kx.1 kx.2 l') (inr []) keyed.

(** [sorted(l, key=key)]: the keys are computed first, from left to right;
    the sort compares keys with [<] only and is stable, which fixes its
    result. *)
Definition py_sorted {A} (key : A → result pyobj) (l : list A)
  : result (list A) :=
  keyed ← for_each (λ acc x, kx ← (k ← key x; inr (k, x)); inr (acc ++ [kx])) l [];
  r ← sort_keyed keyed;
  inr (r.*2).

(** ** [sort_configs_and_tag_atoms] ([orchestrator/utils/input_output.py]) *)

Section SortConfigs.

(** The atoms objects are named by references (natural numbers), so that a
    list may hold the same object twice; [objs] is the object behind each
    reference. *)
Variable objs : nat → Atoms.

(** [len(atoms)] *)
Definition len (atoms : Atoms) : nat := length (positions atoms).

(** Lines 94-97: one turn of the tagging loop. The state is the counter and,
    for each object written so far, the integer array that its
    [arrays['atom_id']] holds. *)
Definition tag_body (st : nat * gmap nat (list nat)) (atoms : nat)
  : nat * gmap nat (list nat) :=
  let '(counter, atom_id) := st in
  let n := len (objs atoms) in
  (counter + n, <[atoms := seq counter n]> atom_id).

(** The sorted list of references, and the [arrays['atom_id']] that the
    call has written. *)
Definition sort_configs_and_tag_atoms (list_of_atoms : list nat)
    (id_key : string) : result (list nat * gmap nat (list nat)) :=
  sorted_atoms ←
    py_sorted (λ atoms, dict_get (info (objs atoms)) id_key) list_of_atoms;
  inr (sorted_atoms, (foldl tag_body (0, ∅) sorted_atoms).2).

End SortConfigs.

(** ** [QUESTSDescriptor.compute_batch]
       ([orchestrator/computer/descriptor/quests.py]): the metadata *)

Section Quests.

(** [self.OUTPUT_KEY], [METADATA_KEY] and [self._metadata]. *)
Variable OUTPUT_KEY METADATA_KEY : string.
Variable metadata : gmap string pyobj.

(** [f'{self.OUTPUT_KEY}_{k}'] *)
Definition field_name (k : string) : string := OUTPUT_KEY +:+ "_" +:+ k.

(** Lines 85-92: what the loop of [compute_batch] does to the [info] of one
    atoms object. The descriptors themselves come from the QUESTS library
    and are no part of this model. *)
Definition attach_metadata (info0 : gmap string pyobj)
  : result (gmap string pyobj) :=
  let info1 := map_fold (λ k v i, <[field_name k := v]> i) info0 metadata in
  let info2 := if decide (is_Some (info1 !! METADATA_KEY)) then info1
               else <[METADATA_KEY := PyDict ∅]> info1 in
  md ← dict_get info2 METADATA_KEY;
  match md with
  | PyDict d =>
      inr (<[METADATA_KEY := PyDict (<[OUTPUT_KEY := PyDict metadata]> d)]> info2)
  | _ => raise TypeError
  end.

End Quests.

(** ** Vocabulary of the specification *)

(** The three derived side lengths of a target cell. *)
Definition side_lengths (c : ndarray) : vec3 :=
  match c with Vec3 v => v | Mat3 m => row_norms m end.

(** All three entries equal, by the floating-point comparison. *)
Definition all_equal (v : vec3) : bool :=
  let '(a, b, c) := v in ((a =? b) && (b =? c) && (a =? c))%float.

(** The maximum side length exceeds one of the source's cell lengths. *)
Definition exceeds_source (original_atoms : Atoms) (max_cell_len : float) : bool :=
  let '(p0, p1, p2) := cellpar original_atoms in
  ((p0 <? max_cell_len) || (p1 <? max_cell_len) || (p2 <? max_cell_len))%float.

(** The three size conditions of the validation. *)
Definition too_small (original_atoms : Atoms) (rc : float) (c : ndarray) : bool :=
  let max_cell_len := np_max (side_lengths c) in
  exceeds_source original_atoms max_cell_len
  || (max_cell_len <? rc)%float || (max_cell_len <? rc * 2)%float.

Definition is_cell_too_small {A} (r : result A) : Prop :=
  ∃ msg, r = raise (CellTooSmallError msg).

Definition is_value_error {A} (r : result A) : Prop :=
  ∃ msg, r = raise (ValueError msg).

(** All three coordinates equal to [half], by the floating-point comparison. *)
Definition at_center (half : float) (p : vec3) : bool :=
  let '(x, y, z) := p in ((x =? half) && (y =? half) && (z =? half))%float.

(** ** Auxiliary arrays, the cube and the sphere *)

(** The names under which ASE keeps the positions and the atomic numbers. *)
Definition built_in_array (key : string) : bool :=
  String.eqb key "positions" || String.eqb key "numbers".

(** The keys name auxiliary arrays only. *)
Definition auxiliary_keys (keys : list string) : Prop :=
  Forall (λ key, built_in_array key = false) keys.

(** The three absolute components of [d] are at most [half]. *)
Definition inside_cube (half : float) (d : vec3) : bool :=
  let '(x, y, z) := d in
  ((abs x <=? half) && (abs y <=? half) && (abs z <=? half))%float.

(** The Euclidean norm of [d] is at most [rc]. *)
Definition inside_sphere (rc : float) (d : vec3) : bool :=
  let '(x, y, z) := d in (sqrt (x * x + y * y + z * z) <=? rc)%float.

(** ** Rows selected by index *)

(** [xs] holds the entries of [l] at the positions [idx], in order. *)
Definition picks {A} (l : list A) (idx : list nat) (xs : list A) : Prop :=
  Forall2 (λ i x, l !! i = Some x) idx xs.

(** The value that a dictionary of per-atom lists holds for [key] at row [i]
    (the empty value where there is none). *)
Definition cell_val (d : gmap string (list entry)) (key : string) (i : nat)
  : entry :=
  default [] (d !! key ≫= λ a, a !! i).

(** How many times [key] is listed in [keys]. *)
Definition occurrences (key : string) (keys : list string) : nat :=
  length (filter (λ k, k = key) keys).

(** ** The neighbour images behind the emitted rows *)

(** A mask on displacements, read on the neighbour entries. *)
Definition keeps (original_atoms : Atoms) (atom_ind : nat) (P : vec3 → bool)
    (io : nat * offset) : bool :=
  match displacement original_atoms atom_ind io with
  | inr d => P d
  | inl _ => false
  end.

(** The neighbour entries of [atom_ind] whose image lies in the cube. *)
Definition cube_rows (original_atoms : Atoms) (nl : NeighborList)
    (max_cell_len : float) (atom_ind : nat) : list (nat * offset) :=
  filter (λ io, keeps original_atoms atom_ind (in_cube max_cell_len) io = true)
         (default [] (neighbors nl !! atom_ind)).

(** Those of the cube whose image lies within [rc]. *)
Definition sphere_rows (original_atoms : Atoms) (nl : NeighborList) (rc : float)
    (max_cell_len : float) (atom_ind : nat) : list (nat * offset) :=
  filter (λ io, keeps original_atoms atom_ind (in_rc rc) io = true)
         (cube_rows original_atoms nl max_cell_len atom_ind).

(** The neighbour entries that give the atoms of the extracted structure,
    in the order of its atoms. *)
Definition emitted_rows (original_atoms : Atoms) (nl : NeighborList) (rc : float)
    (max_cell_len : float) (extract_cube : bool) (atom_ind : nat)
  : list (nat * offset) :=
  if extract_cube then cube_rows original_atoms nl max_cell_len atom_ind
  else sphere_rows original_atoms nl rc max_cell_len atom_ind.

(** ** Metadata *)

(** The value that the nested metadata dictionary of [info0] holds for
    [key]. *)
Definition nested_lookup (METADATA_KEY : string) (info0 : gmap string pyobj)
    (key : string) : option pyobj :=
  match info0 !! METADATA_KEY with
  | Some (PyDict d) => d !! key
  | _ => None
  end.

(** The same atoms with another [info] dictionary. *)
Definition with_info (a : Atoms) (i : gmap string pyobj) : Atoms :=
  {| symbols := symbols a; positions := positions a; cell := cell a;
     pbc := pbc a; arrays := arrays a; info := i;
     constraints := constraints a |}.


(** ** Valid requests *)

(** A request the extractor serves: the validation passes; the requested
    keys are distinct and name per-atom arrays of the source; when keys are
    requested the source's [info] holds the nested dictionary under the
    reserved key; the neighbour list is that of the source's atoms; the
    centre indices are atoms of the source. *)
Definition valid_request (METADATA_KEY : string) (original_atoms : Atoms)
    (nl : NeighborList) (rc : float) (atom_inds : index_arg)
    (new_cell : ndarray) (keys_to_transfer : option (list string)) : Prop :=
  let n_atoms := length (positions original_atoms) in
  let keys := default [] keys_to_transfer in
  (∃ sides, validate original_atoms rc new_cell = inr sides)
  ∧ NoDup keys
  ∧ length (symbols original_atoms) = n_atoms
  ∧ (∀ key, key ∈ keys →
       ∃ arr, arrays original_atoms !! key = Some arr ∧ length arr = n_atoms)
  ∧ (keys ≠ [] → ∃ d, info original_atoms !! METADATA_KEY = Some (PyDict d))
  ∧ length (neighbors nl) = n_atoms
  ∧ Forall (Forall (λ io : nat * offset, io.1 < n_atoms)) (neighbors nl)
  ∧ Forall (λ a, a < n_atoms) (normalize_inds atom_inds).

(** ** Finite inputs and the centre of the box *)

Definition finite_vec (v : vec3) : bool := forallb is_finite (coords v).

Definition finite_mat (m : mat3) : bool :=
  let '(a, b, c) := m in finite_vec a && finite_vec b && finite_vec c.

(** How many atoms sit at the centre of the box. *)
Definition count_center (half : float) (ps : list vec3) : nat :=
  length (filter (λ p, at_center half p = true) ps).

(** Classes of binary64 values, on their specification. *)
Definition sf_zero (X : spec_float) : Prop := ∃ s, X = S754_zero s.

Definition sf_finite (X : spec_float) : Prop :=
  match X with S754_zero _ | S754_finite _ _ _ => True | _ => False end.

Definition sf_nonneg (X : spec_float) : Prop :=
  match X with
  | S754_zero _ | S754_finite false _ _ | S754_infinity false => True
  | _ => False
  end.

(** [x] is [0.0] or [-0.0]. *)
Definition fzero (x : float) : Prop := sf_zero (Prim2SF x).

Definition zero_vec (d : vec3) : Prop :=
  let '(x, y, z) := d in fzero x ∧ fzero y ∧ fzero z.

(** ** Exceptions of a stage *)

(** [r] is a value, or an exception that satisfies [P]. *)
Definition raises_only (P : exn → Prop) {A} (r : result A) : Prop :=
  match r with inl e => P e | inr _ => True end.

(** The exceptions of the stages that follow the validation. *)
Definition later_error (e : exn) : Prop :=
  match e with CellTooSmallError _ => False | _ => True end.

(** ** The cube and its fixed part *)

(** The structure [s] holds the atoms of [c] that the constraint of [c]
    lists, in the same order: their positions, symbols and auxiliary
    values; the cell and the metadata are those of [c]. *)
Definition fixed_part (c s : Atoms) : Prop :=
  ∃ idx,
    constraints c = [ {| index := idx |} ]
    ∧ picks (positions c) idx (positions s)
    ∧ picks (symbols c) idx (symbols s)
    ∧ (∀ key arr_c, arrays c !! key = Some arr_c →
         ∃ arr_s, arrays s !! key = Some arr_s ∧ picks arr_c idx arr_s)
    ∧ info s = info c
    ∧ cell s = cell c.

(** ** Causes of an exception *)

Definition index_error (e : exn) : Prop := e = IndexError.

(** Every index of the request is in range: the symbols, the requested
    arrays and the neighbour table have one entry for each atom of the
    source, the neighbour entries and the centre indices name atoms of the
    source. *)
Definition well_indexed (original_atoms : Atoms) (nl : NeighborList)
    (inds : list nat) (keys : list string) : Prop :=
  let n_atoms := length (positions original_atoms) in
  length (symbols original_atoms) = n_atoms
  ∧ (∀ key arr, key ∈ keys → arrays original_atoms !! key = Some arr →
                length arr = n_atoms)
  ∧ length (neighbors nl) = n_atoms
  ∧ Forall (Forall (λ io : nat * offset, io.1 < n_atoms)) (neighbors nl)
  ∧ Forall (λ a, a < n_atoms) inds.

(** What an exception raised after the validation tells about the
    request. *)
Definition error_cause (METADATA_KEY : string) (original_atoms : Atoms)
    (nl : NeighborList) (inds : list nat) (keys : list string) (e : exn)
  : Prop :=
  match e with
  | KeyError k =>
      (k ∈ keys ∧ arrays original_atoms !! k = None)
      ∨ (k = METADATA_KEY ∧ keys ≠ []
         ∧ info original_atoms !! METADATA_KEY = None)
  | TypeError =>
      keys ≠ [] ∧ ∃ v, info original_atoms !! METADATA_KEY = Some v
                       ∧ ∀ d, v ≠ PyDict d
  | ValueError _ => ¬ NoDup keys
  | IndexError => ¬ well_indexed original_atoms nl inds keys
  | CellTooSmallError _ => False
  end.

(** ** Sorted configurations *)

(** The second key is not below the first. *)
Definition not_below (k1 k2 : pyobj) : Prop := py_lt k2 k1 = inr false.

(** The order of a sorted keyed list, between neighbours. *)
Definition key_order {A} (a b : pyobj * A) : Prop := not_below a.1 b.1.

(** Neither key is below the other. *)
Definition tied (k1 k2 : pyobj) : bool :=
  match py_lt k1 k2, py_lt k2 k1 with
  | inr false, inr false => true
  | _, _ => false
  end.

Definition is_num (k : pyobj) : bool :=
  match k with PyNum _ => true | _ => false end.

Definition is_str (k : pyobj) : bool :=
  match k with PyStr _ => true | _ => false end.

(** Keys of one kind, which [sorted] orders: at most one key, or integers
    only, or strings only. *)
Definition comparable (keys : list pyobj) : Prop :=
  (length keys ≤ 1)%nat
  ∨ Forall (λ k, is_num k = true) keys
  ∨ Forall (λ k, is_str k = true) keys.

(** The number of atoms of the objects of a list. *)
Definition total_len (objs : nat → Atoms) (l : list nat) : nat :=
  sum_list ((λ r, len (objs r)) <$> l).

(** [atoms.info[id_key]], when there is one. *)
Definition id_of (objs : nat → Atoms) (id_key : string) (atoms : nat)
  : option pyobj :=
  info (objs atoms) !! id_key.

(** The identifier of the second object is not below that of the first. *)
Definition id_order (objs : nat → Atoms) (id_key : string) (a b : nat) : Prop :=
  ∃ ka kb, id_of objs id_key a = Some ka ∧ id_of objs id_key b = Some kb
           ∧ not_below ka kb.

(** The identifier of the object is tied with [k]. *)
Definition tied_with (objs : nat → Atoms) (id_key : string) (k : pyobj)
    (atoms : nat) : bool :=
  match id_of objs id_key atoms with
  | Some ka => tied k ka
  | None => false
  end.

(** The key of a keyed entry is the identifier of its object. *)
Definition keyed_by (objs : nat → Atoms) (id_key : string) (kx : pyobj * nat)
  : Prop :=
  id_of objs id_key kx.2 = Some kx.1.

(** ** Sample data *)

Definition sample_key : string := "_metadata".

Definition cubic10 : mat3 := ((10, 0, 0), (0, 10, 0), (0, 0, 10))%float.

Definition diag6 : mat3 := ((6, 0, 0), (0, 6, 0), (0, 0, 6))%float.

Definition cube6 : ndarray := Vec3 (6, 6, 6)%float.

(** One atom at the origin of a cubic cell of side 10. *)
Definition one_atom : Atoms :=
  {| symbols := ["Cu"]; positions := [(0, 0, 0)%float]; cell := cubic10;
     pbc := true; arrays := ∅; info := ∅; constraints := [] |}.

Definition one_atom_nl : NeighborList := {| neighbors := [[(0, (0, 0, 0)%Z)]] |}.

(** The structure extracted from [one_atom] in a cell of side 6. *)
Definition one_atom_out : Atoms :=
  {| symbols := ["Cu"]; positions := [(3, 3, 3)%float];
     cell := diag6; pbc := true; arrays := ∅;
     info := {[ sample_key := PyDict ∅ ]};
     constraints := [ {| index := [0] |} ] |}.

(** Two atoms, an auxiliary array and metadata. *)
Definition two_atoms : Atoms :=
  {| symbols := ["Cu"; "Ag"];
     positions := [(0, 0, 0)%float; (1, 0, 0)%float];
     cell := cubic10; pbc := true;
     arrays := {[ "forces_weights" := [[1%float]; [2%float]] ]};
     info := <[ "_metadata" := PyDict (<[ "forces" := PyNum 7 ]>
                                        {[ "forces_extra" := PyNum 8 ]}) ]>
             (<[ "forces_unit" := PyStr "eV" ]> {[ "name" := PyStr "x" ]});
     constraints := [] |}.

Definition two_atoms_nl : NeighborList :=
  {| neighbors := [[(0, (0, 0, 0)%Z); (1, (0, 0, 0)%Z)];
                   [(1, (0, 0, 0)%Z); (0, (0, 0, 0)%Z)]] |}.

(** The structure extracted around atom 0 of [two_atoms] in a cell of side 6
    with [rc = 2], the array [forces_weights] transferred. *)
Definition two_atoms_out0 : Atoms :=
  {| symbols := ["Cu"; "Ag"];
     positions := [(3, 3, 3)%float; (4, 3, 3)%float];
     cell := diag6; pbc := true;
     arrays := {[ "forces_weights" := [[1%float]; [2%float]] ]};
     info := <[ "_metadata" := PyDict {[ "forces" := PyNum 7 ]} ]>
             {[ "forces_unit" := PyStr "eV" ]};
     constraints := [ {| index := [0; 1] |} ] |}.

(** The structure extracted around atom 1 of [two_atoms], likewise. *)
Definition two_atoms_out1 : Atoms :=
  {| symbols := ["Ag"; "Cu"];
     positions := [(3, 3, 3)%float; (2, 3, 3)%float];
     cell := diag6; pbc := true;
     arrays := {[ "forces_weights" := [[2%float]; [1%float]] ]};
     info := info two_atoms_out0;
     constraints := [ {| index := [0; 1] |} ] |}.

(** [two_atoms] without any metadata. *)
Definition two_atoms_bare : Atoms := with_info two_atoms ∅.

(** Two atoms at the same place. *)
Definition coincident : Atoms :=
  {| symbols := ["Cu"; "Cu"];
     positions := [(0, 0, 0)%float; (0, 0, 0)%float];
     cell := cubic10; pbc := true; arrays := ∅; info := ∅;
     constraints := [] |}.

Definition coincident_nl : NeighborList :=
  {| neighbors := [[(0, (0, 0, 0)%Z); (1, (0, 0, 0)%Z)];
                   [(0, (0, 0, 0)%Z); (1, (0, 0, 0)%Z)]] |}.

Definition coincident_out : Atoms :=
  {| symbols := ["Cu"; "Cu"];
     positions := [(3, 3, 3)%float; (3, 3, 3)%float];
     cell := diag6; pbc := true; arrays := ∅;
     info := {[ sample_key := PyDict ∅ ]};
     constraints := [ {| index := [0; 1] |} ] |}.

(** Two atoms at distinct places, [2^-100] apart. *)
Definition nearby : Atoms :=
  {| symbols := ["Cu"; "Cu"];
     positions := [(0, 0, 0)%float; (0x1p-100, 0, 0)%float];
     cell := cubic10; pbc := true; arrays := ∅; info := ∅;
     constraints := [] |}.

(** Four atoms on a line: the centre, one within [rc = 2], one beyond it in
    the cube of side 6, one outside the cube. *)
Definition four_atoms : Atoms :=
  {| symbols := ["Cu"; "Ag"; "Au"; "Pt"];
     positions := [(0, 0, 0)%float; (1, 0, 0)%float; (2.5, 0, 0)%float;
                   (4, 0, 0)%float];
     cell := cubic10; pbc := true; arrays := ∅; info := ∅;
     constraints := [] |}.

Definition four_atoms_nl : NeighborList :=
  {| neighbors :=
       [[(0, (0, 0, 0)%Z); (1, (0, 0, 0)%Z); (2, (0, 0, 0)%Z); (3, (0, 0, 0)%Z)];
        [(1, (0, 0, 0)%Z); (0, (0, 0, 0)%Z); (2, (0, 0, 0)%Z); (3, (0, 0, 0)%Z)];
        [(2, (0, 0, 0)%Z); (0, (0, 0, 0)%Z); (1, (0, 0, 0)%Z); (3, (0, 0, 0)%Z)];
        [(3, (0, 0, 0)%Z); (0, (0, 0, 0)%Z); (1, (0, 0, 0)%Z); (2, (0, 0, 0)%Z)]] |}.

(** The cube of side 6 extracted around atom 0 of [four_atoms], [rc = 2]. *)
Definition four_atoms_cube : Atoms :=
  {| symbols := ["Cu"; "Ag"; "Au"];
     positions := [(3, 3, 3)%float; (4, 3, 3)%float; (5.5, 3, 3)%float];
     cell := diag6; pbc := true; arrays := ∅;
     info := {[ sample_key := PyDict ∅ ]};
     constraints := [ {| index := [0; 1] |} ] |}.

(** The sphere extracted around atom 0 of [four_atoms], likewise. *)
Definition four_atoms_sphere : Atoms :=
  {| symbols := ["Cu"; "Ag"];
     positions := [(3, 3, 3)%float; (4, 3, 3)%float];
     cell := diag6; pbc := true; arrays := ∅;
     info := {[ sample_key := PyDict ∅ ]};
     constraints := [ {| index := [0; 1] |} ] |}.

(** The binary64 value of [0.7], and of [0.7 + 3] (which is
    [3.7000000000000002]). *)
Definition f0_7 : float := 0x1.6666666666666p-1%float.
Definition f3_7 : float := 0x1.d99999999999ap+1%float.

(** Two atoms [0.7] apart. *)
Definition rounding_atoms : Atoms :=
  {| symbols := ["Cu"; "Ag"];
     positions := [(0, 0, 0)%float; (f0_7, 0, 0)%float];
     cell := cubic10; pbc := true; arrays := ∅; info := ∅;
     constraints := [] |}.

(** The sphere extracted around atom 0 of [rounding_atoms] with [rc = 0.7]. *)
Definition rounding_out : Atoms :=
  {| symbols := ["Cu"; "Ag"];
     positions := [(3, 3, 3)%float; (f3_7, 3, 3)%float];
     cell := diag6; pbc := true; arrays := ∅;
     info := {[ sample_key := PyDict ∅ ]};
     constraints := [ {| index := [0; 1] |} ] |}.

(** Two atoms with an auxiliary array whose name starts with its only
    underscore. *)
Definition underscore_atoms : Atoms :=
  {| symbols := ["Cu"; "Ag"];
     positions := [(0, 0, 0)%float; (1, 0, 0)%float];
     cell := cubic10; pbc := true;
     arrays := {[ "_w" := [[1%float]; [2%float]] ]};
     info := <[ sample_key := PyDict ∅ ]>
             (<[ "forces_unit" := PyStr "eV" ]> {[ "name" := PyStr "x" ]});
     constraints := [] |}.

(** Three configurations of one, two and one atoms, with the identifiers 7,
    3 and 7. *)
Definition three_configs (r : nat) : Atoms :=
  match r with
  | 1 => with_info two_atoms {[ "co-id" := PyNum 3 ]}
  | _ => with_info one_atom {[ "co-id" := PyNum 7 ]}
  end.

(** What [sort_configs_and_tag_atoms] writes for [three_configs]. *)
Definition three_tags : gmap nat (list nat) :=
  <[1 := [0; 1]]> (<[0 := [2]]> {[ 2 := [3] ]}).

(** Sample metadata of a descriptor. *)
Definition quests_metadata : gmap string pyobj :=
  {[ "num_nearest_neighbors" := PyNum 32 ]}.

(** [two_atoms] with a per-atom descriptor array and no metadata yet. *)
Definition described_atoms : Atoms :=
  {| symbols := symbols two_atoms; positions := positions two_atoms;
     cell := cell two_atoms; pbc := true;
     arrays := {[ "quests_descriptor_descriptors" := [[1%float]; [2%float]] ]};
     info := {[ "name" := PyStr "x" ]};
     constraints := [] |}.

(** The [info] of [described_atoms] once the metadata is attached. *)
Definition described_info : gmap string pyobj :=
  <[ sample_key := PyDict {[ "quests_descriptor" := PyDict quests_metadata ]} ]>
    (<[ "quests_descriptor_num_nearest_neighbors" := PyNum 32 ]>
       {[ "name" := PyStr "x" ]}).

(** The structure extracted around atom 0 of [described_atoms], with that
    [info], in a cell of side 6 with [rc = 2], the descriptors transferred. *)
Definition described_out : Atoms :=
  {| symbols := ["Cu"; "Ag"];
     positions := [(3, 3, 3)%float; (4, 3, 3)%float];
     cell := diag6; pbc := true;
     arrays := {[ "quests_descriptor_descriptors" := [[1%float]; [2%float]] ]};
     info := <[ sample_key
                := PyDict {[ "quests_descriptor" := PyDict quests_metadata ]} ]>
               {[ "quests_descriptor_num_nearest_neighbors" := PyNum 32 ]};
     constraints := [ {| index := [0; 1] |} ] |}.

(** * Properties *)

(** ** Facts on binary64 comparisons *)

Section FloatFacts.

Lemma SFcompare_Eq_inv x y :
  SFcompare x y = Some Eq →
  x = y ∨ (∃ s s', x = S754_zero s ∧ y = S754_zero s').
Proof.
  destruct x as [s| s| |s m e], y as [s'| s'| |s' m' e']; simpl; try discriminate;
    try (destruct s; discriminate); try (destruct s'; discriminate).
  - intros _. right. eauto.
  - destruct s, s'; try discriminate; auto.
  - intros H. left.
    destruct s, s'; try discriminate;
      destruct (Z.compare e e') eqn:He; try discriminate;
      destruct (Pos.compare_cont Eq m m') eqn:Hm; try discriminate;
      apply Z.compare_eq in He; apply Pos.compare_eq in Hm; subst; reflexivity.
Qed.

Lemma SFeqb_inv x y :
  SFeqb x y = true →
  x = y ∨ (∃ s s', x = S754_zero s ∧ y = S754_zero s').
Proof.
  unfold SFeqb. destruct (SFcompare x y) as [[]|] eqn:H; try discriminate.
  intros _. by apply SFcompare_Eq_inv.
Qed.

Lemma SFeqb_trans x y z :
  SFeqb x y = true → SFeqb y z = true → SFeqb x z = true.
Proof.
  intros [->|(s & s' & -> & ->)]%SFeqb_inv; [done|].
  intros [<-|(t & t' & _ & ->)]%SFeqb_inv; reflexivity.
Qed.

Lemma SFeqb_not_ltb x y : SFeqb x y = true → SFltb y x = false.
Proof.
  intros H. pose proof H as [->|(s & s' & -> & ->)]%SFeqb_inv; [|reflexivity].
  revert H. unfold SFeqb, SFltb. by destruct (SFcompare y y) as [[]|].
Qed.

Lemma feqb_trans (x y z : float) :
  (x =? y)%float = true → (y =? z)%float = true → (x =? z)%float = true.
Proof. rewrite !FloatAxioms.eqb_spec. apply SFeqb_trans. Qed.

Lemma feqb_not_ltb (x y : float) :
  (x =? y)%float = true → (y <? x)%float = false.
Proof. rewrite FloatAxioms.eqb_spec, FloatAxioms.ltb_spec. apply SFeqb_not_ltb. Qed.

End FloatFacts.

(** ** Binary64 arithmetic around the centre atom *)

Section CenterFloats.

Lemma is_finite_sf x : is_finite x = true → sf_finite (Prim2SF x).
Proof.
  unfold is_finite, is_nan, is_infinity.
  rewrite !FloatAxioms.eqb_spec, abs_spec.
  change (Prim2SF infinity) with (S754_infinity false).
  destruct (Prim2SF x) as [s|s| |s m e]; try done.
  unfold SFeqb. simpl. by destruct s.
Qed.

Lemma fzero_0 : fzero 0.
Proof. by exists false. Qed.

Lemma fzero_mul a c : fzero a → is_finite c = true → fzero (a * c).
Proof.
  intros [s Ha] Hc%is_finite_sf. unfold fzero. rewrite mul_spec, Ha.
  destruct (Prim2SF c) as [s'|s'| |s' m e]; try done; by eexists.
Qed.

Lemma fzero_add a b : fzero a → fzero b → fzero (a + b).
Proof.
  intros [s Ha] [s' Hb]. unfold fzero. rewrite add_spec, Ha, Hb.
  destruct s, s'; by eexists.
Qed.

(** A finite value, a zero added and the value subtracted: a zero. *)
Lemma fzero_add_sub p z : is_finite p = true → fzero z → fzero ((p + z) - p).
Proof.
  intros Hp%is_finite_sf [s Hz]. unfold fzero.
  rewrite sub_spec, add_spec, Hz.
  destruct (Prim2SF p) as [s'|s'| |s' m e]; try done.
  - destruct s', s; by eexists.
  - exists false. unfold SF64sub, SF64add. cbn [SFadd]. unfold SFsub.
    by rewrite Z.sub_diag.
Qed.

Lemma fzero_abs_leb d h :
  fzero d → (0 <=? h)%float = true → (abs d <=? h)%float = true.
Proof. intros [s Hd]. by rewrite !leb_spec, abs_spec, Hd. Qed.

Lemma fzero_norm2 x y z :
  fzero x → fzero y → fzero z → Prim2SF (norm2 (x, y, z)) = S754_zero false.
Proof.
  intros [s Hx] [s' Hy] [s'' Hz]. unfold norm2.
  rewrite sqrt_spec, !add_spec, !mul_spec, Hx, Hy, Hz.
  by destruct s, s', s''.
Qed.

Lemma fzero_add_eqb d h half :
  fzero d → (h =? half)%float = true → (d + h =? half)%float = true.
Proof.
  intros [s Hd]. rewrite !FloatAxioms.eqb_spec, add_spec, Hd. intros H.
  pose proof H as [Heq|(t & t' & -> & ->)]%SFeqb_inv.
  - rewrite <- Heq in *. destruct (Prim2SF h) as [t|t| |t m e]; try done.
    by destruct s, t.
  - by destruct s, t.
Qed.

(** Rounding keeps the sign: the quotient of two non-negative values is
    non-negative, hence a number. *)
Lemma shr_1_nonneg mrs : (0 ≤ shr_m mrs → 0 ≤ shr_m (shr_1 mrs))%Z.
Proof. destruct mrs as [[|[p|p|]|[p|p|]] r s]; simpl; lia. Qed.

Lemma iter_pos_preserves {A} (P : A → Prop) (f : A → A) n x :
  (∀ y, P y → P (f y)) → P x → P (SpecFloat.iter_pos f n x).
Proof. intros Hf. revert x. induction n; simpl; auto. Qed.

Lemma shr_nonneg mrs e n : (0 ≤ shr_m mrs → 0 ≤ shr_m (shr mrs e n).1)%Z.
Proof.
  intros H. destruct n; simpl; try done.
  apply (iter_pos_preserves (λ r, (0 ≤ shr_m r)%Z)); [apply shr_1_nonneg|done].
Qed.

Lemma shr_fexp_nonneg m e l :
  (0 ≤ m → 0 ≤ shr_m (shr_fexp prec emax m e l).1)%Z.
Proof. intros H. unfold shr_fexp. apply shr_nonneg. by destruct l as [|[]]. Qed.

Lemma round_nearest_even_nonneg m l : (0 ≤ m → 0 ≤ round_nearest_even m l)%Z.
Proof.
  intros H. destruct l as [|[]]; simpl; try done; [destruct (Z.even m)|]; lia.
Qed.

Lemma binary_round_aux_sign sx mx ex lx :
  (0 ≤ mx)%Z →
  match binary_round_aux prec emax sx mx ex lx with
  | S754_zero s | S754_finite s _ _ | S754_infinity s => s = sx
  | S754_nan => False
  end.
Proof.
  intros H. unfold binary_round_aux.
  pose proof (shr_fexp_nonneg mx ex lx H) as H1.
  destruct (shr_fexp prec emax mx ex lx) as [mrs' e'].
  pose proof (shr_fexp_nonneg _ e' loc_Exact
                (round_nearest_even_nonneg _ (loc_of_shr_record mrs') H1)) as H2.
  destruct (shr_fexp prec emax _ e' loc_Exact) as [mrs'' e''].
  simpl in H2. destruct (shr_m mrs''); [done| |lia].
  by destruct (Z.leb _ _).
Qed.

Lemma SFdiv_nonneg X Y :
  sf_nonneg X → (∃ m e, Y = S754_finite false m e) →
  sf_nonneg (SFdiv prec emax X Y).
Proof.
  intros HX (m2 & e2 & ->). destruct X as [s|[]| |[] m e]; simpl in *; try done.
  unfold SFdiv_core_binary.
  set (m' := match _ with Z0 => _ | Zpos _ => _ | Zneg _ => _ end).
  assert (0 ≤ m')%Z as Hm'.
  { subst m'. destruct (Z.sub _ _) eqn:Hs; try lia. apply Z.shiftl_nonneg. lia. }
  pose proof (Z.div_pos m' (Zpos m2) Hm' ltac:(lia)) as Hq.
  unfold Z.div in Hq. destruct (Z.div_eucl m' (Zpos m2)) as [q r].
  pose proof (binary_round_aux_sign false q
     (Z.min (fexp prec emax (Z.sub (Z.add (Zdigits2 (Zpos m)) e)
                                   (Z.add (Zdigits2 (Zpos m2)) e2)))
            (Z.sub e e2))
     (new_location (Zpos m2) r) Hq) as Hr.
  destruct (binary_round_aux _ _ _ _ _ _); try done; by subst.
Qed.

Lemma sf_nonneg_leb X : sf_nonneg X ↔ SFleb (S754_zero false) X = true.
Proof. destruct X as [s|[]| |[] m e]; simpl; split; done. Qed.

(** A value that is not below a non-negative one is non-negative. *)
Lemma sf_nonneg_above X R :
  sf_nonneg R → SFltb X R = false → SFeqb X X = true → sf_nonneg X.
Proof.
  destruct X as [s|[]| |[] m e], R as [s'|[]| |[] m' e']; simpl; try done.
Qed.

Lemma half_nonneg (rc L : float) :
  (0 <=? rc)%float = true → (L <? rc)%float = false → (L =? L)%float = true →
  (0 <=? L / 2)%float = true.
Proof.
  rewrite !leb_spec, ltb_spec, FloatAxioms.eqb_spec, div_spec.
  change (Prim2SF 0) with (S754_zero false).
  intros Hrc%sf_nonneg_leb Hlt Hrefl. apply sf_nonneg_leb, SFdiv_nonneg.
  - by eapply sf_nonneg_above.
  - by eexists _, _.
Qed.

Lemma feqb_sym (x y : float) : (x =? y)%float = true → (y =? x)%float = true.
Proof.
  rewrite !FloatAxioms.eqb_spec.
  intros H. pose proof H as [Heq|(s & s' & Hx & Hy)]%SFeqb_inv.
  - by rewrite <- Heq in *.
  - by rewrite Hx, Hy.
Qed.

Lemma feqb_refl_l (x y : float) : (x =? y)%float = true → (x =? x)%float = true.
Proof. intros H. eapply feqb_trans; [exact H|by apply feqb_sym]. Qed.

(** Equal values have equal halves, when the half is a number. *)
Lemma feqb_half (x y : float) :
  (x =? y)%float = true → (0 <=? y / 2)%float = true →
  (x / 2 =? y / 2)%float = true.
Proof.
  rewrite !FloatAxioms.eqb_spec, leb_spec, !div_spec.
  intros [->|(s & s' & -> & ->)]%SFeqb_inv; [|done].
  change (Prim2SF 0) with (S754_zero false).
  unfold SFleb, SFeqb.
  change (SFcompare (S754_zero false) ?X) with
    (match X with
     | S754_nan => None
     | S754_infinity s => Some (if s then Gt else Lt)
     | S754_finite s _ _ => Some (if s then Gt else Lt)
     | S754_zero _ => Some Eq
     end).
  destruct (SF64div (Prim2SF y) (Prim2SF 2)) as [s|s| |s m e]; try done.
  - by destruct s.
  - destruct s; [done|]. intros _. simpl.
    by rewrite Z.compare_refl, Pos.compare_cont_refl.
Qed.

(** The maximum of three equal values is equal to each of them. *)
Lemma np_max_all_equal a b c :
  (a =? b)%float = true → (b =? c)%float = true →
  let L := np_max (a, b, c) in
  (a =? L)%float = true ∧ (b =? L)%float = true ∧ (c =? L)%float = true.
Proof.
  intros Hab Hbc.
  pose proof (feqb_trans _ _ _ Hab Hbc) as Hac.
  pose proof (feqb_refl_l _ _ Hab) as Haa.
  pose proof (feqb_refl_l _ _ Hbc) as Hbb.
  pose proof (feqb_refl_l _ _ (feqb_sym _ _ Hbc)) as Hcc.
  pose proof (feqb_sym _ _ Hab) as Hba.
  pose proof (feqb_sym _ _ Hbc) as Hcb.
  pose proof (feqb_sym _ _ Hac) as Hca.
  unfold np_max, np_maximum.
  destruct ((b <=? a)%float || is_nan a);
    [destruct ((c <=? a)%float || is_nan a)
    |destruct ((c <=? b)%float || is_nan b)]; by repeat split.
Qed.

Lemma validate_inr original_atoms rc new_cell cell_norms max_cell_len :
  validate original_atoms rc new_cell = inr (cell_norms, max_cell_len) →
  new_cell = Vec3 cell_norms
  ∧ max_cell_len = np_max cell_norms
  ∧ all_equal cell_norms = true
  ∧ exceeds_source original_atoms max_cell_len = false
  ∧ (max_cell_len <? rc)%float = false
  ∧ (max_cell_len <? rc * 2)%float = false.
Proof.
  destruct new_cell as [[[a b] c]|m].
  - unfold validate, exceeds_source. cbn [cell_sides mbind result_bind].
    destruct (a =? b)%float eqn:Hab; [|done].
    destruct (b =? c)%float eqn:Hbc; [|done]. cbn [andb negb].
    destruct (cellpar original_atoms) as [[p0 p1] p2].
    destruct ((p0 <? _)%float || (p1 <? _)%float || (p2 <? _)%float)
      eqn:Hsrc; [done|].
    destruct (_ <? rc)%float eqn:Hrc; [done|].
    destruct (_ <? rc * 2)%float eqn:H2; [done|]. intros [= <- <-].
    repeat split; try done; try exact Hsrc. unfold all_equal.
    by rewrite Hab, Hbc, (feqb_trans _ _ _ Hab Hbc).
  - destruct m as [[[[a0 a1] a2] [[b0 b1] b2]] [[c0 c1] c2]]. done.
Qed.

Lemma finite_vec_inv x y z :
  finite_vec (x, y, z) = true →
  is_finite x = true ∧ is_finite y = true ∧ is_finite z = true.
Proof.
  unfold finite_vec. cbn [coords forallb]. rewrite andb_true_r.
  by intros [? [? ?]%andb_true_iff]%andb_true_iff.
Qed.

(** The image of the centre atom under the zero offset has a zero
    displacement. *)
Lemma displacement_self original_atoms atom_ind p :
  positions original_atoms !! atom_ind = Some p →
  finite_vec p = true → finite_mat (cell original_atoms) = true →
  ∃ d, displacement original_atoms atom_ind (atom_ind, (0, 0, 0)%Z) = inr d
       ∧ zero_vec d.
Proof.
  intros Hp Hfin Hcell. unfold displacement, getitem. cbn [fst snd].
  rewrite Hp. cbn [mbind result_bind]. eexists. split; [done|].
  destruct p as [[x y] z].
  destruct (cell original_atoms) as [[[[a0 a1] a2] [[b0 b1] b2]] [[c0 c1] c2]].
  apply finite_vec_inv in Hfin as (Hx & Hy & Hz). unfold finite_mat in Hcell.
  apply andb_true_iff in Hcell as [[Ha Hb]%andb_true_iff Hc].
  apply finite_vec_inv in Ha as (? & ? & ?).
  apply finite_vec_inv in Hb as (? & ? & ?).
  apply finite_vec_inv in Hc as (? & ? & ?).
  unfold vsub, vadd, vmap2, vecmat. change (of_int 0) with 0%float.
  repeat split; apply fzero_add_sub; try done;
    repeat apply fzero_add; apply fzero_mul; (done || apply fzero_0).
Qed.

Lemma zero_vec_in_cube d max_cell_len :
  zero_vec d → (0 <=? max_cell_len / 2)%float = true →
  in_cube max_cell_len d = true.
Proof.
  destruct d as [[x y] z]. intros (Hx & Hy & Hz) Hh. unfold in_cube.
  cbn [coords forallb]. by rewrite !fzero_abs_leb.
Qed.

Lemma zero_vec_in_rc d rc :
  zero_vec d → (0 <=? rc)%float = true → in_rc rc d = true.
Proof.
  destruct d as [[x y] z]. intros (Hx & Hy & Hz). unfold in_rc.
  rewrite !leb_spec, fzero_norm2 by done. done.
Qed.

Lemma zero_vec_at_center d cell_norms half :
  zero_vec d → at_center half (vhalf cell_norms) = true →
  at_center half (vadd d (vhalf cell_norms)) = true.
Proof.
  destruct d as [[x y] z], cell_norms as [[a b] c]. intros (Hx & Hy & Hz).
  unfold at_center, vadd, vmap2, vhalf.
  intros [[Ha Hb]%andb_true_iff Hc]%andb_true_iff.
  by rewrite !fzero_add_eqb.
Qed.

(** After a passed validation with [rc >= 0], the box centre has its three
    coordinates equal to half the side length. *)
Lemma box_center_at_center original_atoms rc new_cell cell_norms max_cell_len :
  validate original_atoms rc new_cell = inr (cell_norms, max_cell_len) →
  (0 <=? rc)%float = true →
  (0 <=? max_cell_len / 2)%float = true
  ∧ at_center (max_cell_len / 2) (vhalf cell_norms) = true.
Proof.
  intros (_ & -> & Heq & _ & Hrc & _)%validate_inr H0.
  destruct cell_norms as [[a b] c]. unfold all_equal in Heq.
  apply andb_true_iff in Heq as [[Hab Hbc]%andb_true_iff _].
  destruct (np_max_all_equal a b c Hab Hbc) as (Ha & Hb & Hc).
  assert ((0 <=? np_max (a, b, c) / 2)%float = true) as Hhalf.
  { eapply half_nonneg; [exact H0|exact Hrc|].
    eapply feqb_refl_l, feqb_sym, Ha. }
  split; [done|]. unfold at_center, vhalf.
  by rewrite !feqb_half.
Qed.

End CenterFloats.

(** ** The result monad *)

Lemma bind_inr {A B} (m : result A) (f : A → result B) (b : B) :
  m ≫= f = inr b ↔ ∃ a, m = inr a ∧ f a = inr b.
Proof.
  destruct m as [e|a]; simpl.
  - split; [discriminate|]. by intros (a & ? & _).
  - split; [eauto|]. by intros (a' & [= <-] & ?).
Qed.

(** ** Which exceptions a stage may raise *)

Lemma raises_only_bind P {A B} (m : result A) (f : A → result B) :
  raises_only P m → (∀ a, m = inr a → raises_only P (f a)) →
  raises_only P (m ≫= f).
Proof. destruct m as [e|a]; simpl; auto. Qed.

Lemma raises_only_for_each P {A S} (body : S → A → result S) xs s :
  (∀ s x, raises_only P (body s x)) → raises_only P (for_each body xs s).
Proof.
  intros Hbody. revert s. induction xs as [|x xs IH]; intros s; simpl; [done|].
  apply raises_only_bind; auto.
Qed.

Lemma raises_only_getitem (P : exn → Prop) {A} (l : list A) i :
  P IndexError → raises_only P (getitem l i).
Proof. unfold getitem. by destruct (l !! i). Qed.

Lemma raises_only_dict_get (P : exn → Prop) {V} (d : gmap string V) k :
  P (KeyError k) → raises_only P (dict_get d k).
Proof. unfold dict_get. by destruct (d !! k). Qed.

Create HintDb raises.

#[local] Hint Resolve raises_only_getitem raises_only_dict_get : raises.
#[local] Hint Extern 0 (later_error _) => exact I : raises.

(** One step through a stage: a bind, a loop, an access, a pair. *)
Ltac raises_step :=
  first
    [ solve [eauto with raises]
    | exact I
    | apply raises_only_for_each; intros
    | apply raises_only_bind; [|intros ? _]
    | match goal with
      | p : (_ * _)%type |- _ => destruct p
      end ].

Ltac raises_only := repeat raises_step.

Lemma raises_only_take_rows (P : exn → Prop) {A} (a : list A) idx :
  P IndexError → raises_only P (take_rows a idx).
Proof.
  intros HP. induction idx as [|i idx IH]; simpl; [done|].
  apply raises_only_bind; [by apply raises_only_getitem|intros x _].
  apply raises_only_bind; [done|by intros].
Qed.

#[local] Hint Resolve raises_only_take_rows : raises.

Lemma raises_only_append_row keys src i tgt :
  raises_only later_error (append_row keys src i tgt).
Proof.
  revert tgt. induction keys as [|k ks IH]; intros tgt; simpl; [done|].
  raises_only.
Qed.

#[local] Hint Resolve raises_only_append_row : raises.

Lemma raises_only_select_body keys syms arrs st i :
  raises_only later_error (select_body keys syms arrs st i).
Proof. unfold select_body. raises_only. Qed.

Lemma raises_only_neigh_body original_atoms atom_ind keys key_arrays st io :
  raises_only later_error (neigh_body original_atoms atom_ind keys key_arrays st io).
Proof. unfold neigh_body, displacement. raises_only. Qed.

#[local] Hint Resolve raises_only_select_body raises_only_neigh_body : raises.

Lemma raises_only_gather original_atoms nl rc max_cell_len keys key_arrays atom_ind :
  raises_only later_error
    (gather original_atoms nl rc max_cell_len keys key_arrays atom_ind).
Proof. unfold gather, get_neighbors. raises_only. Qed.

Lemma raises_only_new_info METADATA_KEY original_info keys :
  raises_only later_error (new_info METADATA_KEY original_info keys).
Proof.
  unfold new_info. raises_only. unfold info_body. raises_only.
  repeat case_match; exact I.
Qed.

#[local] Hint Resolve raises_only_gather raises_only_new_info : raises.

Lemma raises_only_extract_one METADATA_KEY original_atoms nl rc new_cell
    extract_cube keys cell_norms max_cell_len key_arrays atom_ind :
  raises_only later_error
    (extract_one METADATA_KEY original_atoms nl rc new_cell extract_cube keys
       cell_norms max_cell_len key_arrays atom_ind).
Proof.
  unfold extract_one. raises_only. unfold set_arrays. by case_decide.
Qed.

Lemma raises_only_key_arrays_of original_atoms keys :
  raises_only later_error (key_arrays_of original_atoms keys).
Proof. unfold key_arrays_of, get_array. raises_only. Qed.

(** ** Index arrays and the rows they select *)

Lemma take_rows_inr {A} (l : list A) idx xs :
  take_rows l idx = inr xs ↔ picks l idx xs.
Proof.
  unfold picks. revert xs. induction idx as [|i idx IH]; intros xs; simpl.
  - split; [intros [= <-]; constructor|]. by intros ->%Forall2_nil_inv_l.
  - unfold getitem. destruct (l !! i) as [x|] eqn:Hx; simpl.
    + destruct (take_rows l idx) as [e|ys] eqn:Hys; simpl.
      * split; [done|]. intros (y & ys & ? & Hf & ->)%Forall2_cons_inv_l.
        apply IH in Hf. done.
      * split.
        -- intros [= <-]. constructor; [done|]. by apply IH.
        -- intros (y & ys' & ? & Hf & ->)%Forall2_cons_inv_l.
           apply IH in Hf. congruence.
    + split; [done|]. intros (y & ys & ? & _)%Forall2_cons_inv_l. congruence.
Qed.

Lemma picks_functional {A} (l : list A) idx xs ys :
  picks l idx xs → picks l idx ys → xs = ys.
Proof.
  unfold picks. intros H. revert ys.
  induction H as [|i x idx xs Hx _ IH]; intros ys Hys.
  - by apply Forall2_nil_inv_l in Hys.
  - apply Forall2_cons_inv_l in Hys as (y & ys' & Hy & Hys & ->).
    f_equal; [congruence|by apply IH].
Qed.

Lemma picks_length {A} (l : list A) idx xs : picks l idx xs → length xs = length idx.
Proof. intros H. symmetry. by eapply Forall2_length. Qed.

Lemma picks_Forall2 {A B} (R : A → B → Prop) l1 l2 idx xs ys :
  Forall2 R l1 l2 → picks l1 idx xs → picks l2 idx ys → Forall2 R xs ys.
Proof.
  intros HR H. revert ys. unfold picks in *.
  induction H as [|i x idx xs Hx _ IH]; intros ys Hys.
  - apply Forall2_nil_inv_l in Hys as ->. constructor.
  - apply Forall2_cons_inv_l in Hys as (y & ys' & Hy & Hys & ->).
    constructor; [|by apply IH].
    destruct (Forall2_lookup_l _ _ _ _ _ HR Hx) as (y' & Hy' & ?). congruence.
Qed.

Lemma picks_where_from {A} (P : A → bool) (pre l : list A) :
  picks (pre ++ l) (np_where_from (length pre) (map P l))
        (filter (λ x, P x = true) l).
Proof.
  unfold picks. revert pre. induction l as [|x l IH]; intros pre; simpl.
  - constructor.
  - specialize (IH (pre ++ [x])). rewrite <- app_assoc, length_app in IH.
    simpl in IH. rewrite Nat.add_1_r in IH.
    destruct (P x) eqn:HP.
    + rewrite filter_cons_True by done. constructor; [|done].
      by rewrite lookup_app_r, Nat.sub_diag.
    + rewrite filter_cons_False by congruence. done.
Qed.

(** The rows at [np.where(mask)] are the rows the mask keeps. *)
Lemma picks_where {A} (P : A → bool) (l xs : list A) :
  picks l (np_where (map P l)) xs ↔ xs = filter (λ x, P x = true) l.
Proof.
  pose proof (picks_where_from P [] l) as H. split.
  - intros Hxs. by eapply picks_functional.
  - by intros ->.
Qed.

Lemma elem_of_np_where_from (mask : list bool) k i :
  i ∈ np_where_from k mask ↔ ∃ j, i = k + j ∧ mask !! j = Some true.
Proof.
  revert k. induction mask as [|b mask IH]; intros k; simpl.
  - split; [by intros ?%elem_of_nil|]. by intros (j & _ & ?).
  - assert (i ∈ np_where_from (S k) mask
            ↔ ∃ j, i = k + S j ∧ mask !! j = Some true) as IH'.
    { rewrite IH. split; intros (j & -> & ?); exists j; split; (lia || done). }
    destruct b.
    + rewrite elem_of_cons, IH'. split.
      * intros [->|(j & -> & ?)]; [exists 0|exists (S j)]; split; (lia || done).
      * intros ([|j] & -> & ?); [left; lia|right; by exists j].
    + rewrite IH'. split.
      * intros (j & -> & ?). by exists (S j).
      * intros ([|j] & -> & ?); [done|by exists j].
Qed.

(** [np.where] lists exactly the positions the mask keeps. *)
Lemma elem_of_np_where {A} (P : A → bool) (l : list A) i :
  i ∈ np_where (map P l) ↔ ∃ x, l !! i = Some x ∧ P x = true.
Proof.
  unfold np_where. rewrite elem_of_np_where_from. split.
  - intros (j & -> & Hj). rewrite list_lookup_fmap in Hj.
    destruct (l !! j) as [x|] eqn:Hx; [|done]. exists x. naive_solver.
  - intros (x & Hx & HP). exists i. split; [done|].
    by rewrite list_lookup_fmap, Hx; simpl; rewrite HP.
Qed.

Lemma np_where_lt {A} (P : A → bool) (l : list A) :
  Forall (λ i, i < length l) (np_where (map P l)).
Proof.
  apply Forall_forall. intros i (x & Hx & _)%elem_of_np_where.
  by eapply lookup_lt_Some.
Qed.

(** ** The loops that copy the auxiliary values *)

Lemma occurrences_cons_eq key keys :
  occurrences key (key :: keys) = S (occurrences key keys).
Proof. unfold occurrences. by rewrite filter_cons_True. Qed.

Lemma occurrences_cons_ne key k keys :
  k ≠ key → occurrences key (k :: keys) = occurrences key keys.
Proof. intros. unfold occurrences. by rewrite filter_cons_False. Qed.

Lemma occurrences_not_elem key keys : key ∉ keys → occurrences key keys = 0.
Proof.
  induction keys as [|k keys IH]; [done|]. intros Hnin.
  rewrite occurrences_cons_ne; [apply IH|]; intros ?; apply Hnin;
    [by right|subst; by left].
Qed.

Lemma occurrences_NoDup key keys :
  NoDup keys → key ∈ keys → occurrences key keys = 1.
Proof.
  induction 1 as [|k keys Hk _ IH]; [by intros ?%elem_of_nil|].
  intros [->|Hin]%elem_of_cons.
  - by rewrite occurrences_cons_eq, occurrences_not_elem.
  - rewrite occurrences_cons_ne by (intros ->; done). auto.
Qed.

Lemma empty_lists_lookup keys key :
  empty_lists keys !! key = if decide (key ∈ keys) then Some [] else None.
Proof.
  unfold empty_lists.
  assert (∀ d : gmap string (list entry),
            foldl (λ d k, <[k:=[]]> d) d keys !! key
               = if decide (key ∈ keys) then Some [] else d !! key) as H.
  { induction keys as [|k keys IH]; intros d; cbn [foldl].
    - by rewrite decide_False by apply not_elem_of_nil.
    - rewrite IH. destruct (decide (key ∈ keys)) as [Hin|Hnin].
      + rewrite decide_True; [done|by right].
      + destruct (decide (k = key)) as [->|Hne].
        * rewrite lookup_insert_eq. rewrite decide_True; [done|by left].
        * rewrite lookup_insert_ne by done.
          rewrite decide_False; [done|]. by intros [->|?]%elem_of_cons. }
  rewrite H. by rewrite lookup_empty.
Qed.

(** One row appended: each list grows by the row's value, once for each time
    its key is listed. *)
Lemma append_row_inr keys src i tgt tgt' :
  append_row keys src i tgt = inr tgt' →
  (∀ key, tgt' !! key
          = (λ l, l ++ replicate (occurrences key keys) (cell_val src key i))
              <$> tgt !! key)
  ∧ (∀ key, key ∈ keys → ∃ a v, src !! key = Some a ∧ a !! i = Some v).
Proof.
  revert tgt. induction keys as [|k keys IH]; intros tgt; simpl.
  - intros [= <-]. split; [|by intros ? ?%elem_of_nil].
    intros key. destruct (tgt !! key); simpl; [|done]. by rewrite app_nil_r.
  - unfold dict_get, getitem.
    destruct (tgt !! k) as [l|] eqn:Hl; [|done].
    destruct (src !! k) as [a|] eqn:Ha; [|done]. simpl.
    destruct (a !! i) as [v|] eqn:Hv; [|done]. simpl.
    intros [Hlook Hsrc]%IH. split.
    + intros key. rewrite Hlook. destruct (decide (k = key)) as [->|Hne].
      * rewrite lookup_insert_eq, Hl, occurrences_cons_eq. simpl.
        assert (cell_val src key i = v) as ->.
        { unfold cell_val. rewrite Ha. simpl. by rewrite Hv. }
        by rewrite <- app_assoc.
      * by rewrite lookup_insert_ne, occurrences_cons_ne.
    + intros key [->|Hin]%elem_of_cons; [eauto|auto].
Qed.

Lemma append_row_succeeds keys src i tgt :
  (∀ key, key ∈ keys → is_Some (tgt !! key)) →
  (∀ key, key ∈ keys → ∃ a, src !! key = Some a ∧ i < length a) →
  ∃ tgt', append_row keys src i tgt = inr tgt'
          ∧ ∀ key, key ∈ keys → is_Some (tgt' !! key).
Proof.
  revert tgt. induction keys as [|k keys IH]; intros tgt Htgt Hsrc; simpl.
  - by exists tgt.
  - destruct (Htgt k) as [l Hl]; [by left|].
    destruct (Hsrc k) as (a & Ha & Hi); [by left|].
    destruct (lookup_lt_is_Some_2 a i Hi) as [v Hv].
    unfold dict_get, getitem. rewrite Hl, Ha; simpl. rewrite Hv; simpl.
    destruct (IH (<[k:=l ++ [v]]> tgt)) as (tgt' & Happ & Hsome).
    + intros key Hin. destruct (decide (k = key)) as [->|Hne].
      * by rewrite lookup_insert_eq.
      * rewrite lookup_insert_ne by done. apply Htgt. by right.
    + intros key Hin. apply Hsrc. by right.
    + exists tgt'. split; [done|]. intros key [->|Hin]%elem_of_cons; [|auto].
      apply append_row_inr in Happ as [Hlook _]. rewrite Hlook.
      by rewrite lookup_insert_eq.
Qed.

(** The loops of lines 102-105 and 112-115, from any state. *)
Lemma select_loop_inr keys src_symbols src_arrays idx s0 t0 s1 t1 :
  for_each (select_body keys src_symbols src_arrays) idx (s0, t0) = inr (s1, t1) →
  (∃ xs, picks src_symbols idx xs ∧ s1 = s0 ++ xs)
  ∧ (∀ key, t1 !! key
            = (λ l, l ++ flat_map (λ i, replicate (occurrences key keys)
                                          (cell_val src_arrays key i)) idx)
                <$> t0 !! key)
  ∧ (∀ i key, i ∈ idx → key ∈ keys →
              ∃ a v, src_arrays !! key = Some a ∧ a !! i = Some v).
Proof.
  revert s0 t0. induction idx as [|i idx IH]; intros s0 t0; simpl.
  - intros [= <- <-]. split; [|split].
    + exists []. split; [constructor|by rewrite app_nil_r].
    + intros key. destruct (t0 !! key); simpl; [|done]. by rewrite app_nil_r.
    + by intros ? ? ?%elem_of_nil.
  - unfold getitem at 1. destruct (src_symbols !! i) as [s|] eqn:Hs; [|done].
    simpl. destruct (append_row keys src_arrays i t0) as [e|t] eqn:Happ; [done|].
    simpl. intros ((xs & Hxs & ->) & Hlook & Hsrc)%IH.
    apply append_row_inr in Happ as [Hlook0 Hsrc0]. split; [|split].
    + exists (s :: xs). split; [by constructor|by rewrite <- app_assoc].
    + intros key. rewrite Hlook, Hlook0.
      destruct (t0 !! key); simpl; [|done]. by rewrite <- app_assoc.
    + intros j key [->|Hin]%elem_of_cons Hkey; auto.
Qed.

Lemma select_loop_succeeds keys src_symbols src_arrays idx s0 t0 :
  Forall (λ i, i < length src_symbols) idx →
  (∀ key, key ∈ keys → is_Some (t0 !! key)) →
  (∀ key, key ∈ keys →
          ∃ a, src_arrays !! key = Some a ∧ Forall (λ i, i < length a) idx) →
  ∃ s1 t1,
    for_each (select_body keys src_symbols src_arrays) idx (s0, t0) = inr (s1, t1).
Proof.
  revert s0 t0. induction idx as [|i idx IH]; intros s0 t0 Hsym Ht Hsrc; simpl.
  - by eexists _, _.
  - apply Forall_cons in Hsym as [Hi Hsym].
    destruct (lookup_lt_is_Some_2 _ _ Hi) as [s Hs].
    unfold getitem at 1. rewrite Hs; simpl.
    destruct (append_row_succeeds keys src_arrays i t0) as (t & -> & Hsome);
      [done| |].
    { intros key (a & Ha & Hf%Forall_cons)%Hsrc. exists a. by destruct Hf. }
    simpl. apply IH; [done|done|].
    intros key (a & Ha & Hf%Forall_cons)%Hsrc. exists a. by destruct Hf.
Qed.

(** The loop over the neighbours computes the displacements and, beside
    them, copies symbols and values as the selection loops do. *)
Lemma neigh_loop_inr original_atoms atom_ind keys key_arrays nbrs d0 s0 t0 r :
  for_each (neigh_body original_atoms atom_ind keys key_arrays) nbrs (d0, s0, t0)
  = inr r ↔
  ∃ ds s1 t1,
    Forall2 (λ io d, displacement original_atoms atom_ind io = inr d) nbrs ds
    ∧ for_each (select_body keys (symbols original_atoms) key_arrays)
               (nbrs.*1) (s0, t0) = inr (s1, t1)
    ∧ r = (d0 ++ ds, s1, t1).
Proof.
  revert d0 s0 t0. induction nbrs as [|io nbrs IH]; intros d0 s0 t0; simpl.
  - split.
    + intros [= <-]. exists [], s0, t0. by rewrite app_nil_r.
    + intros (ds & s1 & t1 & ->%Forall2_nil_inv_l & [= <- <-] & ->).
      by rewrite app_nil_r.
  - destruct (displacement original_atoms atom_ind io) as [e|d] eqn:Hd; simpl.
    { split; [done|].
      intros (ds & s1 & t1 & (? & ? & ? & _)%Forall2_cons_inv_l & _). congruence. }
    destruct (getitem (symbols original_atoms) io.1) as [e|s]; simpl.
    { split; [done|]. by intros (ds & s1 & t1 & _ & ? & _). }
    destruct (append_row keys key_arrays io.1 t0) as [e|t]; simpl.
    { split; [done|]. by intros (ds & s1 & t1 & _ & ? & _). }
    rewrite IH. split.
    + intros (ds & s1 & t1 & Hds & Hsel & ->). exists (d :: ds), s1, t1.
      split; [by constructor|]. split; [done|]. by rewrite <- app_assoc.
    + intros (ds & s1 & t1 & (d' & ds' & Hd' & Hds & ->)%Forall2_cons_inv_l
              & Hsel & ->).
      assert (d' = d) as -> by congruence.
      exists ds', s1, t1. split; [done|]. split; [done|].
      by rewrite <- app_assoc.
Qed.

Lemma key_arrays_of_loop original_atoms keys (d0 : gmap string (list entry)) :
  (∀ key, key ∈ keys → is_Some (arrays original_atoms !! key)) →
  ∃ d, for_each (λ d k, a ← get_array original_atoms k; inr (<[k:=a]> d)) keys d0
       = inr d
       ∧ ∀ key, d !! key = if decide (key ∈ keys)
                           then arrays original_atoms !! key else d0 !! key.
Proof.
  revert d0. induction keys as [|k keys IH]; intros d0 Hin; cbn [for_each].
  - exists d0. split; [done|]. intros key.
    by rewrite decide_False by apply not_elem_of_nil.
  - destruct (Hin k) as [a Ha]; [by left|].
    assert (get_array original_atoms k = inr a) as ->.
    { unfold get_array, dict_get. by rewrite Ha. }
    cbn [mbind result_bind].
    destruct (IH (<[k:=a]> d0)) as (d & -> & Hd); [intros; apply Hin; by right|].
    exists d. split; [done|]. intros key. rewrite Hd.
    destruct (decide (key ∈ keys)) as [Hk|Hk].
    + rewrite decide_True; [done|by right].
    + destruct (decide (k = key)) as [->|Hne].
      * rewrite lookup_insert_eq, decide_True; [done|by left].
      * rewrite lookup_insert_ne by done.
        rewrite decide_False; [done|]. by intros [->|?]%elem_of_cons.
Qed.

Lemma key_arrays_of_present original_atoms keys
    (d0 ka : gmap string (list entry)) :
  for_each (λ d k, a ← get_array original_atoms k; inr (<[k:=a]> d)) keys d0
  = inr ka →
  ∀ key, key ∈ keys → is_Some (arrays original_atoms !! key).
Proof.
  revert d0. induction keys as [|k keys IH]; intros d0 Hka key.
  - by intros ?%elem_of_nil.
  - cbn [for_each] in Hka. apply bind_inr in Hka as (d1 & Hd1 & Hka).
    apply bind_inr in Hd1 as (a & Ha & _). unfold get_array, dict_get in Ha.
    destruct (arrays original_atoms !! k) as [a'|] eqn:Ha'; [|done].
    intros [->|Hin]%elem_of_cons; [by rewrite Ha'|eauto].
Qed.

Lemma key_arrays_of_inr original_atoms keys ka :
  key_arrays_of original_atoms keys = inr ka →
  ∀ key, ka !! key = if decide (key ∈ keys)
                     then arrays original_atoms !! key else None.
Proof.
  unfold key_arrays_of. intros Hka.
  pose proof (key_arrays_of_present _ _ _ _ Hka) as Hin.
  destruct (key_arrays_of_loop original_atoms keys ∅ Hin) as (d & Hd & Hlook).
  intros key. rewrite Hd in Hka. injection Hka as <-. rewrite Hlook.
  by rewrite lookup_empty.
Qed.

(** ** The rows gathered around one centre *)

(** Two parallel lists filtered by the same mask stay parallel, and the
    index array of the mask selects the kept entries of both. *)
Lemma filter_parallel {A B} (f : A → result B) (P : B → bool) l ds :
  Forall2 (λ x d, f x = inr d) l ds →
  let K x := match f x with inr d => P d | inl _ => false end in
  picks l (np_where (map P ds)) (filter (λ x, K x = true) l)
  ∧ Forall2 (λ x d, f x = inr d)
            (filter (λ x, K x = true) l) (filter (λ d, P d = true) ds).
Proof.
  intros Hf K.
  assert (map P ds = map K l) as Hmap.
  { induction Hf as [|x d l ds Hx _ IH]; simpl; [done|].
    f_equal; [|done]. unfold K. by rewrite Hx. }
  assert (picks l (np_where (map P ds)) (filter (λ x, K x = true) l)) as Hp.
  { rewrite Hmap. by apply picks_where. }
  split; [done|]. eapply picks_Forall2; [exact Hf|exact Hp|].
  by apply picks_where.
Qed.

Lemma gather_inr original_atoms nl rc max_cell_len keys key_arrays atom_ind g :
  gather original_atoms nl rc max_cell_len keys key_arrays atom_ind = inr g ↔
  ∃ nbrs ns na,
    neighbors nl !! atom_ind = Some nbrs
    ∧ Forall2 (λ io d, displacement original_atoms atom_ind io = inr d)
              nbrs (neigh_disp g)
    ∧ for_each (select_body keys (symbols original_atoms) key_arrays)
               (nbrs.*1) ([], empty_lists keys) = inr (ns, na)
    ∧ ind_in_cube g = np_where (map (in_cube max_cell_len) (neigh_disp g))
    ∧ cube_disp g = filter (λ d, in_cube max_cell_len d = true) (neigh_disp g)
    ∧ for_each (select_body keys ns na) (ind_in_cube g) ([], empty_lists keys)
      = inr (cube_symbols g, cube_arrays g)
    ∧ ind_in_rc g = np_where (map (in_rc rc) (cube_disp g))
    ∧ sphere_disp g = filter (λ d, in_rc rc d = true) (cube_disp g)
    ∧ for_each (select_body keys (cube_symbols g) (cube_arrays g)) (ind_in_rc g)
               ([], empty_lists keys)
      = inr (sphere_symbols g, sphere_arrays g).
Proof.
  unfold gather, get_neighbors, getitem. split.
  - destruct (neighbors nl !! atom_ind) as [nbrs|]; [|done].
    cbn [mbind result_bind].
    intros ([[nd ns] na] & Hn & H)%bind_inr.
    apply neigh_loop_inr in Hn as (ds & ns' & na' & Hds & Hsel & [= -> <- <-]).
    apply bind_inr in H as (cd & Hcd & H).
    apply take_rows_inr, picks_where in Hcd as ->.
    apply bind_inr in H as ([cs ca] & Hc & H).
    apply bind_inr in H as (sd & Hsd & H).
    apply take_rows_inr, picks_where in Hsd as ->.
    apply bind_inr in H as ([ss sa] & Hs & [= <-]).
    exists nbrs, ns, na. by repeat split.
  - intros (nbrs & ns & na & -> & Hds & Hsel & Hic & Hcd & Hc & Hir & Hsd & Hs).
    cbn [mbind result_bind].
    assert (for_each (neigh_body original_atoms atom_ind keys key_arrays) nbrs
              ([], [], empty_lists keys) = inr (neigh_disp g, ns, na)) as ->.
    { apply neigh_loop_inr. by exists (neigh_disp g), ns, na. }
    cbn [mbind result_bind].
    assert (take_rows (neigh_disp g)
              (np_where (map (in_cube max_cell_len) (neigh_disp g)))
            = inr (cube_disp g)) as ->.
    { apply take_rows_inr, picks_where. done. }
    cbn [mbind result_bind]. rewrite <- Hic, Hc. cbn [mbind result_bind].
    assert (take_rows (cube_disp g) (np_where (map (in_rc rc) (cube_disp g)))
            = inr (sphere_disp g)) as ->.
    { apply take_rows_inr, picks_where. done. }
    cbn [mbind result_bind]. rewrite <- Hir, Hs. cbn [mbind result_bind].
    by destruct g.
Qed.

(** The selection loops, from the empty lists. *)
Lemma select_from_empty keys src_symbols src_arrays idx s1 t1 :
  for_each (select_body keys src_symbols src_arrays) idx ([], empty_lists keys)
  = inr (s1, t1) →
  picks src_symbols idx s1
  ∧ (∀ key, key ∉ keys → t1 !! key = None)
  ∧ (∀ key, key ∈ keys →
       t1 !! key = Some (flat_map (λ i, replicate (occurrences key keys)
                                          (cell_val src_arrays key i)) idx))
  ∧ (∀ i key, i ∈ idx → key ∈ keys →
              ∃ a v, src_arrays !! key = Some a ∧ a !! i = Some v).
Proof.
  intros ((xs & Hxs & ->) & Hlook & Hsrc)%select_loop_inr.
  split; [done|]. split; [|split; [|done]].
  - intros key Hk. by rewrite Hlook, empty_lists_lookup, decide_False.
  - intros key Hk. by rewrite Hlook, empty_lists_lookup, decide_True.
Qed.

Lemma flat_map_replicate_1 {A B} (f : A → B) (l : list A) :
  flat_map (λ x, replicate 1 (f x)) l = map f l.
Proof. induction l as [|x l IH]; [done|]. cbn [flat_map map]. by rewrite IH. Qed.

Lemma flat_map_replicate_length {A B} (f : A → B) (l : list A) c :
  length (flat_map (λ x, replicate c (f x)) l) = c * length l.
Proof.
  induction l as [|x l IH]; [simpl; lia|]. cbn [flat_map length].
  rewrite length_app, length_replicate, IH. lia.
Qed.

(** Reading a copied list back by index gives the value of the picked row. *)
Lemma map_cell_val_picks {A} (g : A → entry) (d : gmap string (list entry))
    key (l : list A) idx xs :
  d !! key = Some (map g l) → picks l idx xs →
  map (cell_val d key) idx = map g xs.
Proof.
  intros Hd. unfold picks. induction 1 as [|i x idx xs Hx _ IH]; simpl; [done|].
  f_equal; [|done]. unfold cell_val. rewrite Hd. simpl.
  by rewrite list_lookup_fmap, Hx.
Qed.

(** The displacements in the cube, and those of the cube within [rc], with
    the neighbour entries they come from. *)
Lemma gather_rows original_atoms nl rc max_cell_len keys key_arrays atom_ind g :
  gather original_atoms nl rc max_cell_len keys key_arrays atom_ind = inr g →
  let disp io d := displacement original_atoms atom_ind io = inr d in
  let crows := cube_rows original_atoms nl max_cell_len atom_ind in
  let srows := sphere_rows original_atoms nl rc max_cell_len atom_ind in
  Forall2 disp crows (cube_disp g)
  ∧ Forall2 disp srows (sphere_disp g)
  ∧ picks (default [] (neighbors nl !! atom_ind)) (ind_in_cube g) crows
  ∧ picks crows (ind_in_rc g) srows
  ∧ cube_disp g = filter (λ d, in_cube max_cell_len d = true) (neigh_disp g)
  ∧ sphere_disp g = filter (λ d, in_rc rc d = true) (cube_disp g)
  ∧ ind_in_rc g = np_where (map (in_rc rc) (cube_disp g)).
Proof.
  intros (nbrs & ns & na & Hn & Hds & _ & Hic & Hcd & _ & Hir & Hsd & _)%gather_inr.
  intros disp crows srows. subst crows srows. unfold sphere_rows, cube_rows.
  rewrite Hn. cbn [default from_option id].
  destruct (filter_parallel _ (in_cube max_cell_len) _ _ Hds) as [Hp1 Hf1].
  rewrite <- Hic, <- Hcd in *.
  destruct (filter_parallel _ (in_rc rc) _ _ Hf1) as [Hp2 Hf2].
  rewrite <- Hir, <- Hsd in *.
  by repeat split.
Qed.

Lemma gather_Forall original_atoms nl rc max_cell_len keys key_arrays atom_ind g :
  gather original_atoms nl rc max_cell_len keys key_arrays atom_ind = inr g →
  Forall (λ d, in_cube max_cell_len d = true) (cube_disp g)
  ∧ Forall (λ d, in_cube max_cell_len d = true ∧ in_rc rc d = true)
           (sphere_disp g).
Proof.
  intros (_ & _ & _ & _ & Hcd & Hsd & _)%gather_rows.
  assert (Forall (λ d, in_cube max_cell_len d = true) (cube_disp g)) as Hc.
  { rewrite Hcd. apply Forall_forall. by intros d [? _]%list_elem_of_filter. }
  split; [done|]. rewrite Hsd. apply Forall_forall.
  intros d [? Hd]%list_elem_of_filter. split; [|done].
  by eapply Forall_forall in Hc.
Qed.

(** The lists of auxiliary values: their keys and lengths. *)
Lemma gather_arrays_length original_atoms nl rc max_cell_len keys key_arrays
    atom_ind g :
  gather original_atoms nl rc max_cell_len keys key_arrays atom_ind = inr g →
  (∀ key, key ∉ keys →
          cube_arrays g !! key = None ∧ sphere_arrays g !! key = None)
  ∧ (∀ key, key ∈ keys →
       ∃ lc ls,
         cube_arrays g !! key = Some lc
         ∧ length lc = occurrences key keys * length (cube_disp g)
         ∧ sphere_arrays g !! key = Some ls
         ∧ length ls = occurrences key keys * length (sphere_disp g)).
Proof.
  intros Hg. pose proof Hg as (_ & _ & Hp1 & Hp2 & _)%gather_rows.
  pose proof Hg as (Hf1 & Hf2 & _)%gather_rows.
  apply gather_inr in Hg as (nbrs & ns & na & _ & _ & _ & _ & _ & Hc & _ & _ & Hs).
  apply select_from_empty in Hc as (_ & Hc0 & Hc1 & _).
  apply select_from_empty in Hs as (_ & Hs0 & Hs1 & _).
  split; [by auto|]. intros key Hk. eexists _, _.
  split; [by apply Hc1|]. split.
  { rewrite flat_map_replicate_length. f_equal.
    rewrite <- (Forall2_length _ _ _ Hf1). symmetry. by eapply picks_length. }
  split; [by apply Hs1|].
  rewrite flat_map_replicate_length. f_equal.
  rewrite <- (Forall2_length _ _ _ Hf2). symmetry. by eapply picks_length.
Qed.

(** The lists of a key listed once: the values of the selected neighbours. *)
Lemma gather_arrays_once original_atoms nl rc max_cell_len keys key_arrays
    atom_ind g key :
  gather original_atoms nl rc max_cell_len keys key_arrays atom_ind = inr g →
  key ∈ keys → occurrences key keys = 1 →
  Forall (λ io : nat * offset,
            ∃ arr v, key_arrays !! key = Some arr ∧ arr !! io.1 = Some v)
         (default [] (neighbors nl !! atom_ind))
  ∧ cube_arrays g !! key
    = Some (map (λ io, cell_val key_arrays key io.1)
                (cube_rows original_atoms nl max_cell_len atom_ind))
  ∧ sphere_arrays g !! key
    = Some (map (λ io, cell_val key_arrays key io.1)
                (sphere_rows original_atoms nl rc max_cell_len atom_ind)).
Proof.
  intros Hg Hk Hocc. pose proof Hg as (_ & _ & Hp1 & Hp2 & _)%gather_rows.
  apply gather_inr in Hg
    as (nbrs & ns & na & Hn & _ & Hsel & _ & _ & Hc & _ & _ & Hs).
  rewrite Hn in *. cbn [default from_option id] in *.
  apply select_from_empty in Hsel as (_ & _ & Hn1 & Hsrc).
  apply select_from_empty in Hc as (_ & _ & Hc1 & _).
  apply select_from_empty in Hs as (_ & _ & Hs1 & _).
  specialize (Hn1 key Hk). specialize (Hc1 key Hk). specialize (Hs1 key Hk).
  rewrite Hocc, flat_map_replicate_1 in Hn1, Hc1, Hs1.
  rewrite map_map in Hn1.
  rewrite (map_cell_val_picks _ _ _ _ _ _ Hn1 Hp1) in Hc1.
  rewrite (map_cell_val_picks _ _ _ _ _ _ Hc1 Hp2) in Hs1.
  split; [|done]. apply Forall_forall. intros io Hio.
  apply (Hsrc io.1 key); [|done]. by apply list_elem_of_fmap_2.
Qed.

(** ** The structure of a successful call *)

Lemma collect_loop {A B} (f : A → result B) xs acc r :
  for_each (λ acc x, y ← f x; inr (acc ++ [y])) xs acc = inr r ↔
  ∃ ys, Forall2 (λ x y, f x = inr y) xs ys ∧ r = acc ++ ys.
Proof.
  revert acc. induction xs as [|x xs IH]; intros acc; cbn [for_each].
  - split.
    + intros [= <-]. exists []. by rewrite app_nil_r.
    + intros (ys & ->%Forall2_nil_inv_l & ->). by rewrite app_nil_r.
  - destruct (f x) as [e|y] eqn:Hy; cbn [mbind result_bind].
    + split; [done|].
      intros (ys & (? & ? & ? & _)%Forall2_cons_inv_l & _). congruence.
    + rewrite IH. split.
      * intros (ys & Hys & ->). exists (y :: ys).
        split; [by constructor|by rewrite <- app_assoc].
      * intros (ys & (y' & ys' & Hy' & Hys & ->)%Forall2_cons_inv_l & ->).
        assert (y' = y) as -> by congruence.
        exists ys'. split; [done|by rewrite <- app_assoc].
Qed.

Lemma extract_env_inr METADATA_KEY original_atoms nl rc atom_inds new_cell
    extract_cube keys_to_transfer outs :
  extract_env METADATA_KEY original_atoms nl rc atom_inds new_cell extract_cube
              keys_to_transfer = inr outs ↔
  ∃ cell_norms max_cell_len key_arrays,
    validate original_atoms rc new_cell = inr (cell_norms, max_cell_len)
    ∧ key_arrays_of original_atoms (default [] keys_to_transfer) = inr key_arrays
    ∧ Forall2 (λ a out,
                 extract_one METADATA_KEY original_atoms nl rc new_cell
                   extract_cube (default [] keys_to_transfer) cell_norms
                   max_cell_len key_arrays a = inr out)
              (normalize_inds atom_inds) outs.
Proof.
  unfold extract_env. split.
  - intros ([cn L] & Hv & H)%bind_inr. apply bind_inr in H as (ka & Hka & H).
    apply collect_loop in H as (ys & Hys & ->). by exists cn, L, ka.
  - intros (cn & L & ka & -> & -> & H). cbn [mbind result_bind].
    apply collect_loop. by exists outs.
Qed.

Lemma extract_one_inr METADATA_KEY original_atoms nl rc new_cell extract_cube
    keys cell_norms max_cell_len key_arrays atom_ind out :
  extract_one METADATA_KEY original_atoms nl rc new_cell extract_cube keys
              cell_norms max_cell_len key_arrays atom_ind = inr out ↔
  ∃ g new_info_dict,
    gather original_atoms nl rc max_cell_len keys key_arrays atom_ind = inr g
    ∧ map_Forall (λ _ arr, length arr = length (emitted_disp extract_cube g))
                 (if extract_cube then cube_arrays g else sphere_arrays g)
    ∧ new_info METADATA_KEY (info original_atoms) keys = inr new_info_dict
    ∧ out = {| symbols := if extract_cube then cube_symbols g
                          else sphere_symbols g;
               positions := map (λ d, vadd d (vhalf cell_norms))
                                (emitted_disp extract_cube g);
               cell := cell_of new_cell; pbc := true;
               arrays := if extract_cube then cube_arrays g
                         else sphere_arrays g;
               info := new_info_dict;
               constraints := [ {| index := emitted_fix extract_cube g |} ] |}.
Proof.
  unfold extract_one, set_arrays. split.
  - intros (g & Hg & H)%bind_inr. rewrite length_map in H.
    destruct (decide _) as [Hall|]; [|done].
    cbn [mbind result_bind] in H. apply bind_inr in H as (inf & Hinf & [= <-]).
    by exists g, inf.
  - intros (g & inf & -> & Hall & Hinf & ->). cbn [mbind result_bind].
    rewrite length_map, decide_True by done. cbn [mbind result_bind].
    by rewrite Hinf.
Qed.

(** Every extracted structure comes from the centre index at its place. *)
Lemma extract_env_lookup METADATA_KEY original_atoms nl rc atom_inds new_cell
    extract_cube keys_to_transfer outs j out :
  extract_env METADATA_KEY original_atoms nl rc atom_inds new_cell extract_cube
              keys_to_transfer = inr outs →
  outs !! j = Some out →
  ∃ cell_norms max_cell_len key_arrays atom_ind,
    validate original_atoms rc new_cell = inr (cell_norms, max_cell_len)
    ∧ key_arrays_of original_atoms (default [] keys_to_transfer) = inr key_arrays
    ∧ normalize_inds atom_inds !! j = Some atom_ind
    ∧ extract_one METADATA_KEY original_atoms nl rc new_cell extract_cube
        (default [] keys_to_transfer) cell_norms max_cell_len key_arrays atom_ind
      = inr out.
Proof.
  intros (cn & L & ka & Hv & Hka & Hf)%extract_env_inr Hj.
  destruct (Forall2_lookup_r _ _ _ _ _ Hf Hj) as (a & Ha & Hone).
  by exists cn, L, ka, a.
Qed.

(** The positions of an extracted structure are the displacements of the
    emitted neighbour images, shifted by the box centre. *)
Lemma extract_one_positions METADATA_KEY original_atoms nl rc new_cell
    extract_cube keys cell_norms max_cell_len key_arrays atom_ind out :
  extract_one METADATA_KEY original_atoms nl rc new_cell extract_cube keys
              cell_norms max_cell_len key_arrays atom_ind = inr out →
  ∃ g, gather original_atoms nl rc max_cell_len keys key_arrays atom_ind = inr g
    ∧ positions out = map (λ d, vadd d (vhalf cell_norms))
                          (emitted_disp extract_cube g)
    ∧ Forall2 (λ io d, displacement original_atoms atom_ind io = inr d)
        (emitted_rows original_atoms nl rc max_cell_len extract_cube atom_ind)
        (emitted_disp extract_cube g)
    ∧ constraints out = [ {| index := emitted_fix extract_cube g |} ].
Proof.
  intros (g & inf & Hg & _ & _ & ->)%extract_one_inr. exists g.
  split; [done|]. split; [done|]. split; [|done].
  apply gather_rows in Hg as (Hc & Hs & _).
  unfold emitted_rows, emitted_disp. by destruct extract_cube.
Qed.

(** ** The scan of [find_central_atom] *)

Lemma coord_loop_coords half p b :
  coord_loop half (coords p) b = at_center half p.
Proof.
  destruct p as [[x y] z]. simpl.
  by destruct (x =? half)%float, (y =? half)%float, (z =? half)%float.
Qed.

Lemma atom_loop_None half ps i b :
  atom_loop half i ps b = None ↔ Forall (λ p, at_center half p = false) ps.
Proof.
  revert i b. induction ps as [|p ps IH]; intros i b; simpl.
  - split; [constructor|done].
  - rewrite coord_loop_coords. destruct (at_center half p) eqn:Hp.
    + split; [done|]. intros H. apply Forall_cons in H as [? _]. congruence.
    + rewrite IH, Forall_cons. split; [by split|by intros [_ ?]].
Qed.

(** The index returned is that of the first atom at the centre. *)
Lemma atom_loop_Some half ps i b j :
  atom_loop half i ps b = Some j ↔
  ∃ k p, j = i + k ∧ ps !! k = Some p ∧ at_center half p = true
         ∧ Forall (λ q, at_center half q = false) (take k ps).
Proof.
  revert i b. induction ps as [|p ps IH]; intros i b; simpl.
  - split; [done|]. by intros (k & q & _ & ? & _).
  - rewrite coord_loop_coords. destruct (at_center half p) eqn:Hp.
    + split.
      * intros [= <-]. exists 0, p. rewrite Nat.add_0_r. by repeat split.
      * intros ([|k] & q & -> & Hq & Hc & Hf).
        -- by rewrite Nat.add_0_r.
        -- simpl in Hf. apply Forall_cons in Hf as [? _]. congruence.
    + rewrite IH. split.
      * intros (k & q & -> & Hq & Hc & Hf). exists (S k), q.
        repeat split; [lia|done|done|]. simpl. by constructor.
      * intros ([|k] & q & -> & Hq & Hc & Hf).
        -- simpl in Hq. congruence.
        -- exists k, q. repeat split; [lia|done|done|].
           simpl in Hf. by apply Forall_cons in Hf as [_ ?].
Qed.

(** ** C1: a target cell given as a 3x3 matrix *)

(** C1 (the code departs from it). Whatever the 3x3 matrix given as target
    cell, diagonal with equal entries or not, [extract_env] stops at the
    orthorhombicity test of line 43: the test asks for the truth value of
    a six-element boolean array, which numpy refuses with a [ValueError].
    No matrix cell is accepted. *)
Theorem extract_env_matrix_cell_raises
    (METADATA_KEY : string) (original_atoms : Atoms) (nl : NeighborList)
    (rc : float) (atom_inds : index_arg) (m : mat3) (extract_cube : bool)
    (keys_to_transfer : option (list string)) :
  extract_env METADATA_KEY original_atoms nl rc atom_inds (Mat3 m)
              extract_cube keys_to_transfer
  = raise (ValueError
      "The truth value of an array with more than one element is ambiguous. Use a.any() or a.all()").
Proof.
  destruct m as [[[[a0 a1] a2] [[b0 b1] b2]] [[c0 c1] c2]].
  reflexivity.
Qed.

(** ** C2: the centre atom *)

Lemma filter_length_1_unique {A} (P : A → Prop) `{!∀ x, Decision (P x)}
    (l : list A) i j x y :
  length (filter P l) = 1 →
  l !! i = Some x → P x → l !! j = Some y → P y → i = j.
Proof.
  revert i j. induction l as [|z l IH]; intros i j Hlen Hi Hx Hj Hy; [done|].
  destruct (decide (P z)) as [Hz|Hz].
  - rewrite filter_cons_True in Hlen by done. simpl in Hlen.
    assert (filter P l = []) as Hnil by (by destruct (filter P l)).
    assert (∀ n w, l !! n = Some w → ¬ P w) as Hnone.
    { intros n w Hn Hw.
      eapply (filter_nil_not_elem_of P l w); [done|done|].
      by eapply list_elem_of_lookup_2. }
    destruct i as [|i], j as [|j]; [done| | |]; simpl in *.
    + by destruct (Hnone j y Hj).
    + by destruct (Hnone i x Hi).
    + by destruct (Hnone i x Hi).
  - rewrite filter_cons_False in Hlen by done.
    destruct i as [|i], j as [|j]; simpl in *; simplify_eq; try done.
    f_equal. by eapply IH.
Qed.

(** C2, as the code has it. For a call that returns, with keys that name
    auxiliary arrays only (neither [positions] nor [numbers]), [rc >= 0],
    finite source positions and cell, and a neighbour list that reports the
    centre atom's own image (zero offset): the structure extracted around a centre
    index holds that image at some place [n], at a position whose three
    coordinates equal [max_cell_len / 2]; [find_central_atom], given the
    side length, returns the place [k] of the first atom at that position;
    and [k] is the centre atom's place [n] when a single atom of the
    structure is at that position. *)
Theorem extract_env_center_atom
    (METADATA_KEY : string) (original_atoms : Atoms) (nl : NeighborList)
    (rc : float) (atom_inds : index_arg) (new_cell : ndarray)
    (extract_cube : bool) (keys_to_transfer : option (list string))
    (outs : list Atoms) (j : nat) (out : Atoms) (atom_ind : nat)
    (cell_norms : vec3) (max_cell_len : float)
    (nbrs : list (nat * offset)) (p : vec3) :
  extract_env METADATA_KEY original_atoms nl rc atom_inds new_cell extract_cube
              keys_to_transfer = inr outs →
  outs !! j = Some out →
  auxiliary_keys (default [] keys_to_transfer) →
  normalize_inds atom_inds !! j = Some atom_ind →
  validate original_atoms rc new_cell = inr (cell_norms, max_cell_len) →
  neighbors nl !! atom_ind = Some nbrs →
  (atom_ind, (0, 0, 0)%Z) ∈ nbrs →
  positions original_atoms !! atom_ind = Some p →
  finite_vec p = true →
  finite_mat (cell original_atoms) = true →
  (0 <=? rc)%float = true →
  let half := (max_cell_len / 2)%float in
  ∃ n k : nat,
    emitted_rows original_atoms nl rc max_cell_len extract_cube atom_ind !! n
    = Some (atom_ind, (0, 0, 0)%Z)
    ∧ (∃ q, positions out !! n = Some q ∧ at_center half q = true)
    ∧ find_central_atom out max_cell_len = Some k
    ∧ (k ≤ n)%nat
    ∧ (∃ q, positions out !! k = Some q ∧ at_center half q = true)
    ∧ (∀ i q, i < k → positions out !! i = Some q → at_center half q = false)
    ∧ (count_center half (positions out) = 1 → k = n).
Proof.
  intros Henv Hj _ Ha Hv Hnbrs Hself Hp Hfin Hcell Hrc half.
  destruct (extract_env_lookup _ _ _ _ _ _ _ _ _ _ _ Henv Hj)
    as (cn & L & ka & a & Hv' & Hka & Ha' & Hone).
  assert (cn = cell_norms ∧ L = max_cell_len ∧ a = atom_ind)
    as (-> & -> & ->) by (split; [|split]; congruence).
  apply extract_one_positions in Hone as (g & Hg & Hpos & Hrows & _).
  destruct (box_center_at_center _ _ _ _ _ Hv Hrc) as [Hhalf Hbox].
  destruct (displacement_self _ _ _ Hp Hfin Hcell) as (d0 & Hd0 & Hzero).
  (* the centre atom's image is emitted *)
  assert ((atom_ind, (0, 0, 0)%Z)
          ∈ emitted_rows original_atoms nl rc max_cell_len extract_cube atom_ind)
    as Hin.
  { assert (keeps original_atoms atom_ind (in_cube max_cell_len)
              (atom_ind, (0, 0, 0)%Z) = true) as Hc.
    { unfold keeps. rewrite Hd0. by apply zero_vec_in_cube. }
    assert (keeps original_atoms atom_ind (in_rc rc)
              (atom_ind, (0, 0, 0)%Z) = true) as Hs.
    { unfold keeps. rewrite Hd0. by apply zero_vec_in_rc. }
    unfold emitted_rows, sphere_rows, cube_rows. rewrite Hnbrs.
    cbn [default from_option id].
    destruct extract_cube; repeat (apply list_elem_of_filter; split; [done|]);
      done. }
  apply list_elem_of_lookup in Hin as [n Hn].
  destruct (Forall2_lookup_l _ _ _ _ _ Hrows Hn) as (d & Hd & Hdisp).
  assert (d = d0) as -> by congruence.
  assert (positions out !! n = Some (vadd d0 (vhalf cell_norms))) as Hq.
  { by rewrite Hpos, list_lookup_fmap, Hd. }
  assert (at_center half (vadd d0 (vhalf cell_norms)) = true) as Hcenter.
  { by apply zero_vec_at_center. }
  (* what find_central_atom returns *)
  unfold find_central_atom. fold half.
  destruct (atom_loop half 0 (positions out) false) as [k|] eqn:Hfind.
  - apply atom_loop_Some in Hfind as (k' & q & -> & Hk & Hqc & Hbefore).
    simpl. exists n, k'.
    assert (k' ≤ n)%nat as Hle.
    { destruct (decide (k' ≤ n)%nat) as [|Hgt]; [done|].
      assert (take k' (positions out) !! n
              = Some (vadd d0 (vhalf cell_norms))) as Ht.
      { rewrite lookup_take_lt by lia. done. }
      eapply Forall_lookup_1 in Hbefore; [|exact Ht]. congruence. }
    split; [done|]. split; [by eexists|]. split; [done|]. split; [done|].
    split; [by eexists|]. split.
    + intros i q' Hi Hq'. eapply (Forall_lookup_1 _ _ i) in Hbefore; [done|].
      by rewrite lookup_take_lt.
    + intros Hone. unfold count_center in Hone.
      by eapply (filter_length_1_unique _ _ _ _ _ _ Hone Hk Hqc Hq Hcenter).
  - apply atom_loop_None in Hfind.
    eapply Forall_lookup_1 in Hfind; [|exact Hq]. congruence.
Qed.

Lemma extract_env_center_atom_witness :
  ∃ n k : nat,
    emitted_rows two_atoms two_atoms_nl 2 6 false 1 !! n = Some (1, (0, 0, 0)%Z)
    ∧ find_central_atom two_atoms_out1 6 = Some k
    ∧ (k ≤ n)%nat.
Proof.
  destruct (extract_env_center_atom sample_key two_atoms two_atoms_nl 2
              (IdxList [0; 1]) cube6 false (Some ["forces_weights"])
              [two_atoms_out0; two_atoms_out1] 1 two_atoms_out1 1
              (6, 6, 6)%float 6%float
              [(1, (0, 0, 0)%Z); (0, (0, 0, 0)%Z)] (1, 0, 0)%float)
    as (n & k & Hn & _ & Hk & Hle & _).
  - vm_compute. reflexivity.
  - reflexivity.
  - repeat constructor.
  - reflexivity.
  - vm_compute. reflexivity.
  - reflexivity.
  - left.
  - reflexivity.
  - reflexivity.
  - reflexivity.
  - reflexivity.
  - exists n, k. split; [exact Hn|]. split; [exact Hk|exact Hle].
Defined.

(** C2 as stated fails: two atoms of the source at the same place give two
    atoms at the centre of the structure extracted around either, and
    [find_central_atom] returns the first, here the image of atom 0 in the
    structure extracted around atom 1. *)
Lemma two_atoms_at_center :
  extract_env sample_key coincident coincident_nl 2 (IdxList [1]) cube6 false
              None = inr [coincident_out]
  ∧ count_center (6 / 2) (positions coincident_out) = 2
  ∧ find_central_atom coincident_out 6 = Some 0
  ∧ emitted_rows coincident coincident_nl 2 6 false 1
    = [(0, (0, 0, 0)%Z); (1, (0, 0, 0)%Z)].
Proof. repeat split; vm_compute; reflexivity. Qed.

(** ** C3: when [CellTooSmallError] is raised *)

Lemma validate_cubic_vec original_atoms rc v :
  all_equal v = true →
  validate original_atoms rc (Vec3 v)
  = if too_small original_atoms rc (Vec3 v)
    then (if exceeds_source original_atoms (np_max v)
          then raise (CellTooSmallError
                 "Requested extracted cell size is larger than original structure")
          else if (np_max v <? rc)%float
          then raise (CellTooSmallError
                 "The specified value for rc is greater than the maximum cell vector length for the new supercell")
          else raise (CellTooSmallError
                 "2*rc is greater than the extracted cell side length"))
    else inr (v, np_max v).
Proof.
  destruct v as [[a b] c]. unfold all_equal, validate, too_small, exceeds_source.
  cbn [cell_sides side_lengths mbind result_bind].
  intros [[-> ->]%andb_true_iff _]%andb_true_iff. cbn [andb negb].
  destruct (cellpar original_atoms) as [[p0 p1] p2].
  destruct ((p0 <? _)%float || (p1 <? _)%float || (p2 <? _)%float); [done|].
  destruct (_ <? rc)%float; [done|]. by destruct (_ <? rc * 2)%float.
Qed.

Lemma extract_env_after_validate METADATA_KEY original_atoms nl rc atom_inds
    new_cell extract_cube keys_to_transfer cell_norms max_cell_len :
  validate original_atoms rc new_cell = inr (cell_norms, max_cell_len) →
  raises_only later_error
    (extract_env METADATA_KEY original_atoms nl rc atom_inds new_cell
                 extract_cube keys_to_transfer).
Proof.
  intros Hv. unfold extract_env. rewrite Hv. cbn [mbind result_bind].
  apply raises_only_bind; [apply raises_only_key_arrays_of|intros ka _].
  apply raises_only_for_each. intros subcells a.
  apply raises_only_bind; [apply raises_only_extract_one|by intros].
Qed.

(** C3, as the code has it. For a target cell given as a 3-vector of three
    equal side lengths, [extract_env] raises [CellTooSmallError] exactly when
    the maximum side length exceeds one of the three cell lengths of the
    source, or [rc] exceeds it, or [rc * 2] exceeds it; and when [rc * 2]
    equals the side length while the two other conditions do not hold, the
    validation passes. *)
Theorem extract_env_cell_too_small_iff
    (METADATA_KEY : string) (original_atoms : Atoms) (nl : NeighborList)
    (rc : float) (atom_inds : index_arg) (v : vec3) (extract_cube : bool)
    (keys_to_transfer : option (list string)) :
  all_equal v = true →
  (is_cell_too_small
     (extract_env METADATA_KEY original_atoms nl rc atom_inds (Vec3 v)
                  extract_cube keys_to_transfer)
   ↔ too_small original_atoms rc (Vec3 v) = true)
  ∧ ((rc * 2 =? np_max v)%float = true →
     exceeds_source original_atoms (np_max v) = false →
     (np_max v <? rc)%float = false →
     validate original_atoms rc (Vec3 v) = inr (v, np_max v)).
Proof.
  intros Heq. pose proof (validate_cubic_vec original_atoms rc v Heq) as Hv.
  split.
  - destruct (too_small original_atoms rc (Vec3 v)) eqn:Hts.
    + split; [done|intros _]. unfold extract_env. rewrite Hv.
      destruct (exceeds_source _ _); [by eexists|].
      destruct (_ <? rc)%float; by eexists.
    + split; [|done]. intros [msg Hr].
      pose proof (extract_env_after_validate METADATA_KEY original_atoms nl rc
                    atom_inds (Vec3 v) extract_cube keys_to_transfer _ _ Hv) as H.
      by rewrite Hr in H.
  - intros H2 Hsrc Hrc. rewrite Hv. unfold too_small. cbn [side_lengths].
    by rewrite Hsrc, Hrc, (feqb_not_ltb _ _ H2).
Qed.

Lemma extract_env_cell_too_small_iff_witness :
  validate one_atom 3 (Vec3 (6, 6, 6)%float) = inr ((6, 6, 6)%float, 6%float).
Proof.
  apply (extract_env_cell_too_small_iff sample_key one_atom one_atom_nl 3
           (IdxList [0]) (6, 6, 6)%float false None);
    reflexivity.
Defined.

(** C3 as stated fails: the three size conditions can hold while the
    exception raised is the [ValueError] of the shape check, which comes
    first. Here the largest side, 100, exceeds the source's cell of side 10. *)
Lemma extract_env_too_small_not_raised :
  too_small one_atom 1 (Vec3 (1, 2, 100)%float) = true
  ∧ extract_env sample_key one_atom one_atom_nl 1 (IdxList [0])
                (Vec3 (1, 2, 100)%float) false None
    = raise (ValueError
        "New cell is not a cube. This is an unxpected case not accounted for").
Proof. split; reflexivity. Qed.

(** ** C4: a target cell that is not a cube *)

Lemma validate_not_cube original_atoms rc c :
  all_equal (side_lengths c) = false →
  is_value_error (validate original_atoms rc c).
Proof.
  intros Hne. destruct c as [[[a b] d]|m].
  - unfold validate; simpl. simpl in Hne.
    destruct (a =? b)%float eqn:Hab; [|by eexists].
    destruct (b =? d)%float eqn:Hbd; [|by eexists].
    by rewrite (feqb_trans _ _ _ Hab Hbd) in Hne.
  - destruct m as [[[[a0 a1] a2] [[b0 b1] b2]] [[c0 c1] c2]]. by eexists.
Qed.

(** C4. A target cell, 3-vector or 3x3 matrix, whose three derived side
    lengths are not all equal under the exact floating-point comparison
    makes [extract_env] raise a [ValueError], whatever the source, the
    neighbour list, [rc], the centre indices, the flag and the keys: nothing
    is extracted first. *)
Theorem extract_env_not_cube_raises
    (METADATA_KEY : string) (original_atoms : Atoms) (nl : NeighborList)
    (rc : float) (atom_inds : index_arg) (new_cell : ndarray)
    (extract_cube : bool) (keys_to_transfer : option (list string)) :
  all_equal (side_lengths new_cell) = false →
  is_value_error
    (extract_env METADATA_KEY original_atoms nl rc atom_inds new_cell
                 extract_cube keys_to_transfer).
Proof.
  intros Hne. destruct (validate_not_cube original_atoms rc _ Hne) as [msg Hv].
  exists msg. unfold extract_env. by rewrite Hv.
Qed.

Lemma extract_env_not_cube_raises_witness :
  all_equal (side_lengths (Vec3 (6, 6, 7)%float)) = false
  ∧ is_value_error
      (extract_env sample_key one_atom one_atom_nl 2 (IdxList [0])
                   (Vec3 (6, 6, 7)%float) false None).
Proof.
  split; [reflexivity|].
  apply (extract_env_not_cube_raises sample_key one_atom one_atom_nl 2
           (IdxList [0]) (Vec3 (6, 6, 7)%float) false None).
  reflexivity.
Defined.

(** ** C5: the sphere and the cube *)

Lemma in_cube_inside max_cell_len d :
  in_cube max_cell_len d = inside_cube (max_cell_len / 2) d.
Proof.
  destruct d as [[x y] z]. unfold in_cube, inside_cube. cbn [coords forallb].
  by rewrite andb_true_r, andb_assoc.
Qed.

Lemma in_rc_inside rc d : in_rc rc d = inside_sphere rc d.
Proof. by destruct d as [[x y] z]. Qed.

(** C5, as the code has it. In every structure that [extract_env] returns
    for keys that name auxiliary arrays only, the positions are displacements
    [ds] shifted by the box centre, where [ds] is taken, in order, from the
    displacements [all_ds] of the neighbour images of the centre atom, as
    line 88 computes them. With [extract_cube = true], [ds] holds exactly
    those whose three absolute components are at most [max_cell_len / 2],
    and the constraint lists exactly the places in [ds] of the displacements
    of norm at most [rc]. With [extract_cube = false], [ds] holds exactly
    those of the cube whose norm is at most [rc], and the constraint lists
    every atom of the output. *)
Theorem extract_env_sphere_and_cube
    (METADATA_KEY : string) (original_atoms : Atoms) (nl : NeighborList)
    (rc : float) (atom_inds : index_arg) (new_cell : ndarray)
    (extract_cube : bool) (keys_to_transfer : option (list string))
    (outs : list Atoms) (j : nat) (out : Atoms) :
  extract_env METADATA_KEY original_atoms nl rc atom_inds new_cell extract_cube
              keys_to_transfer = inr outs →
  outs !! j = Some out →
  auxiliary_keys (default [] keys_to_transfer) →
  ∃ atom_ind cell_norms max_cell_len nbrs all_ds ds,
    normalize_inds atom_inds !! j = Some atom_ind
    ∧ validate original_atoms rc new_cell = inr (cell_norms, max_cell_len)
    ∧ neighbors nl !! atom_ind = Some nbrs
    ∧ Forall2 (λ io d, displacement original_atoms atom_ind io = inr d)
              nbrs all_ds
    ∧ positions out = map (λ d, vadd d (vhalf cell_norms)) ds
    ∧ let cube :=
        filter (λ d, inside_cube (max_cell_len / 2) d = true) all_ds in
      if extract_cube
      then ds = cube
           ∧ Forall (λ d, inside_cube (max_cell_len / 2) d = true) ds
           ∧ ∃ idx, constraints out = [ {| index := idx |} ]
                    ∧ ∀ i, i ∈ idx
                           ↔ ∃ d, ds !! i = Some d ∧ inside_sphere rc d = true
      else ds = filter (λ d, inside_sphere rc d = true) cube
           ∧ Forall (λ d, inside_sphere rc d = true) ds
           ∧ constraints out
             = [ {| index := seq 0 (length (positions out)) |} ].
Proof.
  intros Henv Hj _.
  destruct (extract_env_lookup _ _ _ _ _ _ _ _ _ _ _ Henv Hj)
    as (cn & L & ka & a & Hv & Hka & Ha & Hone).
  apply extract_one_positions in Hone as (g & Hg & Hpos & _ & Hfix).
  apply gather_inr in Hg
    as (nbrs & ns & na & Hn & Hds & _ & _ & Hcd & _ & Hir & Hsd & _).
  assert (cube_disp g
          = filter (λ d, inside_cube (L / 2) d = true) (neigh_disp g)) as Hcube.
  { rewrite Hcd. apply list_filter_iff. intros d. by rewrite in_cube_inside. }
  assert (sphere_disp g
          = filter (λ d, inside_sphere rc d = true) (cube_disp g)) as Hsphere.
  { rewrite Hsd. apply list_filter_iff. intros d. by rewrite in_rc_inside. }
  exists a, cn, L, nbrs, (neigh_disp g), (emitted_disp extract_cube g).
  split; [done|]. split; [done|]. split; [done|]. split; [done|].
  split; [done|]. cbv zeta. rewrite <- Hcube.
  destruct extract_cube; cbn [emitted_disp emitted_fix] in *.
  - split; [done|]. split.
    { rewrite Hcube. apply Forall_forall. by intros d [? _]%list_elem_of_filter. }
    exists (ind_in_rc g). split; [done|].
    intros i. rewrite Hir, elem_of_np_where.
    by setoid_rewrite in_rc_inside.
  - split; [done|]. split.
    { rewrite Hsphere. apply Forall_forall.
      by intros d [? _]%list_elem_of_filter. }
    by rewrite Hfix, Hpos, length_map.
Qed.

Lemma extract_env_sphere_and_cube_witness :
  (∃ cell_norms ds,
     positions four_atoms_cube = map (λ d, vadd d (vhalf cell_norms)) ds
     ∧ Forall (λ d, inside_cube (6 / 2) d = true) ds
     ∧ ∃ idx, constraints four_atoms_cube = [ {| index := idx |} ]
              ∧ ∀ i, i ∈ idx
                     ↔ ∃ d, ds !! i = Some d ∧ inside_sphere 2 d = true)
  ∧ (∃ cell_norms ds,
       positions four_atoms_sphere = map (λ d, vadd d (vhalf cell_norms)) ds
       ∧ Forall (λ d, inside_sphere 2 d = true) ds
       ∧ constraints four_atoms_sphere = [ {| index := [0; 1] |} ]).
Proof.
  split.
  - destruct (extract_env_sphere_and_cube sample_key four_atoms four_atoms_nl 2
                (IdxList [0]) cube6 true None [four_atoms_cube] 0
                four_atoms_cube)
      as (a & cn & L & nbrs & all_ds & ds & _ & Hv & _ & _ & Hpos & _ & Hin & Hfix);
      [vm_compute; reflexivity|reflexivity|constructor|].
    injection Hv as _ <-.
    exists cn, ds. split; [exact Hpos|]. split; [exact Hin|exact Hfix].
  - destruct (extract_env_sphere_and_cube sample_key four_atoms four_atoms_nl 2
                (IdxList [0]) cube6 false None [four_atoms_sphere] 0
                four_atoms_sphere)
      as (a & cn & L & nbrs & all_ds & ds & _ & _ & _ & _ & Hpos & _ & Hin & Hfix);
      [vm_compute; reflexivity|reflexivity|constructor|].
    exists cn, ds. split; [exact Hpos|]. split; [exact Hin|exact Hfix].
Defined.

(** C5 as stated fails: the norm bound holds for the displacement that the
    code computes, not for the position minus the box centre. With
    [rc = 0.7] and a neighbour at distance [0.7], the displacement has norm
    [0.7] and the atom is emitted at [0.7 + 3 = 3.7000000000000002]; that
    position minus the box centre [3] is [0.70000000000000018], of norm
    above [rc]. *)
Lemma position_minus_center_beyond_rc :
  extract_env sample_key rounding_atoms two_atoms_nl f0_7 (IdxList [0]) cube6
              false None = inr [rounding_out]
  ∧ inside_sphere f0_7 (f0_7, 0, 0)%float = true
  ∧ positions rounding_out !! 1 = Some (f3_7, 3, 3)%float
  ∧ vhalf (6, 6, 6)%float = (3, 3, 3)%float
  ∧ inside_sphere f0_7 (vsub (f3_7, 3, 3) (3, 3, 3))%float = false.
Proof. repeat split; vm_compute; reflexivity. Qed.

(** ** C6: the metadata of an extracted structure *)

Lemma info_body_inr METADATA_KEY original_info ni nm n ni' nm' :
  info_body METADATA_KEY original_info (ni, nm) n = inr (ni', nm') →
  is_Some (original_info !! METADATA_KEY)
  ∧ (∀ k, ni' !! k = if str_in n k
                     then match original_info !! k with
                          | Some v => Some v
                          | None => ni !! k
                          end
                     else ni !! k)
  ∧ (∀ k, nm' !! k = if decide (k = n)
                     then match nested_lookup METADATA_KEY original_info k with
                          | Some v => Some v
                          | None => nm !! k
                          end
                     else nm !! k).
Proof.
  unfold info_body, dict_get, nested_lookup.
  destruct (original_info !! METADATA_KEY) as [md|] eqn:Hmd; [|done].
  cbn [mbind result_bind]. intros H. split; [by eexists|].
  assert (ni' = filter (λ kv, str_in n kv.1 = true) original_info ∪ ni
          ∧ nm' = match md with
                  | PyDict d => match d !! n with
                                | Some v => <[n:=v]> nm
                                | None => nm
                                end
                  | _ => nm
                  end) as [-> ->].
  { destruct md as [z|s|d]; [done| |].
    - destruct (str_in n s); [done|]. by injection H as <- <-.
    - destruct (d !! n); by injection H as <- <-. }
  clear H. split.
  - intros k. destruct (str_in n k) eqn:Hin.
    + destruct (original_info !! k) as [v|] eqn:Hk.
      * apply lookup_union_Some_l. by apply map_lookup_filter_Some_2.
      * apply lookup_union_r, map_lookup_filter_None_2. by left.
    + apply lookup_union_r, map_lookup_filter_None_2. right.
      intros v _. simpl. congruence.
  - intros k. destruct (decide (k = n)) as [->|Hne].
    + destruct md as [z|s|d]; [done|done|].
      destruct (d !! n); [by rewrite lookup_insert_eq|done].
    + destruct md as [z|s|d]; [done|done|].
      destruct (d !! n); [by rewrite lookup_insert_ne|done].
Qed.

Lemma info_loop_inr METADATA_KEY original_info names ni nm ni' nm' :
  for_each (info_body METADATA_KEY original_info) names (ni, nm)
  = inr (ni', nm') →
  (names ≠ [] → is_Some (original_info !! METADATA_KEY))
  ∧ (∀ k, ni' !! k = if existsb (λ n, str_in n k) names
                     then match original_info !! k with
                          | Some v => Some v
                          | None => ni !! k
                          end
                     else ni !! k)
  ∧ (∀ k, nm' !! k = if decide (k ∈ names)
                     then match nested_lookup METADATA_KEY original_info k with
                          | Some v => Some v
                          | None => nm !! k
                          end
                     else nm !! k).
Proof.
  revert ni nm. induction names as [|n names IH]; intros ni nm; cbn [for_each].
  - intros [= <- <-]. split; [done|]. split; [done|]. intros k.
    by rewrite decide_False by apply not_elem_of_nil.
  - intros ([ni1 nm1] & Hbody & Hrest)%bind_inr.
    apply info_body_inr in Hbody as (Hsome & Hni1 & Hnm1).
    apply IH in Hrest as (_ & Hni & Hnm). split; [done|]. split.
    + intros k. rewrite Hni, Hni1. cbn [existsb].
      destruct (str_in n k), (existsb (λ n0, str_in n0 k) names),
        (original_info !! k); done.
    + intros k. rewrite Hnm, Hnm1.
      destruct (decide (k = n)) as [->|Hne].
      * rewrite (decide_True (P := n ∈ n :: names)) by by left.
        destruct (decide (n ∈ names)),
          (nested_lookup METADATA_KEY original_info n); done.
      * destruct (decide (k ∈ names)) as [Hin|Hnin].
        -- by rewrite decide_True by by right.
        -- rewrite decide_False; [done|]. by intros [->|?]%elem_of_cons.
Qed.

Lemma new_info_inr METADATA_KEY original_info keys new_info_dict :
  new_info METADATA_KEY original_info keys = inr new_info_dict →
  (keys ≠ [] → is_Some (original_info !! METADATA_KEY))
  ∧ (∀ k v, k ≠ METADATA_KEY →
       (new_info_dict !! k = Some v ↔
        original_info !! k = Some v
        ∧ ∃ key, key ∈ keys ∧ str_in (rsplit1_head key) k = true))
  ∧ ∃ md, new_info_dict !! METADATA_KEY = Some (PyDict md)
      ∧ ∀ k v, md !! k = Some v ↔
               (∃ key, key ∈ keys ∧ k = rsplit1_head key)
               ∧ nested_lookup METADATA_KEY original_info k = Some v.
Proof.
  unfold new_info. intros ([ni nm] & Hloop & [= <-])%bind_inr.
  apply info_loop_inr in Hloop as (Hsome & Hni & Hnm). split; [|split].
  - intros Hne. apply Hsome. by destruct keys.
  - intros k v Hk. rewrite lookup_insert_ne by done. rewrite Hni, lookup_empty.
    destruct (existsb _ _) eqn:Hex.
    + apply existsb_exists in Hex as (n & Hn & Hin).
      apply list_elem_of_In, list_elem_of_fmap in Hn as (key & -> & Hkey).
      destruct (original_info !! k) as [v0|].
      * split; [intros ?; split; [done|by exists key]|by intros [? _]].
      * split; [done|by intros [? _]].
    + split; [by destruct (original_info !! k)|].
      intros (_ & key & Hkey & Hin).
      assert (existsb (λ n, str_in n k) (map rsplit1_head keys) = true) as Ht.
      { apply existsb_exists. exists (rsplit1_head key). split; [|done].
        apply list_elem_of_In, list_elem_of_fmap. by exists key. }
      congruence.
  - exists nm. split; [by rewrite lookup_insert_eq|]. intros k v.
    rewrite Hnm, lookup_empty. destruct (decide _) as [Hin|Hnin].
    + apply list_elem_of_fmap in Hin as (key & -> & Hkey).
      destruct (nested_lookup _ _ _) as [v0|].
      * split; [intros ?; split; [by exists key|done]|by intros [_ ?]].
      * split; [done|by intros [_ ?]].
    + split; [done|]. intros ((key & Hkey & ->) & _). destruct Hnin.
      apply list_elem_of_fmap. by exists key.
Qed.

(** C6, as the code has it. In every structure that [extract_env] returns,
    the top-level entries of [info], the reserved key apart, are exactly the
    source's top-level entries whose key contains the base name of some
    requested key; and the reserved key holds a dictionary whose entries are
    exactly the entries of the source's nested dictionary whose key is the
    base name of some requested key (equal to it, not merely containing
    it). *)
Theorem extract_env_info_filtered
    (METADATA_KEY : string) (original_atoms : Atoms) (nl : NeighborList)
    (rc : float) (atom_inds : index_arg) (new_cell : ndarray)
    (extract_cube : bool) (keys_to_transfer : option (list string))
    (outs : list Atoms) (j : nat) (out : Atoms) :
  extract_env METADATA_KEY original_atoms nl rc atom_inds new_cell extract_cube
              keys_to_transfer = inr outs →
  outs !! j = Some out →
  (∀ k v, k ≠ METADATA_KEY →
     (info out !! k = Some v ↔
      info original_atoms !! k = Some v
      ∧ ∃ key, key ∈ default [] keys_to_transfer
               ∧ str_in (rsplit1_head key) k = true))
  ∧ ∃ md, info out !! METADATA_KEY = Some (PyDict md)
      ∧ ∀ k v, md !! k = Some v ↔
               (∃ key, key ∈ default [] keys_to_transfer
                       ∧ k = rsplit1_head key)
               ∧ nested_lookup METADATA_KEY (info original_atoms) k = Some v.
Proof.
  intros Henv Hj.
  destruct (extract_env_lookup _ _ _ _ _ _ _ _ _ _ _ Henv Hj)
    as (cn & L & ka & a & _ & _ & _ & Hone).
  apply extract_one_inr in Hone as (g & inf & _ & _ & Hinf & ->).
  apply new_info_inr in Hinf as (_ & Htop & Hnested). by split.
Qed.

Lemma extract_env_info_filtered_witness :
  extract_env sample_key two_atoms two_atoms_nl 2 (IdxList [0]) cube6 false
              (Some ["forces_weights"]) = inr [two_atoms_out0]
  ∧ (info two_atoms_out0 !! "forces_unit" = Some (PyStr "eV") ↔
     info two_atoms !! "forces_unit" = Some (PyStr "eV")
     ∧ ∃ key, key ∈ ["forces_weights"]
              ∧ str_in (rsplit1_head key) "forces_unit" = true).
Proof.
  split; [vm_compute; reflexivity|].
  apply (extract_env_info_filtered sample_key two_atoms two_atoms_nl 2
           (IdxList [0]) cube6 false (Some ["forces_weights"])
           [two_atoms_out0] 0 two_atoms_out0);
    [vm_compute; reflexivity|reflexivity|discriminate].
Defined.

(** C6 as stated fails for the nested dictionary: the key [forces_extra] of
    the source's nested dictionary contains the base name [forces] of the
    requested key [forces_weights], and is not copied. *)
Lemma nested_key_containing_base_name_not_copied :
  ∃ md,
    extract_env sample_key two_atoms two_atoms_nl 2 (IdxList [0]) cube6 false
                (Some ["forces_weights"]) = inr [two_atoms_out0]
    ∧ nested_lookup sample_key (info two_atoms) "forces_extra" = Some (PyNum 8)
    ∧ str_in (rsplit1_head "forces_weights") "forces_extra" = true
    ∧ info two_atoms_out0 !! sample_key = Some (PyDict md)
    ∧ md !! "forces_extra" = None.
Proof.
  exists {[ "forces" := PyNum 7 ]}.
  split; [vm_compute; reflexivity|]. repeat split; vm_compute; reflexivity.
Qed.

(** ** C7: the auxiliary arrays stay aligned *)

(** C7. In every structure that [extract_env] returns for keys that name
    auxiliary arrays only (neither [positions] nor [numbers]), for every key
    of [keys_to_transfer], the array attached under that key holds, at each
    place, the source array's entry for the source atom of the neighbour
    image whose shifted displacement is the position at the same place. *)
Theorem extract_env_arrays_aligned
    (METADATA_KEY : string) (original_atoms : Atoms) (nl : NeighborList)
    (rc : float) (atom_inds : index_arg) (new_cell : ndarray)
    (extract_cube : bool) (keys_to_transfer : option (list string))
    (outs : list Atoms) (j : nat) (out : Atoms) (key : string) :
  extract_env METADATA_KEY original_atoms nl rc atom_inds new_cell extract_cube
              keys_to_transfer = inr outs →
  outs !! j = Some out →
  auxiliary_keys (default [] keys_to_transfer) →
  key ∈ default [] keys_to_transfer →
  ∃ atom_ind cell_norms max_cell_len src_arr arr,
    normalize_inds atom_inds !! j = Some atom_ind
    ∧ validate original_atoms rc new_cell = inr (cell_norms, max_cell_len)
    ∧ arrays original_atoms !! key = Some src_arr
    ∧ arrays out !! key = Some arr
    ∧ Forall2 (λ io p, ∃ d, displacement original_atoms atom_ind io = inr d
                            ∧ p = vadd d (vhalf cell_norms))
        (emitted_rows original_atoms nl rc max_cell_len extract_cube atom_ind)
        (positions out)
    ∧ Forall2 (λ io v, src_arr !! io.1 = Some v)
        (emitted_rows original_atoms nl rc max_cell_len extract_cube atom_ind)
        arr.
Proof.
  intros Henv Hj _ Hkey.
  destruct (extract_env_lookup _ _ _ _ _ _ _ _ _ _ _ Henv Hj)
    as (cn & L & ka & a & Hv & Hka & Ha & Hone).
  pose proof Hone as (g & Hg & Hpos & Hrows & _)%extract_one_positions.
  apply extract_one_inr in Hone as (g' & inf & Hg' & Hall & _ & Hout).
  assert (g' = g) as -> by congruence. clear Hg'.
  pose proof (key_arrays_of_inr _ _ _ Hka key) as Hkak.
  rewrite decide_True in Hkak by done.
  destruct (key_arrays_of_present _ _ _ _ Hka key Hkey) as [src_arr Hsrc].
  rewrite Hsrc in Hkak.
  destruct (gather_arrays_length _ _ _ _ _ _ _ _ Hg) as [_ Hlen].
  destruct (Hlen key Hkey) as (lc & ls & Hlc & Hnc & Hls & Hns).
  remember (emitted_rows original_atoms nl rc L extract_cube a) as rows
    eqn:Hrows_eq.
  set (arr := if extract_cube then lc else ls).
  assert (arrays out !! key = Some arr) as Harr.
  { subst out arr. simpl. by destruct extract_cube. }
  assert (length arr = occurrences key (default [] keys_to_transfer)
                       * length (emitted_disp extract_cube g)) as Hn.
  { subst arr. unfold emitted_disp. by destruct extract_cube. }
  assert (length arr = length (emitted_disp extract_cube g)) as Hm.
  { apply (Hall key). subst out. simpl in Harr. by destruct extract_cube. }
  exists a, cn, L, src_arr, arr. rewrite <- Hrows_eq.
  split; [done|]. split; [done|]. split; [done|]. split; [done|]. split.
  { rewrite Hpos. apply Forall2_fmap_r.
    eapply Forall2_impl; [exact Hrows|]. intros io d Hd. by exists d. }
  destruct (emitted_disp extract_cube g) as [|d0 ds] eqn:Hds.
  - apply Forall2_length in Hrows. simpl in Hrows, Hm.
    destruct rows; [|done]. destruct arr; [|done]. constructor.
  - assert (occurrences key (default [] keys_to_transfer) = 1) as Hocc.
    { rewrite Hm in Hn. simpl in Hn. nia. }
    destruct (gather_arrays_once _ _ _ _ _ _ _ _ _ Hg Hkey Hocc)
      as (Hin & Hc1 & Hs1).
    assert (arr = map (λ io : nat * offset, cell_val ka key io.1) rows) as ->.
    { subst arr rows. unfold emitted_rows.
      destruct extract_cube; congruence. }
    apply Forall2_fmap_r, Forall_Forall2_diag, Forall_forall. intros io Hio.
    assert (io ∈ default [] (neighbors nl !! a)) as Hnb.
    { subst rows. unfold emitted_rows, sphere_rows, cube_rows in Hio.
      destruct extract_cube; repeat apply list_elem_of_filter in Hio as [_ Hio];
        done. }
    eapply Forall_forall in Hin as (arr' & v & Harr' & Hval); [|exact Hnb].
    assert (arr' = src_arr) as -> by congruence.
    unfold cell_val. rewrite Hkak. simpl. by rewrite Hval.
Qed.

Lemma extract_env_arrays_aligned_witness :
  extract_env sample_key two_atoms two_atoms_nl 2 (IdxList [0]) cube6 false
              (Some ["forces_weights"]) = inr [two_atoms_out0]
  ∧ ∃ atom_ind max_cell_len src_arr arr,
      arrays two_atoms !! "forces_weights" = Some src_arr
      ∧ arrays two_atoms_out0 !! "forces_weights" = Some arr
      ∧ Forall2 (λ io v, src_arr !! io.1 = Some v)
          (emitted_rows two_atoms two_atoms_nl 2 max_cell_len false atom_ind)
          arr.
Proof.
  split; [vm_compute; reflexivity|].
  destruct (extract_env_arrays_aligned sample_key two_atoms two_atoms_nl 2
              (IdxList [0]) cube6 false (Some ["forces_weights"])
              [two_atoms_out0] 0 two_atoms_out0 "forces_weights")
    as (a & cn & L & src_arr & arr & _ & _ & Hsrc & Harr & _ & Hal);
    [vm_compute; reflexivity|reflexivity|repeat constructor|by left|].
  exists a, L, src_arr, arr. split; [exact Hsrc|]. split; [exact Harr|exact Hal].
Defined.

(** ** C8: one structure per centre index *)

Lemma new_info_succeeds METADATA_KEY original_info keys :
  (keys ≠ [] → ∃ d, original_info !! METADATA_KEY = Some (PyDict d)) →
  ∃ new_info_dict, new_info METADATA_KEY original_info keys = inr new_info_dict.
Proof.
  intros Hmd. destruct keys as [|key keys]; [by eexists|].
  destruct Hmd as [d Hd]; [done|]. unfold new_info.
  assert (∀ st n, ∃ st',
            info_body METADATA_KEY original_info st n = inr st') as Hbody.
  { intros [ni nm] n. unfold info_body, dict_get. rewrite Hd.
    cbn [mbind result_bind]. destruct (d !! n); by eexists. }
  assert (∀ names st, ∃ st',
            for_each (info_body METADATA_KEY original_info) names st = inr st')
    as Hloop.
  { induction names as [|n names IH]; intros st; cbn [for_each].
    - by eexists.
    - destruct (Hbody st n) as [st1 ->]. cbn [mbind result_bind]. apply IH. }
  destruct (Hloop (map rsplit1_head (key :: keys)) (∅, ∅)) as [[ni nm] ->].
  by eexists.
Qed.

Lemma displacement_succeeds original_atoms atom_ind io :
  atom_ind < length (positions original_atoms) →
  io.1 < length (positions original_atoms) →
  ∃ d, displacement original_atoms atom_ind io = inr d.
Proof.
  intros [pc Hc]%lookup_lt_is_Some_2 [pi Hi]%lookup_lt_is_Some_2.
  unfold displacement, getitem. rewrite Hi, Hc. by eexists.
Qed.

Lemma gather_succeeds original_atoms nl rc max_cell_len keys key_arrays atom_ind :
  let n_atoms := length (positions original_atoms) in
  NoDup keys →
  length (symbols original_atoms) = n_atoms →
  (∀ key, key ∈ keys →
     ∃ arr, key_arrays !! key = Some arr ∧ length arr = n_atoms) →
  length (neighbors nl) = n_atoms →
  Forall (Forall (λ io : nat * offset, io.1 < n_atoms)) (neighbors nl) →
  atom_ind < n_atoms →
  ∃ g, gather original_atoms nl rc max_cell_len keys key_arrays atom_ind = inr g.
Proof.
  intros n_atoms Hnd Hsym Harr Hnl Hin Ha.
  destruct (lookup_lt_is_Some_2 (neighbors nl) atom_ind) as [nbrs Hnbrs];
    [lia|].
  assert (Forall (λ io : nat * offset, io.1 < n_atoms) nbrs) as Hlt.
  { eapply Forall_forall in Hin; [exact Hin|]. by eapply list_elem_of_lookup_2. }
  (* the neighbours *)
  assert (∃ ds, Forall2 (λ io d, displacement original_atoms atom_ind io = inr d)
                        nbrs ds) as [ds Hds].
  { apply Forall_exists_Forall2_l. eapply Forall_impl; [exact Hlt|].
    intros io Hio. by apply displacement_succeeds. }
  assert (Forall (λ i, i < n_atoms) (nbrs.*1)) as Hlt1.
  { apply Forall_fmap. eapply Forall_impl; [exact Hlt|]. by intros io. }
  destruct (select_loop_succeeds keys (symbols original_atoms) key_arrays
              (nbrs.*1) [] (empty_lists keys)) as (ns & na & Hsel).
  { by rewrite Hsym. }
  { intros key Hk. by rewrite empty_lists_lookup, decide_True. }
  { intros key (arr & Hk & Hlen)%Harr. exists arr. by rewrite Hlen. }
  pose proof Hsel as (Hns & _ & Hna & _)%select_from_empty.
  (* the cube *)
  set (ic := np_where (map (in_cube max_cell_len) ds)).
  set (cd := filter (λ d, in_cube max_cell_len d = true) ds).
  assert (Forall (λ i, i < length nbrs) ic) as Hic.
  { rewrite (Forall2_length _ _ _ Hds). apply np_where_lt. }
  destruct (select_loop_succeeds keys ns na ic [] (empty_lists keys))
    as (cs & ca & Hc).
  { by rewrite (picks_length _ _ _ Hns), length_fmap. }
  { intros key Hk. by rewrite empty_lists_lookup, decide_True. }
  { intros key Hk. eexists. split; [by apply Hna|].
    rewrite flat_map_replicate_length, (occurrences_NoDup _ _ Hnd Hk).
    by rewrite length_fmap, Nat.mul_1_l. }
  pose proof Hc as (Hcs & _ & Hca & _)%select_from_empty.
  (* the sphere *)
  set (ir := np_where (map (in_rc rc) cd)).
  set (sd := filter (λ d, in_rc rc d = true) cd).
  assert (length cd = length ic) as Hcd.
  { eapply picks_length. by apply picks_where. }
  assert (Forall (λ i, i < length ic) ir) as Hir.
  { rewrite <- Hcd. apply np_where_lt. }
  destruct (select_loop_succeeds keys cs ca ir [] (empty_lists keys))
    as (ss & sa & Hs).
  { by rewrite (picks_length _ _ _ Hcs). }
  { intros key Hk. by rewrite empty_lists_lookup, decide_True. }
  { intros key Hk. eexists. split; [by apply Hca|].
    rewrite flat_map_replicate_length, (occurrences_NoDup _ _ Hnd Hk).
    by rewrite Nat.mul_1_l. }
  exists {| neigh_disp := ds; ind_in_cube := ic; cube_disp := cd;
            cube_symbols := cs; cube_arrays := ca; ind_in_rc := ir;
            sphere_disp := sd; sphere_symbols := ss; sphere_arrays := sa |}.
  apply gather_inr. exists nbrs, ns, na. by repeat split.
Qed.

Lemma key_arrays_of_succeeds original_atoms keys :
  (∀ key, key ∈ keys → is_Some (arrays original_atoms !! key)) →
  ∃ ka, key_arrays_of original_atoms keys = inr ka.
Proof.
  intros Hin. destruct (key_arrays_of_loop original_atoms keys ∅ Hin) as (d & Hd & _).
  by exists d.
Qed.

Lemma extract_one_succeeds METADATA_KEY original_atoms nl rc new_cell
    extract_cube keys cell_norms max_cell_len key_arrays atom_ind :
  let n_atoms := length (positions original_atoms) in
  NoDup keys →
  length (symbols original_atoms) = n_atoms →
  (∀ key, key ∈ keys →
     ∃ arr, key_arrays !! key = Some arr ∧ length arr = n_atoms) →
  (keys ≠ [] → ∃ d, info original_atoms !! METADATA_KEY = Some (PyDict d)) →
  length (neighbors nl) = n_atoms →
  Forall (Forall (λ io : nat * offset, io.1 < n_atoms)) (neighbors nl) →
  atom_ind < n_atoms →
  ∃ out, extract_one METADATA_KEY original_atoms nl rc new_cell extract_cube
           keys cell_norms max_cell_len key_arrays atom_ind = inr out.
Proof.
  intros n_atoms Hnd Hsym Harr Hmd Hnl Hin Ha.
  destruct (gather_succeeds original_atoms nl rc max_cell_len keys key_arrays
              atom_ind Hnd Hsym Harr Hnl Hin Ha) as [g Hg].
  destruct (new_info_succeeds METADATA_KEY (info original_atoms) keys Hmd)
    as [inf Hinf].
  eexists. apply extract_one_inr. exists g, inf.
  split; [done|]. split; [|by split].
  destruct (gather_arrays_length _ _ _ _ _ _ _ _ Hg) as [Hout Hlen].
  intros key arr Hk. destruct (decide (key ∈ keys)) as [Hkey|Hkey].
  - destruct (Hlen key Hkey) as (lc & ls & Hlc & Hnc & Hls & Hns).
    rewrite (occurrences_NoDup _ _ Hnd Hkey), Nat.mul_1_l in Hnc, Hns.
    unfold emitted_disp. destruct extract_cube; congruence.
  - destruct (Hout key Hkey) as [Hc Hs]. destruct extract_cube; congruence.
Qed.

(** C8. A valid request is served: [extract_env] returns a list that has one
    structure for each centre index, the structure at each place being the
    one extracted around the index at the same place; and an integer given
    for [atom_inds] is treated as the one-element list holding it, so that
    the result has one element. *)
Theorem extract_env_one_per_index
    (METADATA_KEY : string) (original_atoms : Atoms) (nl : NeighborList)
    (rc : float) (atom_inds : index_arg) (new_cell : ndarray)
    (extract_cube : bool) (keys_to_transfer : option (list string)) :
  valid_request METADATA_KEY original_atoms nl rc atom_inds new_cell
                keys_to_transfer →
  ∃ outs cell_norms max_cell_len key_arrays,
    extract_env METADATA_KEY original_atoms nl rc atom_inds new_cell
                extract_cube keys_to_transfer = inr outs
    ∧ validate original_atoms rc new_cell = inr (cell_norms, max_cell_len)
    ∧ key_arrays_of original_atoms (default [] keys_to_transfer) = inr key_arrays
    ∧ length outs = length (normalize_inds atom_inds)
    ∧ Forall2 (λ a out,
                 extract_one METADATA_KEY original_atoms nl rc new_cell
                   extract_cube (default [] keys_to_transfer) cell_norms
                   max_cell_len key_arrays a = inr out)
              (normalize_inds atom_inds) outs
    ∧ ∀ i, atom_inds = IdxInt i →
           extract_env METADATA_KEY original_atoms nl rc (IdxList [i]) new_cell
                       extract_cube keys_to_transfer = inr outs
           ∧ ∃ out, outs = [out].
Proof.
  intros ([[cn L] Hv] & Hnd & Hsym & Harr & Hmd & Hnl & Hin & Hinds).
  destruct (key_arrays_of_succeeds original_atoms (default [] keys_to_transfer))
    as [ka Hka].
  { intros key (arr & -> & _)%Harr. by eexists. }
  assert (∃ outs, Forall2 (λ a out,
            extract_one METADATA_KEY original_atoms nl rc new_cell extract_cube
              (default [] keys_to_transfer) cn L ka a = inr out)
            (normalize_inds atom_inds) outs) as [outs Houts].
  { apply Forall_exists_Forall2_l. eapply Forall_impl; [exact Hinds|].
    intros a Ha. apply extract_one_succeeds; try done.
    intros key Hkey. destruct (Harr key Hkey) as (arr & Hsrc & Hlen).
    exists arr. split; [|done].
    by rewrite (key_arrays_of_inr _ _ _ Hka), decide_True. }
  assert (extract_env METADATA_KEY original_atoms nl rc atom_inds new_cell
            extract_cube keys_to_transfer = inr outs) as Henv.
  { apply extract_env_inr. by exists cn, L, ka. }
  exists outs, cn, L, ka. split; [done|]. split; [done|]. split; [done|].
  split; [symmetry; by eapply Forall2_length|]. split; [done|].
  intros i ->. split; [exact Henv|].
  apply Forall2_length in Houts. simpl in Houts.
  destruct outs as [|out [|]]; try done. by exists out.
Qed.

Lemma extract_env_one_per_index_witness :
  ∃ outs,
    extract_env sample_key two_atoms two_atoms_nl 2 (IdxList [0; 1]) cube6
                false (Some ["forces_weights"]) = inr outs
    ∧ length outs = 2.
Proof.
  destruct (extract_env_one_per_index sample_key two_atoms two_atoms_nl 2
              (IdxList [0; 1]) cube6 false (Some ["forces_weights"]))
    as (outs & cn & L & ka & Henv & _ & _ & Hlen & _).
  - split; [eexists; vm_compute; reflexivity|].
    split; [apply (bool_decide_unpack _); vm_compute; exact I|].
    split; [reflexivity|].
    split.
    { intros key Hkey. apply list_elem_of_singleton in Hkey as ->.
      eexists. split; [vm_compute; reflexivity|reflexivity]. }
    split; [intros _; eexists; vm_compute; reflexivity|].
    split; [reflexivity|].
    split; [|repeat constructor].
    repeat constructor.
  - exists outs. split; [exact Henv|exact Hlen].
Defined.

(** ** C9: [find_central_atom] when no atom sits at the centre *)

(** C9. When no atom of the structure has its three coordinates equal to
    [side_size / 2], [find_central_atom] returns [None] (the function is
    total: nothing is raised); and an index it returns is that of an atom
    whose three coordinates equal [side_size / 2]. *)
Theorem find_central_atom_none_or_center (config : Atoms) (side_size : float) :
  ((∀ i p, positions config !! i = Some p →
           at_center (side_size / 2) p = false) →
   find_central_atom config side_size = None)
  ∧ (∀ i, find_central_atom config side_size = Some i →
          ∃ p, positions config !! i = Some p
               ∧ at_center (side_size / 2) p = true).
Proof.
  unfold find_central_atom. split.
  - intros H. apply atom_loop_None, Forall_lookup. intros i p. apply H.
  - intros i (k & p & -> & Hp & Hc & _)%atom_loop_Some. by exists p.
Qed.

Lemma find_central_atom_none_or_center_witness :
  find_central_atom two_atoms_out1 8 = None
  ∧ ∃ p, positions two_atoms_out1 !! 0 = Some p ∧ at_center (6 / 2) p = true.
Proof.
  split.
  - apply (proj1 (find_central_atom_none_or_center two_atoms_out1 8)).
    intros [|[|i]] p H; simpl in H;
      [injection H as <-; reflexivity|injection H as <-; reflexivity
      |discriminate].
  - apply (proj2 (find_central_atom_none_or_center two_atoms_out1 6) 0).
    reflexivity.
Defined.

(** ** C10: the reserved metadata key *)







(** ** The shape of an extracted structure *)

(** X1. Every structure that [extract_env] returns was asked for with a
    3-vector of three equal side lengths; its cell is the diagonal matrix of
    that vector, it is periodic in the three directions, and it carries
    exactly one constraint. *)
Theorem extract_env_output_cell
    (METADATA_KEY : string) (original_atoms : Atoms) (nl : NeighborList)
    (rc : float) (atom_inds : index_arg) (new_cell : ndarray)
    (extract_cube : bool) (keys_to_transfer : option (list string))
    (outs : list Atoms) (j : nat) (out : Atoms) :
  extract_env METADATA_KEY original_atoms nl rc atom_inds new_cell extract_cube
              keys_to_transfer = inr outs →
  outs !! j = Some out →
  ∃ a b c,
    new_cell = Vec3 (a, b, c)
    ∧ all_equal (a, b, c) = true
    ∧ cell out = ((a, 0, 0), (0, b, 0), (0, 0, c))%float
    ∧ pbc out = true
    ∧ length (constraints out) = 1.
Proof.
  intros Henv Hj.
  destruct (extract_env_lookup _ _ _ _ _ _ _ _ _ _ _ Henv Hj)
    as (cn & L & ka & a & Hv & _ & _ & Hone).
  apply validate_inr in Hv as (-> & _ & Heq & _).
  apply extract_one_inr in Hone as (g & inf & _ & _ & _ & ->).
  destruct cn as [[x y] z]. by exists x, y, z.
Qed.

Lemma extract_env_output_cell_witness :
  ∃ a b c, cube6 = Vec3 (a, b, c)
           ∧ cell two_atoms_out0 = ((a, 0, 0), (0, b, 0), (0, 0, c))%float.
Proof.
  destruct (extract_env_output_cell sample_key two_atoms two_atoms_nl 2
              (IdxList [0]) cube6 false (Some ["forces_weights"])
              [two_atoms_out0] 0 two_atoms_out0)
    as (a & b & c & Hc & _ & Hcell & _);
    [vm_compute; reflexivity|reflexivity|].
  exists a, b, c. split; [exact Hc|exact Hcell].
Defined.

(** The symbols copied by the three loops are those of the atoms behind the
    selected neighbour entries. *)
Lemma gather_symbols original_atoms nl rc max_cell_len keys key_arrays atom_ind g :
  gather original_atoms nl rc max_cell_len keys key_arrays atom_ind = inr g →
  let sym (io : nat * offset) s := symbols original_atoms !! io.1 = Some s in
  Forall2 sym (cube_rows original_atoms nl max_cell_len atom_ind) (cube_symbols g)
  ∧ Forall2 sym (sphere_rows original_atoms nl rc max_cell_len atom_ind)
            (sphere_symbols g).
Proof.
  intros Hg sym. pose proof Hg as (_ & _ & Hp1 & Hp2 & _)%gather_rows.
  apply gather_inr in Hg
    as (nbrs & ns & na & Hn & _ & Hsel & _ & _ & Hc & _ & _ & Hs).
  rewrite Hn in Hp1. cbn [default from_option id] in Hp1.
  apply select_from_empty in Hsel as (Hns & _).
  apply select_from_empty in Hc as (Hcs & _).
  apply select_from_empty in Hs as (Hss & _).
  assert (Forall2 sym nbrs ns) as H0.
  { unfold picks in Hns. by apply Forall2_fmap_l in Hns. }
  assert (Forall2 sym (cube_rows original_atoms nl max_cell_len atom_ind)
                      (cube_symbols g)) as H1.
  { eapply picks_Forall2; [exact H0|exact Hp1|exact Hcs]. }
  split; [done|]. eapply picks_Forall2; [exact H1|exact Hp2|exact Hss].
Qed.

(** X2. In every structure that [extract_env] returns, the chemical symbols
    are those of the source atoms behind the emitted neighbour images, in
    the order of the positions; there are as many symbols as positions. *)
Theorem extract_env_symbols_aligned
    (METADATA_KEY : string) (original_atoms : Atoms) (nl : NeighborList)
    (rc : float) (atom_inds : index_arg) (new_cell : ndarray)
    (extract_cube : bool) (keys_to_transfer : option (list string))
    (outs : list Atoms) (j : nat) (out : Atoms) :
  extract_env METADATA_KEY original_atoms nl rc atom_inds new_cell extract_cube
              keys_to_transfer = inr outs →
  outs !! j = Some out →
  ∃ atom_ind,
    normalize_inds atom_inds !! j = Some atom_ind
    ∧ Forall2 (λ io s, symbols original_atoms !! io.1 = Some s)
        (emitted_rows original_atoms nl rc (np_max (side_lengths new_cell))
                      extract_cube atom_ind)
        (symbols out)
    ∧ length (symbols out) = length (positions out).
Proof.
  intros Henv Hj.
  destruct (extract_env_lookup _ _ _ _ _ _ _ _ _ _ _ Henv Hj)
    as (cn & L & ka & a & Hv & _ & Ha & Hone).
  apply validate_inr in Hv as (-> & -> & _). cbn [side_lengths].
  pose proof Hone as (g & Hg & Hpos & Hrows & _)%extract_one_positions.
  apply extract_one_inr in Hone as (g' & inf & Hg' & _ & _ & Hout).
  assert (g' = g) as -> by congruence. clear Hg'.
  destruct (gather_symbols _ _ _ _ _ _ _ _ Hg) as [Hc Hs].
  assert (Forall2 (λ io s, symbols original_atoms !! io.1 = Some s)
            (emitted_rows original_atoms nl rc (np_max cn) extract_cube a)
            (symbols out)) as Hsym.
  { subst out. unfold emitted_rows. cbn [symbols]. by destruct extract_cube. }
  exists a. split; [done|]. split; [done|].
  rewrite <- (Forall2_length _ _ _ Hsym), Hpos, length_map.
  by apply Forall2_length in Hrows.
Qed.

Lemma extract_env_symbols_aligned_witness :
  Forall2 (λ io s, symbols two_atoms !! io.1 = Some s)
          (emitted_rows two_atoms two_atoms_nl 2 6 false 1)
          (symbols two_atoms_out1).
Proof.
  destruct (extract_env_symbols_aligned sample_key two_atoms two_atoms_nl 2
              (IdxList [0; 1]) cube6 false (Some ["forces_weights"])
              [two_atoms_out0; two_atoms_out1] 1 two_atoms_out1)
    as (a & Ha & Hsym & _);
    [vm_compute; reflexivity|reflexivity|].
  injection Ha as <-. exact Hsym.
Defined.

(** ** The sphere inside the cube *)

Lemma picks_fmap {A B} (f : A → B) (l : list A) idx xs :
  picks l idx xs → picks (f <$> l) idx (f <$> xs).
Proof.
  unfold picks. intros H. apply Forall2_fmap_r.
  eapply Forall2_impl; [exact H|]. intros i x Hx.
  by rewrite list_lookup_fmap, Hx.
Qed.

(** A key listed [c] times gives lists [c] times as long as the structure;
    ASE accepts them only when [c = 1] or the structure is empty. *)
Lemma attached_once (c n m : nat) : c * n = n → (m ≤ n)%nat → c * m = m.
Proof. nia. Qed.

Lemma extract_one_sphere_within_cube METADATA_KEY original_atoms nl rc new_cell
    keys cell_norms max_cell_len key_arrays atom_ind c :
  extract_one METADATA_KEY original_atoms nl rc new_cell true keys cell_norms
              max_cell_len key_arrays atom_ind = inr c →
  ∃ s, extract_one METADATA_KEY original_atoms nl rc new_cell false keys
         cell_norms max_cell_len key_arrays atom_ind = inr s
       ∧ fixed_part c s.
Proof.
  intros (g & inf & Hg & Hall & Hinf & ->)%extract_one_inr.
  cbn [emitted_disp] in Hall.
  destruct (gather_arrays_length _ _ _ _ _ _ _ _ Hg) as [Hout Hlen].
  pose proof Hg as (_ & _ & _ & _ & _ & Hsd & Hir)%gather_rows.
  pose proof Hg as (_ & _ & _ & _ & _ & _ & _ & _ & _ & _ & _ & Hs)%gather_inr.
  apply select_from_empty in Hs as (Hss & _ & Hsa & Hsrc).
  assert (picks (cube_disp g) (ind_in_rc g) (sphere_disp g)) as Hpd.
  { rewrite Hir, Hsd. by apply picks_where. }
  assert (length (sphere_disp g) ≤ length (cube_disp g))%nat as Hle.
  { rewrite Hsd. apply length_filter. }
  assert (∀ key, key ∈ keys → length (sphere_disp g) ≠ 0 →
                 occurrences key keys = 1) as Hocc.
  { intros key Hk Hne. destruct (Hlen key Hk) as (lc & ls & Hlc & Hnc & _).
    rewrite (Hall key lc Hlc) in Hnc. nia. }
  eexists. split.
  - apply extract_one_inr. exists g, inf. split; [done|].
    split; [|split; [done|reflexivity]].
    cbn [emitted_disp]. intros key arr Harr.
    destruct (decide (key ∈ keys)) as [Hk|Hk];
      [|by rewrite (proj2 (Hout key Hk)) in Harr].
    destruct (Hlen key Hk) as (lc & ls & Hlc & Hnc & Hls & Hns).
    assert (arr = ls) as -> by congruence. rewrite Hns.
    apply (attached_once _ (length (cube_disp g))); [|done].
    rewrite <- Hnc. by apply (Hall key).
  - exists (ind_in_rc g). cbn [constraints positions symbols arrays info cell].
    split; [done|]. split; [by apply picks_fmap|]. split; [done|].
    split; [|done]. intros key arr_c Harr.
    destruct (decide (key ∈ keys)) as [Hk|Hk];
      [|by rewrite (proj1 (Hout key Hk)) in Harr].
    eexists. split; [by apply Hsa|].
    destruct (ind_in_rc g) as [|i0 idx] eqn:Hidx; [constructor|].
    rewrite <- Hidx in *.
    rewrite Hocc, flat_map_replicate_1; [|done|].
    + unfold picks. apply Forall2_fmap_r, Forall_Forall2_diag, Forall_forall.
      intros i Hi. destruct (Hsrc i key Hi Hk) as (a & v & Ha & Hv).
      assert (a = arr_c) as -> by congruence.
      unfold cell_val. rewrite Ha. simpl. by rewrite Hv.
    + rewrite (picks_length _ _ _ Hpd), Hidx. done.
Qed.

(** X3. When [extract_env] returns with [extract_cube = true], the same
    request with [extract_cube = false] returns too, and each of its
    structures is the fixed part of the cube at the same place: the atoms
    that the constraint of the cube lists, in the same order, with their
    symbols and auxiliary values, in the same cell and with the same
    metadata. *)
Theorem extract_env_sphere_within_cube
    (METADATA_KEY : string) (original_atoms : Atoms) (nl : NeighborList)
    (rc : float) (atom_inds : index_arg) (new_cell : ndarray)
    (keys_to_transfer : option (list string)) (outs_cube : list Atoms) :
  extract_env METADATA_KEY original_atoms nl rc atom_inds new_cell true
              keys_to_transfer = inr outs_cube →
  ∃ outs_sphere,
    extract_env METADATA_KEY original_atoms nl rc atom_inds new_cell false
                keys_to_transfer = inr outs_sphere
    ∧ Forall2 fixed_part outs_cube outs_sphere.
Proof.
  intros (cn & L & ka & Hv & Hka & Hf)%extract_env_inr.
  assert (∃ outs_sphere,
            Forall2 (λ a out,
                       extract_one METADATA_KEY original_atoms nl rc new_cell
                         false (default [] keys_to_transfer) cn L ka a = inr out)
                    (normalize_inds atom_inds) outs_sphere
            ∧ Forall2 fixed_part outs_cube outs_sphere) as (outs & Hs & Hfp).
  { induction Hf as [|a c inds outs Hc _ (outs' & Hs & Hfp)].
    - exists []. split; constructor.
    - apply extract_one_sphere_within_cube in Hc as (s & Hs1 & Hfp1).
      exists (s :: outs'). split; by constructor. }
  exists outs. split; [|done]. apply extract_env_inr. by exists cn, L, ka.
Qed.

Lemma extract_env_sphere_within_cube_witness :
  ∃ outs_sphere,
    extract_env sample_key two_atoms two_atoms_nl 2 (IdxList [0]) cube6 false
                (Some ["forces_weights"]) = inr outs_sphere
    ∧ Forall2 fixed_part [two_atoms_out0] outs_sphere.
Proof.
  apply (extract_env_sphere_within_cube sample_key two_atoms two_atoms_nl 2
           (IdxList [0]) cube6 (Some ["forces_weights"]) [two_atoms_out0]).
  vm_compute. reflexivity.
Defined.

(** ** The constraint *)

Lemma np_where_from_sorted k mask :
  StronglySorted lt (np_where_from k mask)
  ∧ Forall (λ i, (k ≤ i)%nat) (np_where_from k mask).
Proof.
  revert k. induction mask as [|b mask IH]; intros k; simpl.
  - split; constructor.
  - destruct (IH (S k)) as [Hs Hf].
    assert (Forall (λ i, (k ≤ i)%nat) (np_where_from (S k) mask)) as Hf'.
    { eapply Forall_impl; [exact Hf|]. intros; simpl in *; lia. }
    destruct b; [|done]. split; [|by constructor].
    constructor; [done|]. eapply Forall_impl; [exact Hf|]. intros; simpl in *; lia.
Qed.

Lemma seq_sorted k n : StronglySorted lt (seq k n).
Proof.
  revert k. induction n as [|n IH]; intros k; simpl; constructor; [done|].
  apply Forall_forall. intros i Hi%elem_of_seq. lia.
Qed.

(** X4. The constraint of every structure that [extract_env] returns lists
    indices of atoms of that structure, in increasing order and none
    twice. *)
Theorem extract_env_fixed_indices
    (METADATA_KEY : string) (original_atoms : Atoms) (nl : NeighborList)
    (rc : float) (atom_inds : index_arg) (new_cell : ndarray)
    (extract_cube : bool) (keys_to_transfer : option (list string))
    (outs : list Atoms) (j : nat) (out : Atoms) :
  extract_env METADATA_KEY original_atoms nl rc atom_inds new_cell extract_cube
              keys_to_transfer = inr outs →
  outs !! j = Some out →
  ∃ idx, constraints out = [ {| index := idx |} ]
         ∧ StronglySorted lt idx
         ∧ Forall (λ i, i < length (positions out)) idx.
Proof.
  intros Henv Hj.
  destruct (extract_env_lookup _ _ _ _ _ _ _ _ _ _ _ Henv Hj)
    as (cn & L & ka & a & _ & _ & _ & Hone).
  apply extract_one_inr in Hone as (g & inf & Hg & _ & _ & ->).
  apply gather_rows in Hg as (_ & _ & _ & _ & _ & _ & Hir).
  eexists. split; [reflexivity|]. cbn [positions]. rewrite length_map.
  destruct extract_cube; cbn [emitted_fix emitted_disp].
  - rewrite Hir. split; [apply np_where_from_sorted|apply np_where_lt].
  - split; [apply seq_sorted|]. apply Forall_forall. intros i Hi%elem_of_seq. lia.
Qed.

Lemma extract_env_fixed_indices_witness :
  ∃ idx, constraints two_atoms_out0 = [ {| index := idx |} ]
         ∧ StronglySorted lt idx
         ∧ Forall (λ i, i < length (positions two_atoms_out0)) idx.
Proof.
  apply (extract_env_fixed_indices sample_key two_atoms two_atoms_nl 2
           (IdxList [0]) cube6 false (Some ["forces_weights"])
           [two_atoms_out0] 0 two_atoms_out0);
    [vm_compute; reflexivity|reflexivity].
Defined.

(** ** The auxiliary arrays of an extracted structure *)

(** X5. A structure that [extract_env] returns holds an auxiliary array for
    a key exactly when the key was requested, and each of its arrays has one
    entry for each of its atoms. *)
Theorem extract_env_array_keys
    (METADATA_KEY : string) (original_atoms : Atoms) (nl : NeighborList)
    (rc : float) (atom_inds : index_arg) (new_cell : ndarray)
    (extract_cube : bool) (keys_to_transfer : option (list string))
    (outs : list Atoms) (j : nat) (out : Atoms) (key : string) :
  extract_env METADATA_KEY original_atoms nl rc atom_inds new_cell extract_cube
              keys_to_transfer = inr outs →
  outs !! j = Some out →
  (is_Some (arrays out !! key) ↔ key ∈ default [] keys_to_transfer)
  ∧ (∀ arr, arrays out !! key = Some arr →
            length arr = length (positions out)).
Proof.
  intros Henv Hj.
  destruct (extract_env_lookup _ _ _ _ _ _ _ _ _ _ _ Henv Hj)
    as (cn & L & ka & a & _ & _ & _ & Hone).
  apply extract_one_inr in Hone as (g & inf & Hg & Hall & _ & ->).
  destruct (gather_arrays_length _ _ _ _ _ _ _ _ Hg) as [Hout Hlen].
  cbn [arrays positions]. rewrite length_map. split; [|by apply Hall].
  split.
  - intros [arr Harr].
    destruct (decide (key ∈ default [] keys_to_transfer)) as [|Hk]; [done|].
    destruct (Hout key Hk) as [Hc Hs]. destruct extract_cube; congruence.
  - intros Hk. destruct (Hlen key Hk) as (lc & ls & Hlc & _ & Hls & _).
    destruct extract_cube; by eexists.
Qed.

Lemma extract_env_array_keys_witness :
  (is_Some (arrays two_atoms_out0 !! "forces_weights")
   ↔ "forces_weights" ∈ ["forces_weights"])
  ∧ (∀ arr, arrays two_atoms_out0 !! "forces_weights" = Some arr →
            length arr = length (positions two_atoms_out0)).
Proof.
  apply (extract_env_array_keys sample_key two_atoms two_atoms_nl 2
           (IdxList [0]) cube6 false (Some ["forces_weights"])
           [two_atoms_out0] 0 two_atoms_out0 "forces_weights");
    [vm_compute; reflexivity|reflexivity].
Defined.

(** ** Loops over a list in two parts *)

Lemma for_each_app {A S} (body : S → A → result S) xs ys s :
  for_each body (xs ++ ys) s = for_each body xs s ≫= for_each body ys.
Proof.
  revert s. induction xs as [|x xs IH]; intros s; cbn [for_each app]; [done|].
  destruct (body s x) as [e|s']; cbn [mbind result_bind]; [done|apply IH].
Qed.

(** ** Requests that name a missing array or a missing atom *)



(** X7. A centre index beyond the neighbour table ends the call with
    [IndexError], also when the structures of the indices before it were
    extracted: no partial list is returned. *)
Theorem extract_env_center_out_of_range
    (METADATA_KEY : string) (original_atoms : Atoms) (nl : NeighborList)
    (rc : float) (new_cell : ndarray) (extract_cube : bool)
    (keys_to_transfer : option (list string))
    (pre : list nat) (a : nat) (post : list nat) (outs_pre : list Atoms) :
  extract_env METADATA_KEY original_atoms nl rc (IdxList pre) new_cell
              extract_cube keys_to_transfer = inr outs_pre →
  (length (neighbors nl) ≤ a)%nat →
  extract_env METADATA_KEY original_atoms nl rc (IdxList (pre ++ a :: post))
              new_cell extract_cube keys_to_transfer
  = raise IndexError.
Proof.
  intros (cn & L & ka & Hv & Hka & Hf)%extract_env_inr Ha.
  unfold extract_env. rewrite Hv. cbn [mbind result_bind]. rewrite Hka.
  cbn [mbind result_bind normalize_inds]. rewrite for_each_app.
  cbn [normalize_inds] in Hf.
  assert (for_each
            (λ subcells atom_ind,
               new_atoms ← extract_one METADATA_KEY original_atoms nl rc new_cell
                             extract_cube (default [] keys_to_transfer) cn L ka
                             atom_ind;
               inr (subcells ++ [new_atoms])) pre [] = inr ([] ++ outs_pre)) as ->.
  { apply collect_loop. by exists outs_pre. }
  cbn [mbind result_bind for_each].
  assert (extract_one METADATA_KEY original_atoms nl rc new_cell extract_cube
            (default [] keys_to_transfer) cn L ka a = raise IndexError) as ->.
  { unfold extract_one, gather, get_neighbors, getitem.
    by rewrite lookup_ge_None_2. }
  done.
Qed.

Lemma extract_env_center_out_of_range_witness :
  extract_env sample_key two_atoms two_atoms_nl 2 (IdxList ([0] ++ 2 :: [1]))
              cube6 false (Some ["forces_weights"])
  = raise IndexError.
Proof.
  apply (extract_env_center_out_of_range sample_key two_atoms two_atoms_nl 2
           cube6 false (Some ["forces_weights"]) [0] 2 [1] [two_atoms_out0]).
  - vm_compute. reflexivity.
  - simpl. lia.
Defined.

(** ** The list of centre indices *)


(** X9. The structures are extracted one index after the other and
    independently: the call on the concatenation of two index lists returns
    exactly when the calls on the two lists return, and its result is the
    concatenation of theirs. *)
Theorem extract_env_app
    (METADATA_KEY : string) (original_atoms : Atoms) (nl : NeighborList)
    (rc : float) (new_cell : ndarray) (extract_cube : bool)
    (keys_to_transfer : option (list string))
    (inds1 inds2 : list nat) (outs : list Atoms) :
  extract_env METADATA_KEY original_atoms nl rc (IdxList (inds1 ++ inds2))
              new_cell extract_cube keys_to_transfer = inr outs
  ↔ ∃ outs1 outs2,
      outs = outs1 ++ outs2
      ∧ extract_env METADATA_KEY original_atoms nl rc (IdxList inds1) new_cell
                    extract_cube keys_to_transfer = inr outs1
      ∧ extract_env METADATA_KEY original_atoms nl rc (IdxList inds2) new_cell
                    extract_cube keys_to_transfer = inr outs2.
Proof.
  rewrite extract_env_inr. cbn [normalize_inds]. split.
  - intros (cn & L & ka & Hv & Hka & Hf).
    apply Forall2_app_inv_l in Hf as (o1 & o2 & H1 & H2 & ->).
    exists o1, o2. split; [done|].
    split; apply extract_env_inr; by exists cn, L, ka.
  - intros (o1 & o2 & -> & (cn & L & ka & Hv & Hka & H1)%extract_env_inr
            & (cn' & L' & ka' & Hv' & Hka' & H2)%extract_env_inr).
    assert (cn' = cn ∧ L' = L ∧ ka' = ka) as (-> & -> & ->)
      by (split; [|split]; congruence).
    exists cn, L, ka. split; [done|]. split; [done|]. by apply Forall2_app.
Qed.

(** ** A key listed twice *)

Lemma occurrences_elem key keys : key ∈ keys → (1 ≤ occurrences key keys)%nat.
Proof.
  induction keys as [|k keys IH]; [by intros ?%elem_of_nil|].
  destruct (decide (k = key)) as [->|Hne].
  - intros _. rewrite occurrences_cons_eq. lia.
  - rewrite occurrences_cons_ne by done. intros [->|?]%elem_of_cons; [done|auto].
Qed.

Lemma NoDup_occurrences keys :
  (∀ key, key ∈ keys → occurrences key keys = 1) → NoDup keys.
Proof.
  induction keys as [|k keys IH]; intros H; constructor.
  - intros Hin%occurrences_elem.
    specialize (H k (list_elem_of_here _ _)). rewrite occurrences_cons_eq in H. lia.
  - apply IH. intros key Hin. specialize (H key (list_elem_of_further _ _ _ Hin)).
    destruct (decide (k = key)) as [->|Hne].
    + rewrite occurrences_cons_eq in H. apply occurrences_elem in Hin. lia.
    + by rewrite occurrences_cons_ne in H.
Qed.

(** X10. A call that returns a structure of at least one atom had no key
    listed twice: a key listed twice gives lists twice as long as the
    structure, which ASE refuses to attach. *)
Theorem extract_env_distinct_keys
    (METADATA_KEY : string) (original_atoms : Atoms) (nl : NeighborList)
    (rc : float) (atom_inds : index_arg) (new_cell : ndarray)
    (extract_cube : bool) (keys_to_transfer : option (list string))
    (outs : list Atoms) (j : nat) (out : Atoms) :
  extract_env METADATA_KEY original_atoms nl rc atom_inds new_cell extract_cube
              keys_to_transfer = inr outs →
  outs !! j = Some out →
  positions out ≠ [] →
  NoDup (default [] keys_to_transfer).
Proof.
  intros Henv Hj Hne.
  destruct (extract_env_lookup _ _ _ _ _ _ _ _ _ _ _ Henv Hj)
    as (cn & L & ka & a & _ & _ & _ & Hone).
  apply extract_one_inr in Hone as (g & inf & Hg & Hall & _ & ->).
  cbn [positions] in Hne.
  assert (length (emitted_disp extract_cube g) ≠ 0) as Hlen.
  { destruct (emitted_disp extract_cube g); [done|simpl; lia]. }
  destruct (gather_arrays_length _ _ _ _ _ _ _ _ Hg) as [_ Hkeys].
  apply NoDup_occurrences. intros key Hk.
  destruct (Hkeys key Hk) as (lc & ls & Hlc & Hnc & Hls & Hns).
  unfold emitted_disp in *. destruct extract_cube.
  - rewrite (Hall key lc Hlc) in Hnc. nia.
  - rewrite (Hall key ls Hls) in Hns. nia.
Qed.

Lemma extract_env_distinct_keys_witness : NoDup ["forces_weights"].
Proof.
  apply (extract_env_distinct_keys sample_key two_atoms two_atoms_nl 2
           (IdxList [0]) cube6 false (Some ["forces_weights"])
           [two_atoms_out0] 0 two_atoms_out0);
    [vm_compute; reflexivity|reflexivity|discriminate].
Defined.

(** ** Metadata at the edges *)

(** X11. With no key to transfer ([None] or the empty list), an extracted
    structure has no auxiliary array, and its [info] holds the empty nested
    dictionary under the reserved key and nothing else: nothing of the
    source's [info] is copied. *)
Theorem extract_env_no_keys
    (METADATA_KEY : string) (original_atoms : Atoms) (nl : NeighborList)
    (rc : float) (atom_inds : index_arg) (new_cell : ndarray)
    (extract_cube : bool) (keys_to_transfer : option (list string))
    (outs : list Atoms) (j : nat) (out : Atoms) :
  default [] keys_to_transfer = [] →
  extract_env METADATA_KEY original_atoms nl rc atom_inds new_cell extract_cube
              keys_to_transfer = inr outs →
  outs !! j = Some out →
  arrays out = ∅ ∧ info out = {[ METADATA_KEY := PyDict ∅ ]}.
Proof.
  intros Hkeys Henv Hj.
  destruct (extract_env_lookup _ _ _ _ _ _ _ _ _ _ _ Henv Hj)
    as (cn & L & ka & a & _ & _ & _ & Hone).
  rewrite Hkeys in Hone.
  apply extract_one_inr in Hone as (g & inf & Hg & _ & Hinf & ->).
  destruct (gather_arrays_length _ _ _ _ _ _ _ _ Hg) as [Hout _].
  cbn [arrays info]. split.
  - apply map_eq. intros key. rewrite lookup_empty.
    destruct (Hout key (not_elem_of_nil _)) as [Hc Hs].
    by destruct extract_cube.
  - unfold new_info in Hinf. cbn in Hinf. by injection Hinf as <-.
Qed.

Lemma extract_env_no_keys_witness :
  arrays one_atom_out = ∅ ∧ info one_atom_out = {[ sample_key := PyDict ∅ ]}.
Proof.
  apply (extract_env_no_keys sample_key one_atom one_atom_nl 2 (IdxList [0])
           cube6 false None [one_atom_out] 0 one_atom_out);
    [reflexivity|vm_compute; reflexivity|reflexivity].
Defined.

(** X12. A requested key whose only underscore is its first character has
    the empty base name, which every string contains: every top-level entry
    of the source's [info], the reserved key apart, is then found unchanged
    in the extracted structure, and nothing else is. *)
Theorem extract_env_empty_base_name
    (METADATA_KEY : string) (original_atoms : Atoms) (nl : NeighborList)
    (rc : float) (atom_inds : index_arg) (new_cell : ndarray)
    (extract_cube : bool) (keys_to_transfer : option (list string))
    (outs : list Atoms) (j : nat) (out : Atoms) (key : string) :
  extract_env METADATA_KEY original_atoms nl rc atom_inds new_cell extract_cube
              keys_to_transfer = inr outs →
  outs !! j = Some out →
  key ∈ default [] keys_to_transfer →
  rsplit1_head key = "" →
  ∀ k, k ≠ METADATA_KEY → info out !! k = info original_atoms !! k.
Proof.
  intros Henv Hj Hkey Hbase k Hk.
  destruct (extract_env_lookup _ _ _ _ _ _ _ _ _ _ _ Henv Hj)
    as (cn & L & ka & a & _ & _ & _ & Hone).
  apply extract_one_inr in Hone as (g & inf & _ & _ & Hinf & ->).
  apply new_info_inr in Hinf as (_ & Htop & _). cbn [info].
  apply option_eq. intros v. rewrite (Htop k v Hk). split; [by intros [? _]|].
  intros Hv. split; [done|]. exists key. split; [done|].
  rewrite Hbase. by destruct k.
Qed.

Lemma extract_env_empty_base_name_witness :
  ∃ out,
    extract_env sample_key underscore_atoms two_atoms_nl 2 (IdxList [0]) cube6
                false (Some ["_w"]) = inr [out]
    ∧ info out !! "name" = Some (PyStr "x").
Proof.
  eexists. split; [vm_compute; reflexivity|].
  etransitivity; [|reflexivity].
  eapply (extract_env_empty_base_name sample_key underscore_atoms two_atoms_nl
            2 (IdxList [0]) cube6 false (Some ["_w"]) _ 0 _ "_w");
    [vm_compute; reflexivity|reflexivity|by left|reflexivity|discriminate].
Defined.

(** ** What an exception tells about the request *)

(** A loop whose state keeps an invariant. *)
Lemma raises_only_for_each_inv (P : exn → Prop) {A S} (I : S → Prop)
    (body : S → A → result S) xs s :
  I s →
  (∀ s x, I s → x ∈ xs → raises_only P (body s x)) →
  (∀ s x s', I s → x ∈ xs → body s x = inr s' → I s') →
  raises_only P (for_each body xs s).
Proof.
  revert s. induction xs as [|x xs IH]; intros s Hs Hbody Hkeep; simpl; [done|].
  apply raises_only_bind; [apply Hbody; [done|by left]|]. intros s' Hs'.
  apply IH.
  - eapply Hkeep; [exact Hs|by left|exact Hs'].
  - intros s0 y ? ?. apply Hbody; [done|by right].
  - intros s0 y s1 ? ?. apply Hkeep; [done|by right].
Qed.

Lemma append_row_index_error keys (src : gmap string (list entry)) i
    (tgt : gmap string (list entry)) :
  (∀ key, key ∈ keys → is_Some (src !! key)) →
  (∀ key, key ∈ keys → is_Some (tgt !! key)) →
  raises_only index_error (append_row keys src i tgt).
Proof.
  revert tgt. induction keys as [|k keys IH]; intros tgt Hsrc Htgt; simpl; [done|].
  destruct (Htgt k) as [l Hl]; [by left|].
  destruct (Hsrc k) as [a Ha]; [by left|].
  unfold dict_get. rewrite Hl, Ha. cbn [mbind result_bind].
  apply raises_only_bind; [by apply raises_only_getitem|]. intros v _.
  apply IH; [intros; apply Hsrc; by right|]. intros key Hk.
  destruct (decide (k = key)) as [->|Hne].
  - by rewrite lookup_insert_eq.
  - rewrite lookup_insert_ne by done. apply Htgt. by right.
Qed.

Lemma append_row_keeps keys (src : gmap string (list entry)) i
    (tgt tgt' : gmap string (list entry)) key :
  append_row keys src i tgt = inr tgt' → is_Some (tgt !! key) →
  is_Some (tgt' !! key).
Proof.
  intros [Hlook _]%append_row_inr [l Hl]. rewrite Hlook, Hl. by eexists.
Qed.

Lemma select_loop_index_error keys src_symbols
    (src_arrays : gmap string (list entry)) idx :
  (∀ key, key ∈ keys → is_Some (src_arrays !! key)) →
  raises_only index_error
    (for_each (select_body keys src_symbols src_arrays) idx
              ([], empty_lists keys)).
Proof.
  intros Hsrc.
  apply (raises_only_for_each_inv _
           (λ st, ∀ key, key ∈ keys → is_Some (st.2 !! key))).
  - intros key Hk. cbn [snd]. by rewrite empty_lists_lookup, decide_True.
  - intros [syms arrs] i Hst _. unfold select_body.
    apply raises_only_bind; [by apply raises_only_getitem|]. intros s _.
    apply raises_only_bind; [by apply append_row_index_error|]. by intros.
  - intros [syms arrs] i [syms' arrs'] Hst _ Hbody key Hk. cbn [snd] in *.
    unfold select_body in Hbody. apply bind_inr in Hbody as (s & _ & Hbody).
    apply bind_inr in Hbody as (t & Happ & [= _ <-]).
    eapply append_row_keeps; [exact Happ|by apply Hst].
Qed.

Lemma neigh_loop_index_error original_atoms atom_ind keys
    (key_arrays : gmap string (list entry)) nbrs :
  (∀ key, key ∈ keys → is_Some (key_arrays !! key)) →
  raises_only index_error
    (for_each (neigh_body original_atoms atom_ind keys key_arrays) nbrs
              ([], [], empty_lists keys)).
Proof.
  intros Hsrc.
  apply (raises_only_for_each_inv _
           (λ st, ∀ key, key ∈ keys → is_Some (st.2 !! key))).
  - intros key Hk. cbn [snd]. by rewrite empty_lists_lookup, decide_True.
  - intros [[ds syms] arrs] io Hst _. unfold neigh_body, displacement.
    apply raises_only_bind.
    { apply raises_only_bind; [by apply raises_only_getitem|]. intros p _.
      apply raises_only_bind; [by apply raises_only_getitem|]. by intros. }
    intros d _.
    apply raises_only_bind; [by apply raises_only_getitem|]. intros s _.
    apply raises_only_bind; [by apply append_row_index_error|]. by intros.
  - intros [[ds syms] arrs] io [[ds' syms'] arrs'] Hst _ Hbody key Hk.
    cbn [snd] in *. unfold neigh_body in Hbody.
    apply bind_inr in Hbody as (d & _ & Hbody).
    apply bind_inr in Hbody as (s & _ & Hbody).
    apply bind_inr in Hbody as (t & Happ & [= _ _ <-]).
    eapply append_row_keeps; [exact Happ|by apply Hst].
Qed.

(** With the requested arrays at hand, gathering the rows can only fail on an
    index. *)
Lemma gather_index_error original_atoms nl rc max_cell_len keys
    (key_arrays : gmap string (list entry)) atom_ind :
  (∀ key, key ∈ keys → is_Some (key_arrays !! key)) →
  raises_only index_error
    (gather original_atoms nl rc max_cell_len keys key_arrays atom_ind).
Proof.
  intros Hsrc. unfold gather, get_neighbors.
  apply raises_only_bind; [by apply raises_only_getitem|]. intros nbrs _.
  apply raises_only_bind; [by apply neigh_loop_index_error|].
  intros [[nd ns] na] Hn.
  apply neigh_loop_inr in Hn as (ds & ns' & na' & _ & Hsel & [= -> <- <-]).
  apply select_from_empty in Hsel as (_ & _ & Hna & _).
  apply raises_only_bind; [by apply raises_only_take_rows|]. intros cd _.
  apply raises_only_bind.
  { apply select_loop_index_error. intros key Hk. rewrite (Hna key Hk). by eexists. }
  intros [cs ca] Hc. apply select_from_empty in Hc as (_ & _ & Hca & _).
  apply raises_only_bind; [by apply raises_only_take_rows|]. intros sd _.
  apply raises_only_bind.
  { apply select_loop_index_error. intros key Hk. rewrite (Hca key Hk). by eexists. }
  by intros [ss sa] _.
Qed.

(** With every index in range, the rows are gathered. *)
Lemma gather_well_indexed original_atoms nl rc max_cell_len keys
    (key_arrays : gmap string (list entry)) atom_ind :
  let n_atoms := length (positions original_atoms) in
  length (symbols original_atoms) = n_atoms →
  (∀ key, key ∈ keys →
     ∃ arr, key_arrays !! key = Some arr ∧ length arr = n_atoms) →
  length (neighbors nl) = n_atoms →
  Forall (Forall (λ io : nat * offset, io.1 < n_atoms)) (neighbors nl) →
  atom_ind < n_atoms →
  ∃ g, gather original_atoms nl rc max_cell_len keys key_arrays atom_ind = inr g.
Proof.
  intros n_atoms Hsym Harr Hnl Hin Ha.
  destruct (lookup_lt_is_Some_2 (neighbors nl) atom_ind) as [nbrs Hnbrs];
    [lia|].
  assert (Forall (λ io : nat * offset, io.1 < n_atoms) nbrs) as Hlt.
  { eapply Forall_forall in Hin; [exact Hin|]. by eapply list_elem_of_lookup_2. }
  assert (∃ ds, Forall2 (λ io d, displacement original_atoms atom_ind io = inr d)
                        nbrs ds) as [ds Hds].
  { apply Forall_exists_Forall2_l. eapply Forall_impl; [exact Hlt|].
    intros io Hio. by apply displacement_succeeds. }
  assert (Forall (λ i, i < n_atoms) (nbrs.*1)) as Hlt1.
  { apply Forall_fmap. eapply Forall_impl; [exact Hlt|]. by intros io. }
  assert (∀ (c n : nat) idx, (1 ≤ c)%nat → Forall (λ i, i < n) idx →
                             Forall (λ i, i < c * n) idx) as Hmul.
  { intros c n idx Hc Hidx. eapply Forall_impl; [exact Hidx|].
    intros i Hi. simpl in *. nia. }
  destruct (select_loop_succeeds keys (symbols original_atoms) key_arrays
              (nbrs.*1) [] (empty_lists keys)) as (ns & na & Hsel).
  { by rewrite Hsym. }
  { intros key Hk. by rewrite empty_lists_lookup, decide_True. }
  { intros key (arr & Hk & Hlen)%Harr. exists arr. by rewrite Hlen. }
  pose proof Hsel as (Hns & _ & Hna & _)%select_from_empty.
  set (ic := np_where (map (in_cube max_cell_len) ds)).
  set (cd := filter (λ d, in_cube max_cell_len d = true) ds).
  assert (Forall (λ i, i < length nbrs) ic) as Hic.
  { rewrite (Forall2_length _ _ _ Hds). apply np_where_lt. }
  destruct (select_loop_succeeds keys ns na ic [] (empty_lists keys))
    as (cs & ca & Hc).
  { by rewrite (picks_length _ _ _ Hns), length_fmap. }
  { intros key Hk. by rewrite empty_lists_lookup, decide_True. }
  { intros key Hk. eexists. split; [by apply Hna|].
    rewrite flat_map_replicate_length, length_fmap.
    apply Hmul; [by apply occurrences_elem|done]. }
  pose proof Hc as (Hcs & _ & Hca & _)%select_from_empty.
  set (ir := np_where (map (in_rc rc) cd)).
  set (sd := filter (λ d, in_rc rc d = true) cd).
  assert (length cd = length ic) as Hcd.
  { eapply picks_length. by apply picks_where. }
  assert (Forall (λ i, i < length ic) ir) as Hir.
  { rewrite <- Hcd. apply np_where_lt. }
  destruct (select_loop_succeeds keys cs ca ir [] (empty_lists keys))
    as (ss & sa & Hs).
  { by rewrite (picks_length _ _ _ Hcs). }
  { intros key Hk. by rewrite empty_lists_lookup, decide_True. }
  { intros key Hk. eexists. split; [by apply Hca|].
    rewrite flat_map_replicate_length.
    apply Hmul; [by apply occurrences_elem|done]. }
  exists {| neigh_disp := ds; ind_in_cube := ic; cube_disp := cd;
            cube_symbols := cs; cube_arrays := ca; ind_in_rc := ir;
            sphere_disp := sd; sphere_symbols := ss; sphere_arrays := sa |}.
  apply gather_inr. exists nbrs, ns, na. by repeat split.
Qed.

Lemma new_info_error_cause METADATA_KEY original_atoms nl inds keys :
  raises_only (error_cause METADATA_KEY original_atoms nl inds keys)
    (new_info METADATA_KEY (info original_atoms) keys).
Proof.
  unfold new_info. apply raises_only_bind; [|by intros [ni nm] _].
  destruct keys as [|key0 keys]; [done|].
  apply raises_only_for_each. intros [ni nm] n. unfold info_body, dict_get.
  destruct (info original_atoms !! METADATA_KEY) as [md|] eqn:Hmd;
    cbn [mbind result_bind raise raises_only].
  - destruct md as [z|s|d]; cbn [raises_only raise].
    + split; [done|]. by eexists.
    + destruct (str_in n s); cbn [raises_only raise]; [|done].
      split; [done|]. by eexists.
    + by destruct (d !! n).
  - right. by repeat split.
Qed.

Lemma key_arrays_of_error_cause METADATA_KEY original_atoms nl inds keys :
  raises_only (error_cause METADATA_KEY original_atoms nl inds keys)
    (key_arrays_of original_atoms keys).
Proof.
  unfold key_arrays_of. apply raises_only_for_each_inv with (I := λ _, True);
    [done| |done].
  intros d k _ Hk. unfold get_array, dict_get.
  destruct (arrays original_atoms !! k) eqn:Harr; [done|].
  cbn [mbind result_bind raise raises_only error_cause]. left. by split.
Qed.

Lemma extract_one_error_cause METADATA_KEY original_atoms nl rc new_cell
    extract_cube keys cell_norms max_cell_len key_arrays inds atom_ind :
  key_arrays_of original_atoms keys = inr key_arrays →
  atom_ind ∈ inds →
  raises_only (error_cause METADATA_KEY original_atoms nl inds keys)
    (extract_one METADATA_KEY original_atoms nl rc new_cell extract_cube keys
       cell_norms max_cell_len key_arrays atom_ind).
Proof.
  intros Hka Ha.
  pose proof (key_arrays_of_inr _ _ _ Hka) as Hlook.
  pose proof (key_arrays_of_present _ _ _ _ Hka) as Hpresent.
  assert (∀ key, key ∈ keys → is_Some (key_arrays !! key)) as Hsome.
  { intros key Hk. rewrite Hlook, decide_True by done. by apply Hpresent. }
  unfold extract_one. apply raises_only_bind.
  { pose proof (gather_index_error original_atoms nl rc max_cell_len keys
                  key_arrays atom_ind Hsome) as Hidx.
    destruct (gather _ _ _ _ _ _ _) as [e|g] eqn:Hg; [|done].
    cbn [raises_only] in *. unfold index_error in Hidx. subst e.
    cbn [error_cause]. intros (Hsym & Harr & Hnl & Hin & Hinds).
    destruct (gather_well_indexed original_atoms nl rc max_cell_len keys
                key_arrays atom_ind) as [g Hg']; try done.
    - intros key Hk. destruct (Hsome key Hk) as [arr Harr'].
      exists arr. split; [done|]. apply (Harr key); [done|].
      by rewrite Hlook, decide_True in Harr'.
    - by eapply Forall_forall in Hinds.
    - congruence. }
  intros g Hg. apply raises_only_bind.
  { unfold set_arrays. case_decide as Hall; [done|].
    cbn [raises_only raise error_cause]. intros Hnd. apply Hall.
    destruct (gather_arrays_length _ _ _ _ _ _ _ _ Hg) as [Hout Hlen].
    rewrite length_map. intros key arr Hk.
    destruct (decide (key ∈ keys)) as [Hkey|Hkey].
    - destruct (Hlen key Hkey) as (lc & ls & Hlc & Hnc & Hls & Hns).
      rewrite (occurrences_NoDup _ _ Hnd Hkey), Nat.mul_1_l in Hnc, Hns.
      unfold emitted_disp. destruct extract_cube; congruence.
    - destruct (Hout key Hkey) as [Hc Hs]. destruct extract_cube; congruence. }
  intros arrs _. apply raises_only_bind; [|done].
  apply new_info_error_cause.
Qed.

(** X13. What an exception raised after the validation tells about the
    request. A [KeyError] names a requested key that is no array of the
    source, or the reserved key when keys are requested and the source's
    [info] has no entry for it; a [TypeError] means that keys are requested
    and the entry under the reserved key is no dictionary; a [ValueError]
    means that a key is listed twice; an [IndexError] means that some index
    of the request is out of range (the gathering itself never steps out of
    its own lists); [CellTooSmallError] is not raised any more. *)
Theorem extract_env_error_causes
    (METADATA_KEY : string) (original_atoms : Atoms) (nl : NeighborList)
    (rc : float) (atom_inds : index_arg) (new_cell : ndarray)
    (extract_cube : bool) (keys_to_transfer : option (list string))
    (sides : vec3 * float) (e : exn) :
  validate original_atoms rc new_cell = inr sides →
  extract_env METADATA_KEY original_atoms nl rc atom_inds new_cell extract_cube
              keys_to_transfer = raise e →
  error_cause METADATA_KEY original_atoms nl (normalize_inds atom_inds)
              (default [] keys_to_transfer) e.
Proof.
  intros Hv Henv.
  assert (raises_only
            (error_cause METADATA_KEY original_atoms nl
               (normalize_inds atom_inds) (default [] keys_to_transfer))
            (extract_env METADATA_KEY original_atoms nl rc atom_inds new_cell
               extract_cube keys_to_transfer)) as H.
  { unfold extract_env. rewrite Hv. destruct sides as [cn L].
    cbn [mbind result_bind].
    apply raises_only_bind; [apply key_arrays_of_error_cause|]. intros ka Hka.
    apply raises_only_for_each_inv with (I := λ _, True); [done| |done].
    intros subcells a _ Ha. apply raises_only_bind; [|done].
    by apply extract_one_error_cause. }
  by rewrite Henv in H.
Qed.

Lemma extract_env_error_causes_witness :
  error_cause sample_key two_atoms_bare two_atoms_nl [0] ["forces_weights"]
              (KeyError sample_key).
Proof.
  apply (extract_env_error_causes sample_key two_atoms_bare two_atoms_nl 2
           (IdxList [0]) cube6 false (Some ["forces_weights"])
           ((6, 6, 6)%float, 6%float) (KeyError sample_key));
    vm_compute; reflexivity.
Defined.

(** ** A cutoff or a side length that is not a number *)

Lemma is_nan_sf x : is_nan x = true → Prim2SF x = S754_nan.
Proof.
  unfold is_nan. rewrite negb_true_iff, FloatAxioms.eqb_spec. unfold SFeqb.
  destruct (Prim2SF x) as [s|s| |s m e]; simpl; try done.
  - by destruct s.
  - rewrite Z.compare_refl, Pos.compare_cont_refl. by destruct s.
Qed.

Lemma leb_nan_r x y : is_nan y = true → (x <=? y)%float = false.
Proof.
  intros Hy%is_nan_sf. rewrite FloatAxioms.leb_spec, Hy. unfold SFleb.
  by destruct (Prim2SF x).
Qed.

Lemma eqb_nan_r x y : is_nan y = true → (x =? y)%float = false.
Proof.
  intros Hy%is_nan_sf. rewrite FloatAxioms.eqb_spec, Hy. unfold SFeqb.
  by destruct (Prim2SF x).
Qed.

Lemma div_nan_l x y : is_nan x = true → is_nan (x / y) = true.
Proof.
  intros Hx%is_nan_sf. unfold is_nan.
  rewrite negb_true_iff, FloatAxioms.eqb_spec, FloatAxioms.div_spec, Hx.
  reflexivity.
Qed.

Lemma filter_none {A} (P : A → bool) (l : list A) :
  (∀ x, P x = false) → filter (λ x, P x = true) l = [].
Proof.
  intros HP. induction l as [|x l IH]; [done|].
  rewrite filter_cons_False; [done|]. by rewrite HP.
Qed.

(** X14. A cutoff that is not a number passes the comparisons of the
    validation, and then no displacement is within it: every structure
    returned has an empty constraint, and with [extract_cube = false] it has
    no atom at all. *)
Theorem extract_env_nan_cutoff
    (METADATA_KEY : string) (original_atoms : Atoms) (nl : NeighborList)
    (rc : float) (atom_inds : index_arg) (new_cell : ndarray)
    (extract_cube : bool) (keys_to_transfer : option (list string))
    (outs : list Atoms) (j : nat) (out : Atoms) :
  is_nan rc = true →
  extract_env METADATA_KEY original_atoms nl rc atom_inds new_cell extract_cube
              keys_to_transfer = inr outs →
  outs !! j = Some out →
  constraints out = [ {| index := [] |} ]
  ∧ (extract_cube = false → positions out = [] ∧ symbols out = []).
Proof.
  intros Hnan Henv Hj.
  destruct (extract_env_lookup _ _ _ _ _ _ _ _ _ _ _ Henv Hj)
    as (cn & L & ka & a & _ & _ & _ & Hone).
  apply extract_one_inr in Hone as (g & inf & Hg & _ & _ & ->).
  pose proof Hg as (_ & _ & _ & _ & _ & _ & _ & _ & _ & _ & _ & Hs)%gather_inr.
  apply gather_rows in Hg as (_ & _ & _ & _ & _ & Hsd & Hir).
  assert (sphere_disp g = []) as Hsd0.
  { rewrite Hsd. apply filter_none. intros d. by apply leb_nan_r. }
  assert (ind_in_rc g = []) as Hir0.
  { rewrite Hir. pose proof (picks_where (in_rc rc) (cube_disp g) (sphere_disp g))
      as [_ Hp]. specialize (Hp Hsd). apply picks_length in Hp.
    rewrite Hsd0 in Hp. by destruct (np_where _). }
  rewrite Hir0 in Hs. cbn [for_each] in Hs. injection Hs as Hss _.
  cbn [constraints positions symbols]. split.
  - destruct extract_cube; cbn [emitted_fix]; by rewrite ?Hir0, ?Hsd0.
  - intros ->. cbn [emitted_disp]. by rewrite Hsd0, <- Hss.
Qed.

Lemma extract_env_nan_cutoff_witness :
  ∃ out,
    extract_env sample_key one_atom one_atom_nl nan (IdxList [0]) cube6 false
                None = inr [out]
    ∧ constraints out = [ {| index := [] |} ]
    ∧ positions out = [].
Proof.
  eexists. split; [vm_compute; reflexivity|].
  destruct (extract_env_nan_cutoff sample_key one_atom one_atom_nl nan
              (IdxList [0]) cube6 false None _ 0 _ eq_refl eq_refl eq_refl)
    as [Hfix Hpos].
  split; [exact Hfix|exact (proj1 (Hpos eq_refl))].
Defined.

(** ** [find_central_atom] *)

(** X15. [find_central_atom] returns [i] exactly when atom [i] has its
    three coordinates equal to [side_size / 2] and no atom before it has. *)
Theorem find_central_atom_first (config : Atoms) (side_size : float) (i : nat) :
  find_central_atom config side_size = Some i
  ↔ (∃ p, positions config !! i = Some p
          ∧ at_center (side_size / 2) p = true)
    ∧ ∀ k q, k < i → positions config !! k = Some q →
             at_center (side_size / 2) q = false.
Proof.
  unfold find_central_atom. rewrite atom_loop_Some. split.
  - intros (k & p & -> & Hp & Hc & Hf). split; [by exists p|].
    intros k' q Hk' Hq. eapply Forall_forall in Hf; [exact Hf|].
    apply list_elem_of_lookup. exists k'. by rewrite lookup_take_lt.
  - intros [(p & Hp & Hc) Hbefore]. exists i, p.
    split; [done|]. split; [done|]. split; [done|].
    apply Forall_forall. intros q (k & Hk)%list_elem_of_lookup.
    apply lookup_take_Some in Hk as [Hq Hlt]. by eapply Hbefore.
Qed.

(** X16. With a side length that is not a number, [find_central_atom]
    finds no atom, whatever the positions. *)
Theorem find_central_atom_nan (config : Atoms) (side_size : float) :
  is_nan side_size = true → find_central_atom config side_size = None.
Proof.
  intros Hnan. unfold find_central_atom. apply atom_loop_None.
  apply Forall_forall. intros [[x y] z] _. unfold at_center.
  by rewrite (eqb_nan_r x) by by apply div_nan_l.
Qed.

Lemma find_central_atom_nan_witness :
  find_central_atom two_atoms_out0 nan = None.
Proof. apply find_central_atom_nan. reflexivity. Defined.

(** ** Base names *)

Lemma rsplit_last_None x : rsplit_last x = None ↔ str_in "_" x = false.
Proof.
  induction x as [|c x IH]; [done|]. cbn [rsplit_last str_in String.prefix].
  destruct (rsplit_last x) as [h|] eqn:Hx.
  - split; [done|]. rewrite orb_false_iff. intros [_ Hf].
    apply IH in Hf. done.
  - rewrite (proj1 IH eq_refl), orb_false_r.
    destruct (ascii_dec "_" c) as [<-|Hne]; [by destruct x|].
    destruct (Ascii.eqb_spec c "_") as [->|]; done.
Qed.

Lemma rsplit_last_Some x h :
  rsplit_last x = Some h →
  ∃ suffix, str_in "_" suffix = false ∧ x = h +:+ "_" +:+ suffix.
Proof.
  revert h. induction x as [|c x IH]; intros h; [done|]. cbn [rsplit_last].
  destruct (rsplit_last x) as [h'|] eqn:Hx.
  - intros [= <-]. destruct (IH h' eq_refl) as (suffix & Hs & ->). by exists suffix.
  - destruct (Ascii.eqb_spec c "_") as [->|]; [|done]. intros [= <-].
    exists x. split; [by apply rsplit_last_None|done].
Qed.

(** The base name of [base_suffix] is [base]. *)
Lemma rsplit1_head_app base suffix :
  str_in "_" suffix = false → rsplit1_head (base +:+ "_" +:+ suffix) = base.
Proof.
  intros Hs%rsplit_last_None. unfold rsplit1_head.
  assert (rsplit_last (base +:+ "_" +:+ suffix) = Some base) as ->; [|done].
  induction base as [|c base IH].
  - change ("" +:+ "_" +:+ suffix) with (String "_" suffix).
    cbn [rsplit_last]. by rewrite Hs.
  - change (String c base +:+ "_" +:+ suffix)
      with (String c (base +:+ "_" +:+ suffix)).
    cbn [rsplit_last]. by rewrite IH.
Qed.

(** X17. The base name of a requested key: a key without underscore is its
    own base name; a key with one is its base name, an underscore and a
    suffix that holds no underscore. *)
Theorem rsplit1_head_spec (x : string) :
  if str_in "_" x
  then ∃ suffix, str_in "_" suffix = false
                 ∧ x = rsplit1_head x +:+ "_" +:+ suffix
  else rsplit1_head x = x.
Proof.
  unfold rsplit1_head. destruct (rsplit_last x) as [h|] eqn:Hx.
  - destruct (str_in "_" x) eqn:Hin; [by apply rsplit_last_Some|].
    apply rsplit_last_None in Hin. congruence.
  - apply rsplit_last_None in Hx. by rewrite Hx.
Qed.

(** ** Python's [<] and [sorted] *)

Lemma py_lt_asym a b : py_lt a b = inr true → py_lt b a = inr false.
Proof.
  destruct a as [x|s|d], b as [y|t|d']; simpl; try done; intros [= H]; f_equal.
  - apply Z.ltb_lt in H. apply Z.ltb_ge. lia.
  - unfold String.ltb in *. rewrite String.compare_antisym.
    by destruct (String.compare s t).
Qed.

Lemma py_lt_irrefl a b : py_lt a a = inr b → b = false.
Proof.
  destruct a as [x|s|d]; simpl; try done; intros [= <-].
  - apply Z.ltb_irrefl.
  - unfold String.ltb. pose proof (String.compare_antisym s s) as H.
    by destruct (String.compare s s).
Qed.

(** A key below a key tied with [k] is not tied with [k]. *)
Lemma tied_below k kx ky :
  tied k kx = true → py_lt ky kx = inr true → tied k ky = false.
Proof.
  unfold tied.
  destruct k as [a|s|d], kx as [b|t|d'], ky as [c|u|d'']; simpl; try done.
  - destruct (Z.ltb_spec a b), (Z.ltb_spec b a); try done. intros _ [= Hc].
    apply Z.ltb_lt in Hc.
    destruct (Z.ltb_spec a c), (Z.ltb_spec c a); try done. lia.
  - unfold String.ltb. rewrite (String.compare_antisym t s).
    destruct (String.compare s t) eqn:Hst; try done.
    apply String.compare_eq_iff in Hst as <-. intros _ [= Hu].
    rewrite (String.compare_antisym s u).
    by destruct (String.compare u s).
Qed.

Lemma py_lt_inr a b r :
  py_lt a b = inr r →
  (is_num a = true ∧ is_num b = true) ∨ (is_str a = true ∧ is_str b = true).
Proof. destruct a, b; simpl; try done; auto. Qed.

Lemma py_lt_num a b :
  is_num a = true → is_num b = true → ∃ r, py_lt a b = inr r.
Proof. destruct a, b; try done. by eexists. Qed.

Lemma py_lt_str a b :
  is_str a = true → is_str b = true → ∃ r, py_lt a b = inr r.
Proof. destruct a, b; try done. by eexists. Qed.

Lemma filter_nil_Forall {A} (P : A → Prop) `{!∀ x, Decision (P x)} (l : list A) :
  Forall (λ x, ¬ P x) l → filter P l = [].
Proof.
  induction 1 as [|x l Hx _ IH]; [done|]. by rewrite filter_cons_False.
Qed.

Section Sorting.

Context {A : Type}.

Implicit Types (l : list (pyobj * A)) (x : A).

Lemma insert_sorted_inr kx x l l' :
  insert_sorted kx x l = inr l' →
  ∃ l1 l2, l = l1 ++ l2 ∧ l' = l1 ++ (kx, x) :: l2
           ∧ Forall (λ a, py_lt a.1 kx = inr true) l1
           ∧ match l2 with
             | [] => True
             | b :: _ => py_lt b.1 kx = inr false
             end.
Proof.
  revert l'. induction l as [|[ky y] l IH]; intros l'; simpl.
  - intros [= <-]. by exists [], [].
  - destruct (py_lt ky kx) as [e|[]] eqn:Hlt; cbn [mbind result_bind]; [done| |].
    + intros (l'' & Hl'' & [= <-])%bind_inr.
      destruct (IH _ Hl'') as (l1 & l2 & -> & -> & Hf & Hh).
      exists ((ky, y) :: l1), l2. by repeat split; [constructor|].
    + intros [= <-]. exists [], ((ky, y) :: l). by repeat split.
Qed.

Lemma insert_sorted_Sorted kx x l l' :
  insert_sorted kx x l = inr l' → Sorted key_order l → Sorted key_order l'.
Proof.
  intros (l1 & l2 & -> & -> & Hf & Hh)%insert_sorted_inr.
  induction l1 as [|a l1 IH]; cbn [app].
  - intros Hs. constructor; [done|]. destruct l2 as [|b l2]; by constructor.
  - intros [Hs Hhd]%Sorted_inv. apply Forall_cons in Hf as [Ha Hf].
    constructor; [by apply IH|].
    destruct l1 as [|a' l1]; cbn [app] in *.
    + constructor. by apply py_lt_asym.
    + apply HdRel_inv in Hhd. by constructor.
Qed.

Lemma sort_keyed_cons (a : pyobj * A) keyed r :
  sort_keyed (a :: keyed) = inr r ↔
  ∃ r', sort_keyed keyed = inr r' ∧ insert_sorted a.1 a.2 r' = inr r.
Proof. unfold sort_keyed. cbn [foldr]. apply bind_inr. Qed.

Lemma sort_keyed_inr (keyed r : list (pyobj * A)) :
  sort_keyed keyed = inr r →
  r ≡ₚ keyed
  ∧ Sorted key_order r
  ∧ ∀ k, filter (λ a, tied k a.1 = true) r
         = filter (λ a, tied k a.1 = true) keyed.
Proof.
  revert r. induction keyed as [|[kx x] keyed IH]; intros r.
  - intros [= <-]. by repeat split; [constructor|].
  - intros (r' & Hr' & Hins)%sort_keyed_cons. cbn [fst snd] in Hins.
    destruct (IH _ Hr') as (Hperm & Hsort & Hstable).
    pose proof (insert_sorted_Sorted _ _ _ _ Hins Hsort) as Hsort'.
    apply insert_sorted_inr in Hins as (l1 & l2 & -> & -> & Hf & _).
    split; [|split; [done|]].
    + rewrite <- Hperm. by rewrite Permutation_middle.
    + intros k. rewrite filter_app, !filter_cons, <- Hstable, filter_app.
      cbn [fst]. destruct (decide (tied k kx = true)) as [Hk|Hk]; [|done].
      assert (filter (λ a : pyobj * A, tied k a.1 = true) l1 = []) as ->; [|done].
      apply filter_nil_Forall, Forall_forall. intros [ky y] Hin.
      eapply Forall_forall in Hf; [|exact Hin]. cbn [fst] in *.
      by rewrite (tied_below _ _ _ Hk Hf).
Qed.

(** A sorted list is left as it is. *)
Lemma sort_keyed_Sorted (keyed : list (pyobj * A)) : Sorted key_order keyed → sort_keyed keyed = inr keyed.
Proof.
  induction keyed as [|[kx x] keyed IH]; [done|]. intros [Hs Hhd]%Sorted_inv.
  apply sort_keyed_cons. exists keyed. split; [by apply IH|].
  destruct Hhd as [|b l Hab]; [done|]. destruct b as [ky y]. simpl.
  unfold key_order, not_below in Hab. cbn [fst] in Hab. by rewrite Hab.
Qed.

Lemma insert_sorted_total kx x l :
  (Forall (λ a, is_num a.1 = true) l ∧ is_num kx = true)
  ∨ (Forall (λ a, is_str a.1 = true) l ∧ is_str kx = true) →
  ∃ l', insert_sorted kx x l = inr l'.
Proof.
  intros H. induction l as [|[ky y] l IH]; simpl; [by eexists|].
  assert (∃ r, py_lt ky kx = inr r) as [r ->].
  { destruct H as [[[Hy _]%Forall_cons Hx]|[[Hy _]%Forall_cons Hx]];
      [by apply py_lt_num|by apply py_lt_str]. }
  cbn [mbind result_bind]. destruct r; [|by eexists].
  destruct IH as [l' ->]; [|by eexists].
  destruct H as [[[_ Hl]%Forall_cons Hx]|[[_ Hl]%Forall_cons Hx]]; auto.
Qed.

Lemma sort_keyed_total (keyed : list (pyobj * A)) :
  (∃ r, sort_keyed keyed = inr r) ↔ comparable (keyed.*1).
Proof.
  split.
  - intros [r Hr]. revert r Hr.
    induction keyed as [|[kx x] keyed IH]; intros r; [left; simpl; lia|].
    intros (r' & Hr' & Hins)%sort_keyed_cons. cbn [fst snd] in Hins.
    pose proof (sort_keyed_inr _ _ Hr') as (Hperm & _).
    destruct r' as [|[ky y] r'].
    { apply Permutation_nil_l in Hperm as <-. left. simpl. lia. }
    simpl in Hins. destruct (py_lt ky kx) as [e|b] eqn:Hlt; [done|].
    assert ((ky, y) ∈ keyed) as Hin by (rewrite <- Hperm; left).
    apply py_lt_inr in Hlt. right.
    destruct (IH _ Hr') as [Hlen|[Hnum|Hstr]].
    + destruct keyed as [|a [|b' keyed]]; [by apply elem_of_nil in Hin| |simpl in Hlen; lia].
      apply list_elem_of_singleton in Hin as <-. cbn [fmap list_fmap fst].
      destruct Hlt as [[? ?]|[? ?]]; [left|right]; by repeat constructor.
    + left. constructor; [|done]. cbn [fst].
      eapply Forall_forall in Hnum; [|apply list_elem_of_fmap_2, Hin].
      cbn [fst] in Hnum. destruct Hlt as [[? ?]|[? ?]]; [done|].
      destruct ky; done.
    + right. constructor; [|done]. cbn [fst].
      eapply Forall_forall in Hstr; [|apply list_elem_of_fmap_2, Hin].
      cbn [fst] in Hstr. destruct Hlt as [[? ?]|[? ?]]; [|done].
      destruct ky; done.
  - intros Hc.
    assert (∀ keyed : list (pyobj * A),
              Forall (λ a, is_num a.1 = true) keyed
              ∨ Forall (λ a, is_str a.1 = true) keyed →
              ∃ r, sort_keyed keyed = inr r) as Hsame.
    { clear Hc keyed. intros l. induction l as [|[kx x] l IH]; intros H; [by eexists|].
      destruct IH as [r' Hr'].
      { destruct H as [[_ ?]%Forall_cons|[_ ?]%Forall_cons]; auto. }
      pose proof (sort_keyed_inr _ _ Hr') as (Hperm & _).
      destruct (insert_sorted_total kx x r') as [r Hr].
      { destruct H as [[? H]%Forall_cons|[? H]%Forall_cons]; [left|right];
          (split; [by rewrite Hperm|done]). }
      exists r. apply sort_keyed_cons. by exists r'. }
    destruct Hc as [Hlen|[Hnum|Hstr]].
    + destruct keyed as [|a [|b keyed]]; [by eexists|by eexists|].
      simpl in Hlen. lia.
    + apply Hsame. left. by apply Forall_fmap in Hnum.
    + apply Hsame. right. by apply Forall_fmap in Hstr.
Qed.

End Sorting.

(** ** [sort_configs_and_tag_atoms]: the order *)

Section SortConfigsFacts.

Variable objs : nat → Atoms.
Variable id_key : string.

Implicit Types (l s : list nat) (r keyed : list (pyobj * nat)).

Lemma keys_loop_inr l keyed :
  for_each (λ acc x, kx ← (k ← dict_get (info (objs x)) id_key; inr (k, x));
                     inr (acc ++ [kx])) l []
  = inr keyed ↔
  Forall (keyed_by objs id_key) keyed ∧ keyed.*2 = l.
Proof.
  rewrite (collect_loop (λ x, k ← dict_get (info (objs x)) id_key; inr (k, x))).
  split.
  - intros (ys & Hf & ->). cbn [app]. induction Hf as [|x kx l ys Hx _ [IH1 IH2]].
    + by split.
    + apply bind_inr in Hx as (k & Hk & [= <-]). unfold dict_get in Hk.
      split; [|by cbn; f_equal]. constructor; [|done].
      unfold keyed_by, id_of. cbn [fst snd].
      by destruct (info (objs x) !! id_key) as [k'|]; [injection Hk as ->|].
  - intros [Hok <-]. exists keyed. split; [|done].
    apply Forall2_fmap_l, Forall_Forall2_diag.
    eapply Forall_impl; [exact Hok|]. intros [k x] Hk.
    unfold keyed_by, id_of in Hk. simpl in *.
    unfold dict_get. by rewrite Hk.
Qed.

Lemma py_sorted_inr l s :
  py_sorted (λ atoms, dict_get (info (objs atoms)) id_key) l = inr s ↔
  ∃ keyed r, Forall (keyed_by objs id_key) keyed ∧ keyed.*2 = l
             ∧ sort_keyed keyed = inr r ∧ s = r.*2.
Proof.
  unfold py_sorted. rewrite bind_inr. split.
  - intros (keyed & Hk%keys_loop_inr & (r & Hr & [= <-])%bind_inr).
    destruct Hk. by exists keyed, r.
  - intros (keyed & r & Hok & Hl & Hr & ->). exists keyed.
    split; [by apply keys_loop_inr|]. by rewrite Hr.
Qed.

Lemma Sorted_keyed r :
  Forall (keyed_by objs id_key) r → Sorted key_order r →
  Sorted (id_order objs id_key) (r.*2).
Proof.
  intros Hok Hs. induction Hs as [|a r Hs IH Hhd]; [constructor|].
  apply Forall_cons in Hok as [Ha Hok]. cbn. constructor; [by apply IH|].
  destruct Hhd as [|b r Hab]; [constructor|]. cbn. constructor.
  apply Forall_cons in Hok as [Hb _]. by exists a.1, b.1.
Qed.

Lemma filter_keyed k r :
  Forall (keyed_by objs id_key) r →
  filter (λ a, tied_with objs id_key k a = true) (r.*2)
  = (filter (λ kx : pyobj * nat, tied k kx.1 = true) r).*2.
Proof.
  induction 1 as [|[ka a] r Ha _ IH]; [done|]. cbn [fmap list_fmap snd].
  rewrite !filter_cons, IH. unfold tied_with. cbn [fst snd].
  unfold keyed_by in Ha. cbn [fst snd] in Ha. rewrite Ha.
  by destruct (decide (tied k ka = true)).
Qed.

(** X18. The list that [sort_configs_and_tag_atoms] returns holds the
    objects of the list given, each as many times; the identifier of each
    object is not above that of the next; and objects with tied identifiers
    keep the order they had. *)
Theorem sort_configs_sorted (list_of_atoms sorted_atoms : list nat)
    (atom_id : gmap nat (list nat)) :
  sort_configs_and_tag_atoms objs list_of_atoms id_key
  = inr (sorted_atoms, atom_id) →
  sorted_atoms ≡ₚ list_of_atoms
  ∧ Sorted (id_order objs id_key) sorted_atoms
  ∧ ∀ k, filter (λ a, tied_with objs id_key k a = true) sorted_atoms
         = filter (λ a, tied_with objs id_key k a = true) list_of_atoms.
Proof.
  unfold sort_configs_and_tag_atoms.
  intros (s & (keyed & r & Hok & <- & Hr & ->)%py_sorted_inr & [= <- _])%bind_inr.
  apply sort_keyed_inr in Hr as (Hperm & Hsort & Hstable).
  assert (Forall (keyed_by objs id_key) r) as Hok' by by rewrite Hperm.
  split; [by rewrite Hperm|]. split; [by apply Sorted_keyed|].
  intros k. by rewrite !filter_keyed, Hstable.
Qed.

(** ** [sort_configs_and_tag_atoms]: the tags *)

Lemma total_len_cons a l : total_len objs (a :: l) = len (objs a) + total_len objs l.
Proof. done. Qed.

Lemma total_len_take_le l i j :
  (i ≤ j)%nat → (total_len objs (take i l) ≤ total_len objs (take j l))%nat.
Proof.
  revert i j. induction l as [|a l IH]; intros i j Hij.
  - by rewrite !take_nil.
  - destruct i as [|i]; [unfold total_len; simpl; lia|].
    destruct j as [|j]; [lia|].
    cbn [take]. rewrite !total_len_cons. specialize (IH i j). lia.
Qed.

Lemma total_len_take_S l i a :
  l !! i = Some a →
  total_len objs (take (S i) l) = total_len objs (take i l) + len (objs a).
Proof.
  revert i. induction l as [|b l IH]; intros i; [done|].
  destruct i as [|i]; simpl.
  - intros [= ->]. rewrite total_len_cons. unfold total_len. simpl. lia.
  - intros Hi. rewrite !total_len_cons, (IH i Hi). unfold total_len. simpl. lia.
Qed.

Lemma tag_loop_other s counter (ids : gmap nat (list nat)) a :
  a ∉ s → (foldl (tag_body objs) (counter, ids) s).2 !! a = ids !! a.
Proof.
  revert counter ids. induction s as [|b s IH]; intros counter ids Ha; [done|].
  cbn [foldl tag_body]. rewrite IH by (intros ?; apply Ha; by right).
  apply lookup_insert_ne. intros ->. apply Ha. by left.
Qed.

(** Each object keeps what its last turn of the loop wrote. *)
Lemma tag_loop_last s counter (ids : gmap nat (list nat)) i a :
  s !! i = Some a → a ∉ drop (S i) s →
  (foldl (tag_body objs) (counter, ids) s).2 !! a
  = Some (seq (counter + total_len objs (take i s)) (len (objs a))).
Proof.
  revert counter ids i. induction s as [|b s IH]; intros counter ids i; [done|].
  destruct i as [|i]; cbn [foldl tag_body lookup list_lookup drop take].
  - intros [= ->] Ha. rewrite tag_loop_other by done.
    rewrite lookup_insert_eq. unfold total_len. simpl. by rewrite Nat.add_0_r.
  - intros Hi Ha. change (s !! i = Some a) in Hi. rewrite (IH _ _ i Hi Ha).
    rewrite total_len_cons. do 2 f_equal. lia.
Qed.

Lemma tag_loop_dom s counter (ids : gmap nat (list nat)) a t :
  (foldl (tag_body objs) (counter, ids) s).2 !! a = Some t →
  a ∈ s ∨ ids !! a = Some t.
Proof.
  destruct (decide (a ∈ s)) as [|Ha]; [by left|].
  rewrite tag_loop_other by done. by right.
Qed.

Lemma last_occurrence s a : a ∈ s → ∃ i, s !! i = Some a ∧ a ∉ drop (S i) s.
Proof.
  induction s as [|b s IH]; [by intros ?%elem_of_nil|]. intros Hin.
  destruct (decide (a ∈ s)) as [Hs|Hs].
  - destruct (IH Hs) as (i & Hi & Hd). by exists (S i).
  - apply elem_of_cons in Hin as [->|]; [|done]. by exists 0.
Qed.

(** X19. The tags of an object are the consecutive integers that start at
    the number of atoms of the objects sorted before its last place in the
    sorted list, one for each of its atoms; an object held twice by the list
    keeps the tags of its last place only. *)
Theorem sort_configs_tags (list_of_atoms sorted_atoms : list nat)
    (atom_id : gmap nat (list nat)) (i : nat) (atoms : nat) :
  sort_configs_and_tag_atoms objs list_of_atoms id_key
  = inr (sorted_atoms, atom_id) →
  sorted_atoms !! i = Some atoms →
  atoms ∉ drop (S i) sorted_atoms →
  atom_id !! atoms
  = Some (seq (total_len objs (take i sorted_atoms)) (len (objs atoms))).
Proof.
  unfold sort_configs_and_tag_atoms.
  intros (s & _ & [= <- <-])%bind_inr Hi Hlast.
  by rewrite (tag_loop_last _ 0 ∅ i atoms Hi Hlast).
Qed.

(** X20. When the list holds no object twice, no tag is given to two
    objects: the tags are unique across the configurations. *)
Theorem sort_configs_unique_tags (list_of_atoms sorted_atoms : list nat)
    (atom_id : gmap nat (list nat)) (a b : nat) (ta tb : list nat) (x : nat) :
  sort_configs_and_tag_atoms objs list_of_atoms id_key
  = inr (sorted_atoms, atom_id) →
  NoDup list_of_atoms →
  atom_id !! a = Some ta → atom_id !! b = Some tb →
  x ∈ ta → x ∈ tb →
  a = b.
Proof.
  intros Hsort Hnd Ha Hb Hxa Hxb.
  assert (sorted_atoms ≡ₚ list_of_atoms) as Hperm.
  { revert Hsort. unfold sort_configs_and_tag_atoms.
    intros (s & (keyed & r & _ & <- & Hr & ->)%py_sorted_inr & [= <- _])%bind_inr.
    apply sort_keyed_inr in Hr as (Hperm & _). by rewrite Hperm. }
  rewrite <- Hperm in Hnd.
  assert (∀ c t, atom_id !! c = Some t →
                 ∃ i, sorted_atoms !! i = Some c
                      ∧ t = seq (total_len objs (take i sorted_atoms))
                                (len (objs c))) as Hplace.
  { intros c t Hc. revert Hsort Hc. unfold sort_configs_and_tag_atoms.
    intros (s & _ & [= <- <-])%bind_inr Hc.
    destruct (tag_loop_dom _ _ _ _ _ Hc) as [Hin|]; [|done].
    destruct (last_occurrence _ _ Hin) as (i & Hi & Hlast). exists i.
    split; [done|]. rewrite (tag_loop_last _ 0 ∅ i c Hi Hlast) in Hc.
    by injection Hc as <-. }
  destruct (Hplace a ta Ha) as (i & Hi & ->).
  destruct (Hplace b tb Hb) as (j & Hj & ->).
  apply elem_of_seq in Hxa, Hxb.
  destruct (decide (i = j)) as [->|Hij]; [congruence|]. exfalso.
  destruct (decide (i < j)) as [Hlt|Hge].
  - pose proof (total_len_take_le sorted_atoms (S i) j ltac:(lia)) as Hle.
    rewrite (total_len_take_S _ _ _ Hi) in Hle. lia.
  - pose proof (total_len_take_le sorted_atoms (S j) i ltac:(lia)) as Hle.
    rewrite (total_len_take_S _ _ _ Hj) in Hle. lia.
Qed.

(** ** [sort_configs_and_tag_atoms]: when it raises *)

Lemma keys_loop_error l acc e :
  for_each (λ acc x, kx ← (k ← dict_get (info (objs x)) id_key; inr (k, x));
                     inr (acc ++ [kx])) l acc
  = inl e →
  e = KeyError id_key ∧ ∃ a, a ∈ l ∧ id_of objs id_key a = None.
Proof.
  revert acc. induction l as [|x l IH]; intros acc; cbn [for_each]; [done|].
  destruct (dict_get (info (objs x)) id_key) as [e'|k] eqn:Hk;
    cbn [mbind result_bind].
  - intros [= <-]. unfold dict_get in Hk.
    destruct (info (objs x) !! id_key) eqn:Hx; [done|]. injection Hk as <-.
    split; [done|]. exists x. split; [by left|done].
  - intros (Hl & a & Ha & Hnone)%IH. split; [done|]. exists a. split; [by right|done].
Qed.

Lemma sort_keyed_error {A} (keyed : list (pyobj * A)) e :
  sort_keyed keyed = inl e → e = TypeError.
Proof.
  assert (∀ kx x (l : list (pyobj * A)) e,
            insert_sorted kx x l = inl e → e = TypeError) as Hins.
  { intros kx x l. induction l as [|[ky y] l IH]; intros e'; simpl; [done|].
    destruct ky, kx; simpl; try (by intros [= <-]);
      case_match; try done; destruct (insert_sorted _ _ _) eqn:Hl; try done;
      intros [= <-]; by eapply IH. }
  revert e. induction keyed as [|[kx x] keyed IH]; intros e; [done|].
  unfold sort_keyed. cbn [foldr]. fold (sort_keyed keyed).
  destruct (sort_keyed keyed) as [e'|r]; cbn [mbind result_bind].
  - intros [= <-]. by apply IH.
  - apply Hins.
Qed.

Lemma keys_unique l keys keys' :
  Forall2 (λ a k, id_of objs id_key a = Some k) l keys →
  Forall2 (λ a k, id_of objs id_key a = Some k) l keys' → keys = keys'.
Proof.
  intros H. revert keys'. induction H as [|a k l keys Ha _ IH]; intros keys' H'.
  - by apply Forall2_nil_inv_l in H'.
  - apply Forall2_cons_inv_l in H' as (k' & keys'' & Hk' & H' & ->).
    f_equal; [congruence|by apply IH].
Qed.

Lemma keyed_keys keyed :
  Forall (keyed_by objs id_key) keyed →
  Forall2 (λ a k, id_of objs id_key a = Some k) (keyed.*2) (keyed.*1).
Proof.
  intros H. apply Forall2_fmap, Forall_Forall2_diag.
  eapply Forall_impl; [exact H|]. by intros [k x].
Qed.

(** X21. The outcomes of [sort_configs_and_tag_atoms]. It raises
    [KeyError] with [id_key] exactly when some object has no entry for
    [id_key], whatever the other identifiers are: the keys are read before
    any is compared. When every object has an identifier and these are of
    one kind (at most one, or integers only, or strings only), it returns.
    An exception other than that [KeyError] is a [TypeError]. *)
Theorem sort_configs_outcome (list_of_atoms : list nat) :
  (sort_configs_and_tag_atoms objs list_of_atoms id_key
   = raise (KeyError id_key)
   ↔ ∃ a, a ∈ list_of_atoms ∧ id_of objs id_key a = None)
  ∧ (∀ keys,
       Forall2 (λ a k, id_of objs id_key a = Some k) list_of_atoms keys →
       comparable keys →
       ∃ res, sort_configs_and_tag_atoms objs list_of_atoms id_key = inr res)
  ∧ (∀ e, sort_configs_and_tag_atoms objs list_of_atoms id_key = raise e →
          e = KeyError id_key ∨ e = TypeError).
Proof.
  unfold sort_configs_and_tag_atoms, py_sorted.
  destruct (for_each _ list_of_atoms []) as [e|keyed] eqn:Hkeys;
    cbn [mbind result_bind].
  - destruct (keys_loop_error _ _ _ Hkeys) as (-> & a & Ha & Hnone).
    split; [|split].
    + split; [by exists a|done].
    + intros keys Hall _. apply list_elem_of_lookup in Ha as [i Hi].
      destruct (Forall2_lookup_l _ _ _ _ _ Hall Hi) as (k & _ & Hk). congruence.
    + intros e [= <-]. by left.
  - apply keys_loop_inr in Hkeys as [Hok <-].
    pose proof (keyed_keys _ Hok) as Hkeys.
    assert (∀ a, a ∈ keyed.*2 → id_of objs id_key a ≠ None) as Hsome.
    { intros a [i Hi]%list_elem_of_lookup.
      destruct (Forall2_lookup_l _ _ _ _ _ Hkeys Hi) as (k & _ & Hk).
      congruence. }
    destruct (sort_keyed keyed) as [e|r] eqn:Hr; cbn [mbind result_bind].
    + apply sort_keyed_error in Hr as Hte. subst e. split; [|split].
      * split; [done|]. intros (a & Ha & Hnone). by destruct (Hsome a Ha).
      * intros keys Hall Hcomp.
        rewrite (keys_unique _ _ _ Hall Hkeys) in Hcomp.
        apply sort_keyed_total in Hcomp as [r Hr']. congruence.
      * intros e [= <-]. by right.
    + split; [|split].
      * split; [done|]. intros (a & Ha & Hnone). by destruct (Hsome a Ha).
      * intros keys _ _. by eexists.
      * done.
Qed.

(** ** [sort_configs_and_tag_atoms]: a second call *)

(** X22. Sorting and tagging the list returned by a first call returns
    that list again, with the same tags. *)
Theorem sort_configs_idempotent (list_of_atoms sorted_atoms : list nat)
    (atom_id : gmap nat (list nat)) :
  sort_configs_and_tag_atoms objs list_of_atoms id_key
  = inr (sorted_atoms, atom_id) →
  sort_configs_and_tag_atoms objs sorted_atoms id_key
  = inr (sorted_atoms, atom_id).
Proof.
  unfold sort_configs_and_tag_atoms.
  intros (s & (keyed & r & Hok & <- & Hr & ->)%py_sorted_inr & [= <- <-])%bind_inr.
  apply sort_keyed_inr in Hr as (Hperm & Hsort & _).
  assert (py_sorted (λ atoms, dict_get (info (objs atoms)) id_key) (r.*2)
          = inr (r.*2)) as ->; [|done].
  apply py_sorted_inr. exists r, r. split; [by rewrite Hperm|].
  split; [done|]. split; [by apply sort_keyed_Sorted|done].
Qed.

End SortConfigsFacts.

Lemma sort_configs_sorted_witness :
  [1; 0; 2] ≡ₚ [0; 1; 2]
  ∧ Sorted (id_order three_configs "co-id") [1; 0; 2]
  ∧ ∀ k, filter (λ a, tied_with three_configs "co-id" k a = true) [1; 0; 2]
         = filter (λ a, tied_with three_configs "co-id" k a = true) [0; 1; 2].
Proof.
  apply (sort_configs_sorted three_configs "co-id" [0; 1; 2] [1; 0; 2]
           three_tags).
  vm_compute. reflexivity.
Defined.

Lemma sort_configs_tags_witness :
  three_tags !! 0
  = Some (seq (total_len three_configs (take 1 [1; 0; 2]))
              (len (three_configs 0))).
Proof.
  apply (sort_configs_tags three_configs "co-id" [0; 1; 2] [1; 0; 2]
           three_tags 1 0).
  - vm_compute. reflexivity.
  - reflexivity.
  - vm_compute. intros H. inversion H as [|? ? ? H']; inversion H'.
Defined.

Lemma sort_configs_unique_tags_witness : 1 = 1.
Proof.
  apply (sort_configs_unique_tags three_configs "co-id" [0; 1; 2] [1; 0; 2]
           three_tags 1 1 [0; 1] [0; 1] 0).
  - vm_compute. reflexivity.
  - apply (bool_decide_unpack _). vm_compute. exact I.
  - reflexivity.
  - reflexivity.
  - by left.
  - by left.
Defined.

Lemma sort_configs_idempotent_witness :
  sort_configs_and_tag_atoms three_configs [1; 0; 2] "co-id"
  = inr ([1; 0; 2], three_tags).
Proof.
  apply (sort_configs_idempotent three_configs "co-id" [0; 1; 2]).
  vm_compute. reflexivity.
Defined.

(** ** The metadata attached by [compute_batch] *)

Lemma prefix_app s t : String.prefix s (s +:+ t) = true.
Proof.
  induction s as [|c s IH]; [by destruct t|].
  change (String c s +:+ t) with (String c (s +:+ t)). cbn [String.prefix].
  by destruct (ascii_dec c c).
Qed.

Lemma str_in_field OUTPUT_KEY k : str_in OUTPUT_KEY (field_name OUTPUT_KEY k) = true.
Proof.
  unfold field_name. destruct (OUTPUT_KEY +:+ "_" +:+ k) eqn:H; cbn [str_in];
    by rewrite <- H, prefix_app.
Qed.

Lemma field_inj OUTPUT_KEY k1 k2 :
  field_name OUTPUT_KEY k1 = field_name OUTPUT_KEY k2 → k1 = k2.
Proof. unfold field_name. intros H. by do 2 apply String.app_inj in H. Qed.

Section QuestsFacts.

Variable OUTPUT_KEY METADATA_KEY : string.
Variable metadata : gmap string pyobj.

(** The reserved key is none of the attached field_name names. *)
Hypothesis reserved : ∀ k, METADATA_KEY ≠ field_name OUTPUT_KEY k.

Lemma fields_loop (info0 : gmap string pyobj) :
  let info1 := map_fold (λ k v i, <[field_name OUTPUT_KEY k := v]> i) info0 metadata in
  (∀ k v, metadata !! k = Some v → info1 !! field_name OUTPUT_KEY k = Some v)
  ∧ (∀ j, (∀ k, is_Some (metadata !! k) → j ≠ field_name OUTPUT_KEY k) →
          info1 !! j = info0 !! j).
Proof.
  cbv zeta.
  apply (map_fold_weak_ind
           (λ (r : gmap string pyobj) (m : gmap string pyobj),
              (∀ k v, m !! k = Some v → r !! field_name OUTPUT_KEY k = Some v)
              ∧ (∀ j, (∀ k, is_Some (m !! k) → j ≠ field_name OUTPUT_KEY k) →
                      r !! j = info0 !! j))).
  - split; [by intros k v ?%lookup_empty_Some|done].
  - intros i x m r Hi [IH1 IH2]. split.
    + intros k v. destruct (decide (i = k)) as [->|Hne].
      * rewrite !lookup_insert_eq. done.
      * rewrite (lookup_insert_ne m) by done.
        rewrite lookup_insert_ne by (by intros ?%field_inj). apply IH1.
    + intros j Hj. rewrite lookup_insert_ne.
      * apply IH2. intros k Hk. apply Hj. rewrite lookup_insert_ne; [done|].
        intros ->. rewrite Hi in Hk. by destruct Hk.
      * intros <-. apply (Hj i); [|done]. rewrite lookup_insert_eq. by eexists.
Qed.

(** The loop changes nothing where the fields are already in place. *)
Lemma fields_loop_id (info0 : gmap string pyobj) :
  (∀ k v, metadata !! k = Some v → info0 !! field_name OUTPUT_KEY k = Some v) →
  map_fold (λ k v i, <[field_name OUTPUT_KEY k := v]> i) info0 metadata = info0.
Proof.
  apply (map_fold_weak_ind
           (λ (r : gmap string pyobj) (m : gmap string pyobj),
              (∀ k v, m !! k = Some v → info0 !! field_name OUTPUT_KEY k = Some v) →
              r = info0)); [done|].
  intros i x m r Hi IH Hall. rewrite IH.
  - apply insert_id, Hall. by rewrite lookup_insert_eq.
  - intros k v Hk. apply Hall. rewrite lookup_insert_ne; [done|].
    intros ->. congruence.
Qed.

Lemma attach_metadata_inr info0 info1 :
  attach_metadata OUTPUT_KEY METADATA_KEY metadata info0 = inr info1 ↔
  ∃ d, (info0 !! METADATA_KEY = None ∧ d = ∅
        ∨ info0 !! METADATA_KEY = Some (PyDict d))
       ∧ info1
         = <[METADATA_KEY := PyDict (<[OUTPUT_KEY := PyDict metadata]> d)]>
             (map_fold (λ k v i, <[field_name OUTPUT_KEY k := v]> i) info0 metadata).
Proof.
  unfold attach_metadata.
  destruct (fields_loop info0) as [_ Hother]. cbv zeta in Hother.
  set (info' := map_fold _ info0 metadata) in *.
  assert (info' !! METADATA_KEY = info0 !! METADATA_KEY) as Hmk.
  { apply Hother. intros k _. apply reserved. }
  unfold dict_get. rewrite Hmk.
  destruct (info0 !! METADATA_KEY) as [md|] eqn:H0.
  - rewrite decide_True by by eexists. rewrite Hmk.
    cbn [mbind result_bind]. split.
    + destruct md as [z|s|d]; try done. intros [= <-]. exists d. split; [by right|done].
    + intros (d & [[? _]|[= ->]] & ->); [done|done].
  - rewrite decide_False by by intros [? ?].
    rewrite lookup_insert_eq. cbn [mbind result_bind]. split.
    + intros [= <-]. exists ∅. split; [by left|]. by rewrite insert_insert_eq.
    + intros (d & [[_ ->]|?] & ->); [|done]. by rewrite insert_insert_eq.
Qed.

Lemma attach_metadata_fields (info0 info1 : gmap string pyobj) :
  attach_metadata OUTPUT_KEY METADATA_KEY metadata info0 = inr info1 →
  (∀ k v, metadata !! k = Some v → info1 !! field_name OUTPUT_KEY k = Some v)
  ∧ nested_lookup METADATA_KEY info1 OUTPUT_KEY = Some (PyDict metadata).
Proof.
  intros (d & Hd & ->)%attach_metadata_inr.
  destruct (fields_loop info0) as [Hfields _]. cbv zeta in *. split.
  - intros k v Hk. rewrite lookup_insert_ne by apply reserved. by apply Hfields.
  - unfold nested_lookup. by rewrite !lookup_insert_eq.
Qed.

(** X23. What [compute_batch] attaches to the [info] of an atoms object,
    when the reserved key is none of the field names: each metadata entry
    under the name [OUTPUT_KEY_<name>], the whole metadata under
    [OUTPUT_KEY] in the nested dictionary; the other entries of the nested
    dictionary and the other top-level entries are left as they were. *)
Theorem attach_metadata_entries (info0 info1 : gmap string pyobj) :
  attach_metadata OUTPUT_KEY METADATA_KEY metadata info0 = inr info1 →
  (∀ k v, metadata !! k = Some v → info1 !! field_name OUTPUT_KEY k = Some v)
  ∧ nested_lookup METADATA_KEY info1 OUTPUT_KEY = Some (PyDict metadata)
  ∧ (∀ k, k ≠ OUTPUT_KEY →
          nested_lookup METADATA_KEY info1 k
          = nested_lookup METADATA_KEY info0 k)
  ∧ (∀ j, j ≠ METADATA_KEY →
          (∀ k, is_Some (metadata !! k) → j ≠ field_name OUTPUT_KEY k) →
          info1 !! j = info0 !! j).
Proof.
  intros (d & Hd & ->)%attach_metadata_inr.
  destruct (fields_loop info0) as [Hfields Hother]. cbv zeta in *.
  split; [|split; [|split]].
  - intros k v Hk. rewrite lookup_insert_ne by apply reserved. by apply Hfields.
  - unfold nested_lookup. by rewrite !lookup_insert_eq.
  - intros k Hk. unfold nested_lookup. rewrite lookup_insert_eq.
    rewrite lookup_insert_ne by done.
    destruct Hd as [[-> ->] | ->]; [by rewrite lookup_empty|done].
  - intros j Hj Hnot. rewrite lookup_insert_ne by done. by apply Hother.
Qed.

(** X24. Attaching the metadata succeeds when the [info] has no entry
    under the reserved key (an empty nested dictionary is made) or a
    dictionary; with any other entry there it raises [TypeError]. *)
Theorem attach_metadata_total (info0 : gmap string pyobj) :
  match attach_metadata OUTPUT_KEY METADATA_KEY metadata info0 with
  | inr _ =>
      info0 !! METADATA_KEY = None
      ∨ ∃ d, info0 !! METADATA_KEY = Some (PyDict d)
  | inl e =>
      e = TypeError
      ∧ ∃ v, info0 !! METADATA_KEY = Some v ∧ ∀ d, v ≠ PyDict d
  end.
Proof.
  destruct (attach_metadata _ _ _ info0) as [e|info1] eqn:H.
  - revert H. unfold attach_metadata.
    destruct (fields_loop info0) as [_ Hother]. cbv zeta in Hother.
    set (info' := map_fold _ info0 metadata) in *.
    assert (info' !! METADATA_KEY = info0 !! METADATA_KEY) as Hmk.
    { apply Hother. intros k _. apply reserved. }
    unfold dict_get. rewrite Hmk.
    destruct (info0 !! METADATA_KEY) as [md|] eqn:H0.
    + rewrite decide_True by by eexists. rewrite Hmk. cbn [mbind result_bind].
      destruct md; try done; intros [= <-]; (split; [done|]); by eexists.
    + rewrite decide_False by by intros [? ?]. by rewrite lookup_insert_eq.
  - apply attach_metadata_inr in H as (d & [[? _]|?] & _); [by left|right; eauto].
Qed.

(** X25. Attaching the metadata a second time changes nothing. *)
Theorem attach_metadata_idempotent (info0 info1 : gmap string pyobj) :
  attach_metadata OUTPUT_KEY METADATA_KEY metadata info0 = inr info1 →
  attach_metadata OUTPUT_KEY METADATA_KEY metadata info1 = inr info1.
Proof.
  intros Hfirst.
  pose proof (attach_metadata_fields _ _ Hfirst) as (Hfields & Hnest).
  apply attach_metadata_inr in Hfirst as (d & _ & Hinfo1).
  apply attach_metadata_inr.
  exists (<[OUTPUT_KEY := PyDict metadata]> d). split.
  { right. subst info1. by rewrite lookup_insert_eq. }
  rewrite (fields_loop_id info1 Hfields), insert_insert_eq.
  symmetry. apply insert_id. subst info1. by rewrite lookup_insert_eq.
Qed.

End QuestsFacts.

(** ** From the descriptor to the extracted environments *)

(** X26. The metadata that [compute_batch] attached to the source is
    carried over by [extract_env] when an array named
    [OUTPUT_KEY_<suffix>] (the suffix without underscore) is transferred:
    every extracted structure holds each metadata entry under
    [OUTPUT_KEY_<name>] and the whole metadata under [OUTPUT_KEY] in its
    nested dictionary. *)
Theorem extract_env_keeps_descriptor_metadata
    (OUTPUT_KEY METADATA_KEY : string) (metadata : gmap string pyobj)
    (original_atoms : Atoms) (info1 : gmap string pyobj) (nl : NeighborList)
    (rc : float) (atom_inds : index_arg) (new_cell : ndarray)
    (extract_cube : bool) (keys_to_transfer : option (list string))
    (suffix : string) (outs : list Atoms) (j : nat) (out : Atoms) :
  (∀ k, METADATA_KEY ≠ field_name OUTPUT_KEY k) →
  attach_metadata OUTPUT_KEY METADATA_KEY metadata (info original_atoms)
  = inr info1 →
  extract_env METADATA_KEY (with_info original_atoms info1) nl rc atom_inds
              new_cell extract_cube keys_to_transfer = inr outs →
  outs !! j = Some out →
  field_name OUTPUT_KEY suffix ∈ default [] keys_to_transfer →
  str_in "_" suffix = false →
  (∀ k v, metadata !! k = Some v → info out !! field_name OUTPUT_KEY k = Some v)
  ∧ nested_lookup METADATA_KEY (info out) OUTPUT_KEY = Some (PyDict metadata).
Proof.
  intros Hres Hattach Henv Hj Hkey Hsuffix.
  destruct (attach_metadata_fields _ _ _ Hres _ _ Hattach)
    as (Hfields & Hnest).
  destruct (extract_env_lookup _ _ _ _ _ _ _ _ _ _ _ Henv Hj)
    as (cn & L & ka & a & _ & _ & _ & Hone).
  apply extract_one_inr in Hone as (g & inf & _ & _ & Hinf & ->).
  cbn [info with_info] in *.
  apply new_info_inr in Hinf as (_ & Htop & md & Hmd & Hnested).
  assert (rsplit1_head (field_name OUTPUT_KEY suffix) = OUTPUT_KEY) as Hbase
    by by apply rsplit1_head_app.
  split.
  - intros k v Hk. apply Htop; [intros Heq; by apply (Hres k)|].
    split; [by apply Hfields|]. exists (field_name OUTPUT_KEY suffix).
    split; [done|]. rewrite Hbase. apply str_in_field.
  - unfold nested_lookup at 1. rewrite Hmd. apply Hnested.
    split; [|done]. by exists (field_name OUTPUT_KEY suffix).
Qed.

Lemma quests_reserved k : sample_key ≠ field_name "quests_descriptor" k.
Proof. discriminate. Qed.

Lemma attach_described :
  attach_metadata "quests_descriptor" sample_key quests_metadata
                  (info described_atoms) = inr described_info.
Proof. vm_compute. reflexivity. Qed.

Lemma attach_metadata_entries_witness :
  described_info !! field_name "quests_descriptor" "num_nearest_neighbors"
  = Some (PyNum 32)
  ∧ nested_lookup sample_key described_info "quests_descriptor"
    = Some (PyDict quests_metadata).
Proof.
  destruct (attach_metadata_entries "quests_descriptor" sample_key
              quests_metadata quests_reserved (info described_atoms)
              described_info attach_described)
    as (Hfields & Hnested & _).
  split; [|exact Hnested].
  apply (Hfields "num_nearest_neighbors"). vm_compute. reflexivity.
Defined.

Lemma attach_metadata_total_witness :
  info described_atoms !! sample_key = None
  ∨ ∃ d, info described_atoms !! sample_key = Some (PyDict d).
Proof.
  pose proof (attach_metadata_total "quests_descriptor" sample_key
                quests_metadata quests_reserved (info described_atoms)) as H.
  rewrite attach_described in H. exact H.
Defined.

Lemma attach_metadata_idempotent_witness :
  attach_metadata "quests_descriptor" sample_key quests_metadata described_info
  = inr described_info.
Proof.
  apply (attach_metadata_idempotent "quests_descriptor" sample_key
           quests_metadata quests_reserved (info described_atoms)).
  exact attach_described.
Defined.

Lemma extract_env_keeps_descriptor_metadata_witness :
  nested_lookup sample_key (info described_out) "quests_descriptor"
  = Some (PyDict quests_metadata).
Proof.
  apply (extract_env_keeps_descriptor_metadata "quests_descriptor" sample_key
           quests_metadata described_atoms described_info two_atoms_nl 2
           (IdxList [0]) cube6 false (Some ["quests_descriptor_descriptors"])
           "descriptors" [described_out] 0 described_out quests_reserved
           attach_described).
  - vm_compute. reflexivity.
  - reflexivity.
  - left.
  - vm_compute. reflexivity.
Defined.

(** ** Concrete scenarios *)

(** The scenario of the specification: a cubic source cell of side 10, one
    atom at the origin, [rc = 2], a target cell of side 6, the sphere: one
    atom at [(3, 3, 3)], constrained. *)
Example one_atom_scenario :
  extract_env sample_key one_atom one_atom_nl 2 (IdxList [0]) cube6 false None
  = inr [one_atom_out].
Proof. vm_compute. reflexivity. Qed.

(** The same cubic cell of side 6 is accepted as a 3-vector (above) and
    refused as a diagonal 3x3 matrix. *)
Example cubic_matrix_cell_refused :
  extract_env sample_key one_atom one_atom_nl 2 (IdxList [0]) (Mat3 diag6)
              false None
  = raise (ValueError
      "The truth value of an array with more than one element is ambiguous. Use a.any() or a.all()").
Proof. reflexivity. Qed.

(** Two atoms at distinct places can also both land on the centre: the
    shift by the box centre absorbs a displacement of [2^-100]. *)
Example nearby_atoms_at_center :
  extract_env sample_key nearby coincident_nl 2 (IdxList [0]) cube6 false None
  = inr [coincident_out].
Proof. vm_compute. reflexivity. Qed.

(** An integer index and the one-element list give the same result. *)
Example integer_index_scenario :
  extract_env sample_key one_atom one_atom_nl 2 (IdxInt 0) cube6 false None
  = inr [one_atom_out].
Proof. vm_compute. reflexivity. Qed.
